(** * Fleet_Map: navigation sessions, movement planning and station discovery

    A shallow embedding of the backend of Fleet_Map:
    - [RouteLogic.js]  ([interpolateCoordinates], [processRouteForMovement]),
    - [RouteChargingLogic.js] ([selectEvenlySpacedStations],
      [findNearestPointOnRoute], [calculateDistance],
      [findStationsNearRoutePoints], [findStationsWithinRouteBuffer]),
    - [server.js] (the [activeNavigations] table, the socket handlers and the
      start / pause / resume / stop handlers with their interval callbacks).

    Numbers.  JavaScript numbers are IEEE doubles.  Two idealisations are used:
    - in the planner and in the session engine a number is an exact rational,
      or one of the three non-finite values [NaN], [+Infinity], [-Infinity]
      (rounding and the sign of zero are not modelled);
    - in the station locator, whose distance is built from [Math.sin],
      [Math.cos], [Math.atan2] and [Math.sqrt], a number is a real.

    Concurrency.  Node runs one handler or callback at a time, and a
    handler gives way at each [await].  The session engine is a transition
    system whose steps are the stretches between the awaits, so that
    requests, firings and settling store calls interleave as they can on
    the server; the reachable states and the invariants are those of this
    system.  The whole run of a handler, with nothing in between, is a
    step of its own, shown equal to its stretches run in a row. *)

From Stdlib Require Import ZArith QArith Qround Qabs Reals Lia Lqa Lra.
From stdpp Require Import gmap strings list sorting.

(** ** JavaScript values used by the backend *)

Module Js.

(** A JavaScript number: a finite value or one of the non-finite ones. *)
Inductive jsnum : Type :=
  | Fin (q : Q)
  | PInf
  | NInf
  | NaN.

(** What a call can throw.  [TypeError] is what reading a property of
    [undefined] raises; [StoreError] is a rejected promise of the database
    driver. *)
Inductive exn : Type :=
  | TypeError
  | StoreError.

Inductive result (A : Type) : Type :=
  | Ok (a : A)
  | Throw (e : exn).
Arguments Ok {A} a.
Arguments Throw {A} e.

Definition fin (q : Q) : jsnum := Fin (Qred q).

Definition of_Z (z : Z) : jsnum := Fin (inject_Z z).

Definition of_nat (n : nat) : jsnum := of_Z (Z.of_nat n).

Definition jneg (a : jsnum) : jsnum :=
  match a with
  | Fin q => fin (- q)
  | PInf => NInf
  | NInf => PInf
  | NaN => NaN
  end.

Definition jadd (a b : jsnum) : jsnum :=
  match a, b with
  | NaN, _ | _, NaN => NaN
  | Fin x, Fin y => fin (x + y)
  | PInf, NInf | NInf, PInf => NaN
  | PInf, _ | _, PInf => PInf
  | NInf, _ | _, NInf => NInf
  end.

Definition jsub (a b : jsnum) : jsnum := jadd a (jneg b).

(** The sign of a rational: [Lt], [Eq] or [Gt] with respect to zero. *)
Definition qsign (q : Q) : comparison := (q ?= 0)%Q.

Definition inf_of_sign (s : comparison) : jsnum :=
  match s with
  | Gt => PInf
  | Lt => NInf
  | Eq => NaN
  end.

Definition jmul (a b : jsnum) : jsnum :=
  match a, b with
  | NaN, _ | _, NaN => NaN
  | Fin x, Fin y => fin (x * y)
  | Fin x, PInf | PInf, Fin x => inf_of_sign (qsign x)
  | Fin x, NInf | NInf, Fin x => inf_of_sign (CompOpp (qsign x))
  | PInf, PInf | NInf, NInf => PInf
  | PInf, NInf | NInf, PInf => NaN
  end.

(** [a / b].  A finite non-zero value over zero is an infinity, zero over zero
    is [NaN], finite over infinite is zero. *)
Definition jdiv (a b : jsnum) : jsnum :=
  match a, b with
  | NaN, _ | _, NaN => NaN
  | Fin x, Fin y =>
      match qsign y with
      | Eq => inf_of_sign (qsign x)
      | _ => fin (x / y)
      end
  | Fin _, PInf | Fin _, NInf => Fin 0
  | PInf, Fin y => match qsign y with Lt => NInf | _ => PInf end
  | NInf, Fin y => match qsign y with Lt => PInf | _ => NInf end
  | PInf, PInf | PInf, NInf | NInf, PInf | NInf, NInf => NaN
  end.

(** [Math.floor]. *)
Definition jfloor (a : jsnum) : jsnum :=
  match a with
  | Fin q => of_Z (Qfloor q)
  | other => other
  end.

(** [Math.min] of two numbers. *)
Definition jmin (a b : jsnum) : jsnum :=
  match a, b with
  | NaN, _ | _, NaN => NaN
  | NInf, _ | _, NInf => NInf
  | PInf, other | other, PInf => other
  | Fin x, Fin y => if Qle_bool x y then Fin x else Fin y
  end.

(** [a === b] on numbers: [NaN] is not equal to itself. *)
Definition strict_eq (a b : jsnum) : bool :=
  match a, b with
  | Fin x, Fin y => Qeq_bool x y
  | PInf, PInf | NInf, NInf => true
  | _, _ => false
  end.

(** The array index a number denotes when it is used as a property key:
    only a non-negative integer names an element. *)
Definition array_index (a : jsnum) : option nat :=
  match a with
  | Fin q =>
      let r := Qred q in
      if (Qden r =? 1)%positive && (0 <=? Qnum r)%Z
      then Some (Z.to_nat (Qnum r)) else None
  | _ => None
  end.

(** [arr[k]]: the element, or [undefined] (here [None]). *)
Definition get {A : Type} (arr : list A) (k : jsnum) : option A :=
  match array_index k with
  | Some i => arr !! i
  | None => None
  end.

End Js.

(** ** RouteLogic.js: the movement planner *)

Module RouteLogic.
Import Js.

(** A coordinate pair [[lng, lat]]. *)
Definition point : Type := jsnum * jsnum.

(** An array element that may be [undefined]. *)
Definition value : Type := option point.

(** The part of a stored route document that the planner reads:
    [features[0].geometry.coordinates] and
    [features[0].properties.summary.duration] (a finite number, as it comes
    from JSON).  [features[0].properties.segments[0].steps] is read and never
    used; the document is taken to have it. *)
Record RouteData : Type := mkRouteData {
  coordinates : list point;
  duration : Q
}.

Definition interpolateCoordinates (start end_ : value) (progress : jsnum)
  : result point :=
  match start, end_ with
  | Some (lng0, lat0), Some (lng1, lat1) =>
      let lat := jadd lat0 (jmul (jsub lat1 lat0) progress) in
      let lng := jadd lng0 (jmul (jsub lng1 lng0) progress) in
      Ok (lng, lat)
  | _, _ => Throw TypeError
  end.

(** One iteration of the [for] loop: the value pushed for index [i]. *)
Definition movementPoint (routeCoordinates : list point) (totalPoints i : Z)
  : result value :=
  let len1 := of_Z (Z.of_nat (length routeCoordinates) - 1) in
  let progress := jdiv (of_Z i) (of_Z (totalPoints - 1)) in
  let coordIndex := jfloor (jmul progress len1) in
  let nextCoordIndex := jmin (jadd coordIndex (of_Z 1)) len1 in
  if strict_eq coordIndex nextCoordIndex then
    Ok (get routeCoordinates coordIndex)
  else
    let localProgress := jsub (jmul progress len1) coordIndex in
    match interpolateCoordinates (get routeCoordinates coordIndex)
            (get routeCoordinates nextCoordIndex) localProgress with
    | Ok p => Ok (Some p)
    | Throw e => Throw e
    end.

(** The loop [for (let i = 0; i < totalPoints; i++)], with [fuel] iterations
    left to run from index [i]; it stops at the first exception. *)
Fixpoint movementLoop (routeCoordinates : list point) (totalPoints : Z)
    (fuel : nat) (i : Z) (movementPoints : list value) : result (list value) :=
  match fuel with
  | O => Ok movementPoints
  | S fuel' =>
      match movementPoint routeCoordinates totalPoints i with
      | Ok v =>
          movementLoop routeCoordinates totalPoints fuel' (i + 1)
            (movementPoints ++ [v])
      | Throw e => Throw e
      end
  end.

Definition processRouteForMovement (routeData : RouteData)
  : result (list value) :=
  let routeCoordinates := coordinates routeData in
  let totalDurationSeconds := Qceiling (duration routeData) in
  let totalPoints :=
    Z.max totalDurationSeconds (Z.of_nat (length routeCoordinates)) in
  movementLoop routeCoordinates totalPoints (Z.to_nat totalPoints) 0 [].

(** The fractional position [progress * (len - 1)] of output index [i], as a
    rational, when there are at least two output points. *)
Definition fractionalPosition (len tp i : Z) : Q :=
  (inject_Z i / inject_Z (tp - 1) * inject_Z (len - 1))%Q.

(** A point both of whose coordinates are finite numbers. *)
Definition finite (p : point) : Prop :=
  match p with
  | (Fin _, Fin _) => True
  | _ => False
  end.

(** [x] lies between [a] and [b], in either order. *)
Definition between (a x b : Q) : Prop :=
  (a <= x <= b)%Q \/ (b <= x <= a)%Q.

(** [p] lies, coordinate by coordinate, between [p0] and [p1]. *)
Definition within (p0 p p1 : point) : Prop :=
  match p0, p, p1 with
  | (Fin x0, Fin y0), (Fin x, Fin y), (Fin x1, Fin y1) =>
      between x0 x x1 /\ between y0 y y1
  | _, _, _ => False
  end.

End RouteLogic.

(** ** RouteChargingLogic.js: stations along a route *)

Module RouteChargingLogic.
Import Js.

(** *** Even-spacing selection *)

Section Select.
Context {A : Type}.

(** [undefined] is the value that reading an array outside its bounds
    yields. *)
Variable undefined : A.

(** [maxStations] is a count (the callers pass 4).  For
    [maxStations = 0] and a non-empty array the JavaScript [spacing] is
    [Infinity] and the loop does not run; here [spacing] is then [0] and the
    loop does not run either. *)
Definition selectEvenlySpacedStations (stations : list A) (maxStations : nat)
  : list A :=
  if (length stations <=? maxStations)%nat then stations
  else
    let totalStations := length stations in
    let spacing := (totalStations / maxStations)%nat in
    (fun i : nat =>
       let index := Nat.min (i * spacing) (totalStations - 1) in
       nth index stations undefined) <$> seq 0 maxStations.

End Select.

(** *** Numbers of the locator *)

Local Open Scope R_scope.

(** A real, or one of the infinities that [calculateRouteBounds] and
    [findNearestPointOnRoute] start from. *)
Inductive xreal : Type :=
  | XR (r : R)
  | XPInf
  | XNInf.

(** [Math.min] and [Math.max] of an accumulator and a real. *)
Definition xmin (a : xreal) (r : R) : xreal :=
  match a with
  | XR x => XR (Rmin x r)
  | XPInf => XR r
  | XNInf => XNInf
  end.

Definition xmax (a : xreal) (r : R) : xreal :=
  match a with
  | XR x => XR (Rmax x r)
  | XPInf => XPInf
  | XNInf => XR r
  end.

Definition xplus (a : xreal) (r : R) : xreal :=
  match a with
  | XR x => XR (x + r)
  | other => other
  end.

(** [r < a] for an accumulator [a]. *)
Definition lt_x (r : R) (a : xreal) : bool :=
  match a with
  | XR x => if Rlt_dec r x then true else false
  | XPInf => true
  | XNInf => false
  end.

(** [a <= r]. *)
Definition x_le (a : xreal) (r : R) : bool :=
  match a with
  | XR x => if Rle_dec x r then true else false
  | XPInf => false
  | XNInf => true
  end.

(** [Math.round]: the nearest integer, halves rounded up. *)
Definition round (x : R) : R := IZR (Zfloor (x + / 2)).

(** [Math.round(x * 10) / 10]. *)
Definition round1 (x : R) : R := round (x * 10) / 10.

Definition xround1 (a : xreal) : xreal :=
  match a with
  | XR x => XR (round1 x)
  | other => other
  end.

(** [Math.atan2(y, x)]. *)
Definition atan2 (y x : R) : R :=
  if Rlt_dec 0 x then atan (y / x)
  else if Rlt_dec x 0 then
    if Rle_dec 0 y then atan (y / x) + PI else atan (y / x) - PI
  else if Rlt_dec 0 y then PI / 2
  else if Rlt_dec y 0 then - (PI / 2)
  else 0.

(** *** Distances *)

(** A coordinate pair [[lng, lat]] in degrees. *)
Definition coord : Type := R * R.

Definition calculateDistance (coord1 coord2 : coord) : R :=
  let R := 6371 in
  let lat1 := snd coord1 * PI / 180 in
  let lat2 := snd coord2 * PI / 180 in
  let deltaLat := (snd coord2 - snd coord1) * PI / 180 in
  let deltaLng := (fst coord2 - fst coord1) * PI / 180 in
  let a := sin (deltaLat / 2) * sin (deltaLat / 2) +
           cos lat1 * cos lat2 *
           sin (deltaLng / 2) * sin (deltaLng / 2) in
  let c := 2 * atan2 (sqrt a) (sqrt (1 - a)) in
  R * c.

Record RoutePosition : Type := mkRoutePosition {
  index : nat;
  coordinates : option coord;
  distanceKm : xreal
}.

(** The scan of [findNearestPointOnRoute] from index [i] on, with the
    running minimum, its index and its vertex. *)
Fixpoint nearestScan (stationCoords : coord) (rest : list coord) (i : nat)
    (minDistance : xreal) (nearestIndex : nat) (nearestPoint : option coord)
  : xreal * nat * option coord :=
  match rest with
  | [] => (minDistance, nearestIndex, nearestPoint)
  | c :: rest' =>
      let distance := calculateDistance stationCoords c in
      if lt_x distance minDistance
      then nearestScan stationCoords rest' (S i) (XR distance) i (Some c)
      else nearestScan stationCoords rest' (S i)
             minDistance nearestIndex nearestPoint
  end.

Definition findNearestPointOnRoute (stationCoords : coord)
    (routeCoordinates : list coord) : RoutePosition :=
  let '(minDistance, nearestIndex, nearestPoint) :=
    nearestScan stationCoords routeCoordinates 0
      XPInf 0%nat (routeCoordinates !! 0%nat) in
  {| index := nearestIndex;
     coordinates := nearestPoint;
     distanceKm := xround1 minDistance |}.

(** *** Station discovery *)

(** The fields of a [ChargingStation] document that the locator reads (the
    schema has more: address, connector types, power, operator, ...). *)
Record ChargingStation : Type := mkChargingStation {
  stationId : string;
  name : string;
  location_coordinates : coord;
  isOperational : bool
}.

(** A station with its projection on the route. *)
Record RouteStationMatch : Type := mkRouteStationMatch {
  station : ChargingStation;
  routePosition : RoutePosition;
  distanceFromRouteKm : xreal
}.

Record Bounds : Type := mkBounds {
  minLng : xreal;
  maxLng : xreal;
  minLat : xreal;
  maxLat : xreal
}.

Definition calculateRouteBounds (routeCoordinates : list coord) : Bounds :=
  fold_left
    (fun b c =>
       {| minLng := xmin (minLng b) (fst c);
          maxLng := xmax (maxLng b) (fst c);
          minLat := xmin (minLat b) (snd c);
          maxLat := xmax (maxLat b) (snd c) |})
    routeCoordinates
    {| minLng := XPInf; maxLng := XNInf; minLat := XPInf; maxLat := XNInf |}.

(** [Array.prototype.sort] with the comparator
    [(a, b) => a.routePosition.index - b.routePosition.index]: a stable sort
    by route index, written as an insertion sort. *)
Fixpoint insertByRouteIndex (m : RouteStationMatch)
    (sorted : list RouteStationMatch) : list RouteStationMatch :=
  match sorted with
  | [] => [m]
  | x :: rest =>
      if (index (routePosition m) <? index (routePosition x))%nat
      then m :: x :: rest
      else x :: insertByRouteIndex m rest
  end.

Definition sortByRouteIndex (l : list RouteStationMatch)
  : list RouteStationMatch :=
  fold_left (fun sorted m => insertByRouteIndex m sorted) l [].

(** [routeCoordinates.filter((_, index) => index % sampleInterval === 0)],
    scanning from index [i]. *)
Fixpoint sampleFrom (sampleInterval : nat) (i : nat) (l : list coord)
  : list coord :=
  match l with
  | [] => []
  | c :: rest =>
      if (i mod sampleInterval =? 0)%nat
      then c :: sampleFrom sampleInterval (S i) rest
      else sampleFrom sampleInterval (S i) rest
  end.

Section Store.

(** The two queries on the station collection.  What they return is decided
    by the database, so they are parameters.
    [findInBox b n] is [ChargingStation.find({isOperational: true,
    coordinates within b}).limit(n)];
    [geoNear p d] is the [$geoNear] aggregation around [p] with
    [maxDistance = d] metres, restricted to operational stations and limited
    to 10: each station comes with its [distanceFromPoint] in metres. *)
Variable findInBox : Bounds -> nat -> result (list ChargingStation).
Variable geoNear : coord -> R -> result (list (ChargingStation * R)).

Definition findStationsWithinRouteBuffer (routeCoordinates : list coord)
    (maxDistance : R) (maxStations : nat) : list (option RouteStationMatch) :=
  let bounds := calculateRouteBounds routeCoordinates in
  let buffer := maxDistance / 111 in
  let expandedBounds :=
    {| minLng := xplus (minLng bounds) (- buffer);
       maxLng := xplus (maxLng bounds) buffer;
       minLat := xplus (minLat bounds) (- buffer);
       maxLat := xplus (maxLat bounds) buffer |} in
  match findInBox expandedBounds (maxStations * 5) with
  | Throw _ => []
  | Ok nearbyStations =>
      if (length nearbyStations =? 0)%nat then []
      else
        let stationsWithDistance :=
          omap (fun station =>
                  let stationCoords := location_coordinates station in
                  let routePosition :=
                    findNearestPointOnRoute stationCoords routeCoordinates in
                  if x_le (distanceKm routePosition) maxDistance
                  then Some {| station := station;
                               routePosition := routePosition;
                               distanceFromRouteKm :=
                                 distanceKm routePosition |}
                  else None)
               nearbyStations in
        selectEvenlySpacedStations None
          (Some <$> sortByRouteIndex stationsWithDistance) maxStations
  end.

(** [allStations.has(id)] on the insertion-ordered [Map]. *)
Definition has (allStations : list (string * RouteStationMatch))
    (id : string) : bool :=
  existsb (fun kv => bool_decide (fst kv = id)) allStations.

(** The body of [nearbyStations.forEach] for one station. *)
Definition addStation (routeCoordinates : list coord)
    (allStations : list (string * RouteStationMatch))
    (found : ChargingStation * R) : list (string * RouteStationMatch) :=
  let '(station, distanceFromPoint) := found in
  if has allStations (stationId station) then allStations
  else
    let stationCoords := location_coordinates station in
    let routePosition :=
      findNearestPointOnRoute stationCoords routeCoordinates in
    allStations ++
      [(stationId station,
        {| station := station;
           routePosition := routePosition;
           distanceFromRouteKm :=
             XR (round (distanceFromPoint / 1000 * 10) / 10) |})].

(** The body of the loop over the sample points; a failed query is logged
    and the loop goes on. *)
Definition visitSample (routeCoordinates : list coord) (maxDistance : R)
    (allStations : list (string * RouteStationMatch)) (point : coord)
  : list (string * RouteStationMatch) :=
  match geoNear point (maxDistance * 1000) with
  | Ok nearbyStations =>
      fold_left (addStation routeCoordinates) nearbyStations allStations
  | Throw _ => allStations
  end.

Definition findStationsNearRoutePoints (routeCoordinates : list coord)
    (maxDistance : R) (maxStations : nat) : list (option RouteStationMatch) :=
  let sampleInterval := Nat.max 1 (length routeCoordinates / 10) in
  let samplePoints := sampleFrom sampleInterval 0 routeCoordinates in
  let allStations :=
    fold_left (visitSample routeCoordinates maxDistance) samplePoints [] in
  let stationsArray := snd <$> allStations in
  selectEvenlySpacedStations None
    (Some <$> sortByRouteIndex stationsArray) maxStations.

(** Neither strategy lets an exception escape, so the outer [catch] of the
    source is never entered. *)
Definition findChargingStationsAlongRoute (routeCoordinates : list coord)
    (maxDistance : R) (maxStations : nat) : list (option RouteStationMatch) :=
  if (length routeCoordinates <? 2)%nat then []
  else
    let stations :=
      findStationsWithinRouteBuffer routeCoordinates maxDistance maxStations in
    if (0 <? length stations)%nat then stations
    else findStationsNearRoutePoints routeCoordinates maxDistance maxStations.

End Store.

(** *** Vocabulary of the properties *)

(** What the scan of [findNearestPointOnRoute] has found after the prefix
    [seen] of the route: nothing if the prefix is empty, otherwise the
    first vertex of the prefix at the least distance from the station. *)
Definition nearest_so_far (stationCoords : coord) (seen : list coord)
    (minDistance : xreal) (nearestIndex : nat) (nearestPoint : option coord)
  : Prop :=
  match minDistance with
  | XPInf => seen = []
  | XNInf => False
  | XR d =>
      exists c, seen !! nearestIndex = Some c
        /\ nearestPoint = Some c
        /\ d = calculateDistance stationCoords c
        /\ (forall j c', seen !! j = Some c' ->
              d <= calculateDistance stationCoords c')
        /\ (forall j c', (j < nearestIndex)%nat -> seen !! j = Some c' ->
              d < calculateDistance stationCoords c')
  end.

(** The box that [findStationsWithinRouteBuffer] queries: the bounds of the
    route widened by [maxDistance / 111] degrees on each side. *)
Definition expandedBounds (routeCoordinates : list coord) (maxDistance : R)
  : Bounds :=
  let bounds := calculateRouteBounds routeCoordinates in
  let buffer := maxDistance / 111 in
  {| minLng := xplus (minLng bounds) (- buffer);
     maxLng := xplus (maxLng bounds) buffer;
     minLat := xplus (minLat bounds) (- buffer);
     maxLat := xplus (maxLat bounds) buffer |}.

(** The sample points of [findStationsNearRoutePoints]. *)
Definition samplePoints (routeCoordinates : list coord) : list coord :=
  sampleFrom (Nat.max 1 (length routeCoordinates / 10)) 0 routeCoordinates.

(** A match of the bounding-box strategy: a station that the box query
    returned, with its projection on the route, no further from the route
    than [maxDistance]. *)
Definition bufferMatch
    (findInBox : Bounds -> nat -> result (list ChargingStation))
    (routeCoordinates : list coord) (maxDistance : R)
    (maxStations : nat) (m : RouteStationMatch) : Prop :=
  (exists nearbyStations,
      findInBox (expandedBounds routeCoordinates maxDistance)
        (maxStations * 5)%nat = Ok nearbyStations
      /\ station m ∈ nearbyStations)
  /\ routePosition m
     = findNearestPointOnRoute (location_coordinates (station m))
         routeCoordinates
  /\ distanceFromRouteKm m = distanceKm (routePosition m)
  /\ x_le (distanceKm (routePosition m)) maxDistance = true.

(** A match of the sampling strategy: a station that the geo-nearest query
    returned around some sample point, with its projection on the route and
    the rounded distance from that sample point. *)
Definition sampleMatch
    (geoNear : coord -> R -> result (list (ChargingStation * R)))
    (routeCoordinates : list coord) (maxDistance : R)
    (m : RouteStationMatch) : Prop :=
  routePosition m
  = findNearestPointOnRoute (location_coordinates (station m))
      routeCoordinates
  /\ exists point nearbyStations distanceFromPoint,
       point ∈ samplePoints routeCoordinates
       /\ geoNear point (maxDistance * 1000) = Ok nearbyStations
       /\ (station m, distanceFromPoint) ∈ nearbyStations
       /\ distanceFromRouteKm m
          = XR (round (distanceFromPoint / 1000 * 10) / 10).

(** What the loop of the sampling strategy keeps true of [allStations]:
    the keys are distinct, each is the identifier of its station, and each
    entry is a match of the strategy. *)
Definition collected
    (geoNear : coord -> R -> result (list (ChargingStation * R)))
    (routeCoordinates : list coord) (maxDistance : R)
    (allStations : list (string * RouteStationMatch)) : Prop :=
  NoDup (fst <$> allStations)
  /\ Forall (fun kv => fst kv = stationId (station (snd kv))
                      /\ sampleMatch geoNear routeCoordinates maxDistance
                           (snd kv))
       allStations.

(** The station identifiers and the route indices of a result, skipping
    [undefined] elements, and the order that the sort establishes. *)
Definition stationIds (l : list (option RouteStationMatch)) : list string :=
  omap (fun x => (fun m => stationId (station m)) <$> x) l.

Definition routeIndices (l : list (option RouteStationMatch)) : list nat :=
  omap (fun x => (fun m => index (routePosition m)) <$> x) l.

Definition byRouteIndex (a b : RouteStationMatch) : Prop :=
  (index (routePosition a) <= index (routePosition b))%nat.

End RouteChargingLogic.

(** ** server.js: the navigation sessions *)

Module Server.
Import Js RouteLogic.
Local Open Scope string_scope.

(** *** Data *)

(** [navigation.status]: the strings ['active'] and ['paused']. *)
Inductive NavStatus : Type :=
  | active
  | paused.

(** [route.status]: ['created'], ['alive'] or ['dead']. *)
Inductive RouteStatus : Type :=
  | created
  | alive
  | dead.

(** Modelled from the spec: the [Route] schema ([Route.js]) is not part of
    the sources; server.js reads and writes the fields below (owner, name,
    geometry and duration, lifecycle status, active flag). *)
Record Route : Type := mkRoute {
  route_userId : string;
  route_routeName : string;
  route_data : RouteData;
  route_status : RouteStatus;
  route_isActive : bool
}.

(** A handle returned by [setInterval]. *)
Definition handle : Type := nat.

(** A reference to a [navigation] object.  The object is shared by the
    table [activeNavigations] and by the interval callbacks that close over
    it. *)
Definition ref : Type := nat.

(** The [navigation] object built by [/startNavigation]. *)
Record Navigation : Type := mkNavigation {
  userId : string;
  routeId : string;
  routeName : string;
  movementPoints : list value;
  currentIndex : nat;
  currentPosition : value;
  status : NavStatus;
  startTime : Z;
  interval : option handle
}.

(** An interval callback with the variables it closes over.  The callback
    installed by [/startNavigation] closes over [navigation], [userId] and
    [routeId]; the one installed by [/resumeNavigation] over [navigation]
    and [userId] (it reads [navigation.routeId]). *)
Inductive Timer : Type :=
  | StartCallback (navigation : ref) (userId routeId : string)
  | ResumeCallback (navigation : ref) (userId : string).

Definition callback_navigation (c : Timer) : ref :=
  match c with
  | StartCallback a _ _ => a
  | ResumeCallback a _ => a
  end.

Definition callback_userId (c : Timer) : string :=
  match c with
  | StartCallback _ u _ => u
  | ResumeCallback _ u => u
  end.

(** The route a callback reports: the closed-over [routeId], or
    [navigation.routeId]. *)
Definition callback_routeId (c : Timer) (navigation : Navigation) : string :=
  match c with
  | StartCallback _ _ r => r
  | ResumeCallback _ _ => routeId navigation
  end.

(** The payloads of the socket events. *)
Inductive Payload : Type :=
  | LocationUpdate (routeId routeName : string) (position : value)
      (progress : jsnum) (currentIndex totalPoints estimatedTimeRemaining : nat)
  | LiveLocationUpdate (userId routeId routeName : string) (position : value)
      (progress : jsnum) (timestamp : Z)
  | NavigationCompleted (routeId routeName message : string)
  | RouteCompleted (userId routeId routeName : string) (completedAt : Z)
  | NavigationStopped (routeId routeName : string)
  | RouteStopped (userId routeId routeName : string) (stoppedAt : Z).

(** What a handler asks of its collaborators: [io.to(room).emit(event,
    payload)], [Route.findByIdAndUpdate(id, {status, isActive})] and
    [Fleet.findOneAndUpdate({_id: id}, {$set: coordinates})].  A store call
    is listed when it is issued, whether or not the store accepts it. *)
Inductive Effect : Type :=
  | Emit (room event : string) (payload : Payload)
  | RouteUpdate (routeId : string) (status : RouteStatus) (isActive : bool)
  | FleetUpdate (id : string) (position : value).

(** The outcome of one awaited store call. *)
Inductive StoreOutcome : Type :=
  | Resolves
  | Rejects.

(** The outcomes of the store calls of one handler run, in the order in
    which the handler awaits them. *)
Definition Outcomes : Type := nat -> StoreOutcome.

Inductive Body : Type :=
  | ErrorBody (error : string)
  | StartedBody (message routeId routeName : string) (totalPoints : nat)
  | SuccessBody (message routeId : string).

Record Response : Type := mkResponse {
  code : nat;
  body : Body
}.

Record Output : Type := mkOutput {
  response : option Response;
  effects : list Effect
}.

(** A handler or a callback suspended at an [await], with the variables
    its continuation reads: [/startNavigation] at [Route.findById] (line
    273) and at [Route.findByIdAndUpdate] (278); the callback of
    [/startNavigation] at [Fleet.findOneAndUpdate] (329) and at
    [Fleet.findOne] (349); either callback at the [Route.findByIdAndUpdate]
    of its completion branch (302, 582), with the identifier passed to the
    call; [/stopNavigation] at its [Route.findByIdAndUpdate] (443). *)
Inductive Continuation : Type :=
  | AwaitRoute (userId routeId : string)
  | AwaitRouteAlive (userId routeId : string) (route : Route)
  | AwaitFleet (navigation : ref) (userId routeId : string)
      (currentPosition : value)
  | AwaitFleetExists (navigation : ref) (userId routeId : string)
      (currentPosition : value)
  | AwaitRouteDead (callback : Timer) (routeId : string)
  | AwaitRouteStopped (navigation : ref) (userId routeId : string).

(** The [navigation] object a continuation holds, if any. *)
Definition continuation_navigation (c : Continuation) : option ref :=
  match c with
  | AwaitRoute _ _ | AwaitRouteAlive _ _ _ => None
  | AwaitFleet a _ _ _ | AwaitFleetExists a _ _ _ => Some a
  | AwaitRouteDead callback _ => Some (callback_navigation callback)
  | AwaitRouteStopped a _ _ => Some a
  end.

(** The process state and the persistent store.
    [activeNavigations] is the [Map] of line 31; [heap] holds the
    [navigation] objects; [timers] the intervals that have not been cleared;
    [routes] and [fleet] are the two collections ([fleet] maps the [_id] of
    a vehicle to its stored coordinates); [sockets] maps the id of a
    connected socket to its [userId] property, if set; [pending] holds the
    store calls that have been issued and not yet settled, each with the
    continuation that awaits it. *)
Record State : Type := mkState {
  activeNavigations : gmap string ref;
  heap : gmap ref Navigation;
  timers : gmap handle Timer;
  nextRef : ref;
  nextHandle : handle;
  routes : gmap string Route;
  fleet : gmap string value;
  sockets : gmap string (option string);
  pending : gmap nat Continuation
}.

Definition initial (routes : gmap string Route) (fleet : gmap string value)
  : State :=
  {| activeNavigations := ∅; heap := ∅; timers := ∅;
     nextRef := 0; nextHandle := 0;
     routes := routes; fleet := fleet; sockets := ∅; pending := ∅ |}.

(** *** Field updates *)

Definition with_navigations (f : gmap string ref -> gmap string ref)
    (s : State) : State :=
  mkState (f (activeNavigations s)) (heap s) (timers s) (nextRef s)
    (nextHandle s) (routes s) (fleet s) (sockets s) (pending s).

Definition with_heap (f : gmap ref Navigation -> gmap ref Navigation)
    (s : State) : State :=
  mkState (activeNavigations s) (f (heap s)) (timers s) (nextRef s)
    (nextHandle s) (routes s) (fleet s) (sockets s) (pending s).

Definition with_timers (f : gmap handle Timer -> gmap handle Timer)
    (s : State) : State :=
  mkState (activeNavigations s) (heap s) (f (timers s)) (nextRef s)
    (nextHandle s) (routes s) (fleet s) (sockets s) (pending s).

Definition with_routes (f : gmap string Route -> gmap string Route)
    (s : State) : State :=
  mkState (activeNavigations s) (heap s) (timers s) (nextRef s)
    (nextHandle s) (f (routes s)) (fleet s) (sockets s) (pending s).

Definition with_fleet (f : gmap string value -> gmap string value)
    (s : State) : State :=
  mkState (activeNavigations s) (heap s) (timers s) (nextRef s)
    (nextHandle s) (routes s) (f (fleet s)) (sockets s) (pending s).

Definition with_sockets
    (f : gmap string (option string) -> gmap string (option string))
    (s : State) : State :=
  mkState (activeNavigations s) (heap s) (timers s) (nextRef s)
    (nextHandle s) (routes s) (fleet s) (f (sockets s)) (pending s).

Definition with_pending
    (f : gmap nat Continuation -> gmap nat Continuation) (s : State) : State :=
  mkState (activeNavigations s) (heap s) (timers s) (nextRef s)
    (nextHandle s) (routes s) (fleet s) (sockets s) (f (pending s)).

Definition set_position (p : value) (n : Navigation) : Navigation :=
  mkNavigation (userId n) (routeId n) (routeName n) (movementPoints n)
    (currentIndex n) p (status n) (startTime n) (interval n).

Definition set_index (i : nat) (n : Navigation) : Navigation :=
  mkNavigation (userId n) (routeId n) (routeName n) (movementPoints n)
    i (currentPosition n) (status n) (startTime n) (interval n).

Definition set_status (st : NavStatus) (n : Navigation) : Navigation :=
  mkNavigation (userId n) (routeId n) (routeName n) (movementPoints n)
    (currentIndex n) (currentPosition n) st (startTime n) (interval n).

Definition set_interval (h : option handle) (n : Navigation) : Navigation :=
  mkNavigation (userId n) (routeId n) (routeName n) (movementPoints n)
    (currentIndex n) (currentPosition n) (status n) (startTime n) h.

(** *** Builtins and store operations *)

(** [arr[i]] for an array whose elements may themselves be [undefined]. *)
Definition at_index (arr : list value) (i : nat) : value :=
  default None (arr !! i).

(** [clearInterval(h)]; clearing [null] does nothing. *)
Definition clearInterval (h : option handle) (s : State) : State :=
  match h with
  | Some t => with_timers (delete t) s
  | None => s
  end.

(** [setInterval(callback, 1000)]: a fresh handle. *)
Definition setInterval (callback : Timer) (s : State) : handle * State :=
  let t := nextHandle s in
  (t, mkState (activeNavigations s) (heap s) (<[t := callback]> (timers s))
        (nextRef s) (S t) (routes s) (fleet s) (sockets s) (pending s)).

(** Allocation of a [navigation] object. *)
Definition alloc (n : Navigation) (s : State) : ref * State :=
  let a := nextRef s in
  (a, mkState (activeNavigations s) (<[a := n]> (heap s)) (timers s)
        (S a) (nextHandle s) (routes s) (fleet s) (sockets s) (pending s)).

(** [Route.findByIdAndUpdate(id, {status, isActive})], when it resolves: a
    missing document is left missing. *)
Definition updateRoute (id : string) (st : RouteStatus) (act : bool)
    (s : State) : State :=
  with_routes
    (alter (fun r => mkRoute (route_userId r) (route_routeName r)
                       (route_data r) st act) id) s.

(** [Fleet.findOneAndUpdate({_id: id}, {$set: ...}, {upsert: false})], when
    it resolves: a missing document is not created. *)
Definition updateFleet (id : string) (p : value) (s : State) : State :=
  with_fleet (alter (fun _ => p) id) s.

(** [(currentIndex / movementPoints.length) * 100]. *)
Definition progressAt (index len : nat) : jsnum :=
  jmul (jdiv (of_nat index) (of_nat len)) (of_Z 100).

Definition progressOf (n : Navigation) : jsnum :=
  progressAt (currentIndex n) (length (movementPoints n)).

(** *** The interval callbacks, run without interleaving *)

(** [startTick], [resumeTick] and the handlers [startNavigation] and
    [stopNavigation] below are whole runs: what the callback or the handler
    does when no other event is handled while it awaits the store.  The
    stretches they are made of, which other events may separate, come
    after them ([tickBegin], [startRequest], [stopRequest], [settle]). *)

(** The two [emit] calls of a position update. *)
Definition locationEvents (navigation : Navigation) (userId routeId : string)
    (currentPosition : value) (now : Z) : list Effect :=
  let progress := progressOf navigation in
  let remainingPoints :=
    (length (movementPoints navigation) - currentIndex navigation)%nat in
  [ Emit userId "location-update"
      (LocationUpdate routeId (routeName navigation) currentPosition progress
         (currentIndex navigation) (length (movementPoints navigation))
         remainingPoints);
    Emit "fleet-manager" "live-location-update"
      (LiveLocationUpdate userId routeId (routeName navigation)
         currentPosition progress now) ].

(** The callback of [/startNavigation] (lines 297-408), run on the object
    [navigation] stored at [a].  [db 0] is the outcome of the first awaited
    store call of the run, [db 1] of the second. *)
Definition startTick (a : ref) (navigation : Navigation)
    (userId routeId : string) (now : Z) (db : Outcomes) (s : State)
  : State * list Effect :=
  if (length (movementPoints navigation) <=? currentIndex navigation)%nat then
    let s := clearInterval (interval navigation) s in
    let s := with_navigations (delete userId) s in
    match db 0%nat with
    | Rejects => (s, [RouteUpdate routeId dead false])
    | Resolves =>
        (updateRoute routeId dead false s,
         [ RouteUpdate routeId dead false;
           Emit userId "navigation-completed"
             (NavigationCompleted routeId (routeName navigation)
                ("Navigation completed for " +:+ routeName navigation
                   +:+ "!"));
           Emit "fleet-manager" "route-completed"
             (RouteCompleted userId routeId (routeName navigation) now) ])
    end
  else
    let currentPosition :=
      at_index (movementPoints navigation) (currentIndex navigation) in
    let navigation := set_position currentPosition navigation in
    let events := locationEvents navigation userId routeId currentPosition now in
    let increment :=
      with_heap
        (<[a := set_index (S (currentIndex navigation)) navigation]>) in
    let s := with_heap (<[a := navigation]>) s in
    match db 0%nat with
    | Rejects =>
        (* catch *)
        (increment s, FleetUpdate userId currentPosition :: events)
    | Resolves =>
        let fleetUpdate := fleet s !! userId in
        let s := updateFleet userId currentPosition s in
        match fleetUpdate with
        | Some _ =>
            (increment s, FleetUpdate userId currentPosition :: events)
        | None =>
            match db 1%nat with
            | Resolves =>
                (increment s, FleetUpdate userId currentPosition :: events)
            | Rejects =>
                (* catch *)
                (increment s, FleetUpdate userId currentPosition :: events)
            end
        end
    end.

(** The callback of [/resumeNavigation] (lines 575-634). *)
Definition resumeTick (a : ref) (navigation : Navigation)
    (userId : string) (now : Z) (db : Outcomes) (s : State)
  : State * list Effect :=
  if (length (movementPoints navigation) <=? currentIndex navigation)%nat then
    let s := clearInterval (interval navigation) s in
    let s := with_navigations (delete userId) s in
    match db 0%nat with
    | Rejects => (s, [RouteUpdate (routeId navigation) dead false])
    | Resolves =>
        (updateRoute (routeId navigation) dead false s,
         [ RouteUpdate (routeId navigation) dead false;
           Emit userId "navigation-completed"
             (NavigationCompleted (routeId navigation) (routeName navigation)
                ("Navigation completed for " +:+ routeName navigation
                   +:+ "!"));
           Emit "fleet-manager" "route-completed"
             (RouteCompleted userId (routeId navigation)
                (routeName navigation) now) ])
    end
  else
    let currentPosition :=
      at_index (movementPoints navigation) (currentIndex navigation) in
    let navigation := set_position currentPosition navigation in
    let events :=
      locationEvents navigation userId (routeId navigation)
        currentPosition now in
    let s :=
      with_heap
        (<[a := set_index (S (currentIndex navigation)) navigation]>) s in
    (s, events).

(** One whole firing of the interval [t]: only an interval that has not
    been cleared fires. *)
Definition tick (t : handle) (now : Z) (db : Outcomes) (s : State)
  : option (State * list Effect) :=
  callback ← timers s !! t;
  navigation ← heap s !! callback_navigation callback;
  match callback with
  | StartCallback a userId routeId =>
      Some (startTick a navigation userId routeId now db s)
  | ResumeCallback a userId =>
      Some (resumeTick a navigation userId now db s)
  end.

(** *** The request handlers *)

Definition error (c : nat) (msg : string) : Response :=
  mkResponse c (ErrorBody msg).

(** [POST /startNavigation] (lines 265-424), the whole run.  [db 0] is the
    outcome of [Route.findById], [db 1] of [Route.findByIdAndUpdate]. *)
Definition startNavigation (userId routeId : string) (now : Z)
    (db : Outcomes) (s : State) : State * Response * list Effect :=
  if decide (is_Some (activeNavigations s !! userId)) then
    (s, error 400 ("User already has an active navigation. "
                     +:+ "Stop current navigation first."), [])
  else
    match db 0%nat with
    | Rejects => (s, error 500 "Failed to start navigation", [])
    | Resolves =>
        match routes s !! routeId with
        | None => (s, error 404 "Route not found or access denied", [])
        | Some route =>
            if decide (route_userId route = userId) then
              match db 1%nat with
              | Rejects =>
                  (s, error 500 "Failed to start navigation",
                   [RouteUpdate routeId alive true])
              | Resolves =>
                  let s := updateRoute routeId alive true s in
                  match processRouteForMovement (route_data route) with
                  | Throw _ =>
                      (s, error 500 "Failed to start navigation",
                       [RouteUpdate routeId alive true])
                  | Ok movementPoints =>
                      let navigation :=
                        {| userId := userId;
                           routeId := routeId;
                           routeName := route_routeName route;
                           movementPoints := movementPoints;
                           currentIndex := 0;
                           currentPosition := at_index movementPoints 0;
                           status := active;
                           startTime := now;
                           interval := None |} in
                      let '(a, s) := alloc navigation s in
                      let '(t, s) :=
                        setInterval (StartCallback a userId routeId) s in
                      let s :=
                        with_heap
                          (<[a := set_interval (Some t) navigation]>) s in
                      let s := with_navigations (<[userId := a]>) s in
                      (s,
                       mkResponse 200
                         (StartedBody
                            ("Navigation started for "
                               +:+ route_routeName route)
                            routeId (route_routeName route)
                            (length movementPoints)),
                       [RouteUpdate routeId alive true])
                  end
              end
            else (s, error 404 "Route not found or access denied", [])
        end
    end.

(** [POST /stopNavigation] (lines 429-470), the whole run. *)
Definition stopNavigation (userId : string) (now : Z) (db : Outcomes)
    (s : State) : option (State * Response * list Effect) :=
  match activeNavigations s !! userId with
  | None => Some (s, error 404 "No active navigation found", [])
  | Some a =>
      navigation ← heap s !! a;
      let s := clearInterval (interval navigation) s in
      let s := with_navigations (delete userId) s in
      match db 0%nat with
      | Rejects =>
          Some (s, error 500 "Failed to stop navigation",
                [RouteUpdate (routeId navigation) dead false])
      | Resolves =>
          Some (updateRoute (routeId navigation) dead false s,
                mkResponse 200
                  (SuccessBody
                     ("Navigation stopped for " +:+ routeName navigation)
                     (routeId navigation)),
                [ RouteUpdate (routeId navigation) dead false;
                  Emit userId "navigation-stopped"
                    (NavigationStopped (routeId navigation)
                       (routeName navigation));
                  Emit "fleet-manager" "route-stopped"
                    (RouteStopped userId (routeId navigation)
                       (routeName navigation) now) ])
      end
  end.

(** [POST /pauseNavigation] (lines 536-561). *)
Definition pauseNavigation (userId : string) (s : State)
  : option (State * Response * list Effect) :=
  match activeNavigations s !! userId with
  | None => Some (s, error 404 "No active navigation found", [])
  | Some a =>
      navigation ← heap s !! a;
      let s :=
        match interval navigation with
        | Some t =>
            let s := clearInterval (Some t) s in
            with_heap
              (<[a := set_status paused (set_interval None navigation)]>) s
        | None => s
        end in
      Some (s,
            mkResponse 200
              (SuccessBody ("Navigation paused for " +:+ routeName navigation)
                 (routeId navigation)),
            [])
  end.

(** [POST /resumeNavigation] (lines 564-648). *)
Definition resumeNavigation (userId : string) (s : State)
  : option (State * Response * list Effect) :=
  match activeNavigations s !! userId with
  | None => Some (s, error 404 "No active navigation found", [])
  | Some a =>
      navigation ← heap s !! a;
      let s :=
        match status navigation with
        | paused =>
            let '(t, s) := setInterval (ResumeCallback a userId) s in
            with_heap
              (<[a := set_status active (set_interval (Some t) navigation)]>)
              s
        | active => s
        end in
      Some (s,
            mkResponse 200
              (SuccessBody
                 ("Navigation resumed for " +:+ routeName navigation)
                 (routeId navigation)),
            [])
  end.

(** *** The socket handlers (lines 33-58) *)

(** A string is truthy when it is not empty. *)
Definition truthy (x : string) : bool := bool_decide (x <> "").

Definition connection (socketId : string) (s : State) : option State :=
  match sockets s !! socketId with
  | None => Some (with_sockets (<[socketId := None]>) s)
  | Some _ => None
  end.

(** [socket.on('join-user', userId => ...)]. *)
Definition joinUser (socketId userId : string) (s : State) : option State :=
  match sockets s !! socketId with
  | Some _ => Some (with_sockets (<[socketId := Some userId]>) s)
  | None => None
  end.

(** [socket.on('disconnect', ...)]. *)
Definition disconnect (socketId : string) (s : State) : option State :=
  socketUserId ← sockets s !! socketId;
  let s := with_sockets (delete socketId) s in
  match socketUserId with
  | Some userId =>
      if truthy userId then
        match activeNavigations s !! userId with
        | Some a =>
            navigation ← heap s !! a;
            let s :=
              match interval navigation with
              | Some t => clearInterval (Some t) s
              | None => s
              end in
            Some (with_navigations (delete userId) s)
        | None => Some s
        end
      else Some s
  | None => Some s
  end.

(** *** The stretches between the awaits *)

(** JavaScript runs a handler or a callback without interruption up to its
    next [await]; there it is suspended until the store call settles, and
    other handlers and callbacks run in the meantime.  Below, each stretch
    is one function: the first stretch of [/startNavigation], of
    [/stopNavigation] and of an interval callback, and [settle] for every
    stretch that follows an [await].  A store call is identified by a
    number [k], chosen when the call is issued among those not in use.  A
    store call takes effect when it resolves. *)

(** [/startNavigation], lines 267-273. *)
Definition startRequest (k : nat) (userId routeId : string) (s : State)
  : State * Output :=
  if decide (is_Some (activeNavigations s !! userId)) then
    (s, mkOutput
          (Some (error 400 ("User already has an active navigation. "
                              +:+ "Stop current navigation first.")))
          [])
  else
    (with_pending (<[k := AwaitRoute userId routeId]>) s, mkOutput None []).

(** [/stopNavigation], lines 431-443. *)
Definition stopRequest (k : nat) (userId : string) (s : State)
  : option (State * Output) :=
  match activeNavigations s !! userId with
  | None =>
      Some (s, mkOutput (Some (error 404 "No active navigation found")) [])
  | Some a =>
      navigation ← heap s !! a;
      let s := clearInterval (interval navigation) s in
      let s := with_navigations (delete userId) s in
      Some (with_pending
              (<[k := AwaitRouteStopped a userId (routeId navigation)]>) s,
            mkOutput None [RouteUpdate (routeId navigation) dead false])
  end.

(** A firing of the interval [t], up to its first [await]: lines 298-302
    or 324-329 of the callback of [/startNavigation], lines 576-582 of the
    callback of [/resumeNavigation]; the position update of the latter
    (lines 605-632) has no [await] and is one stretch. *)
Definition tickBegin (k : nat) (t : handle) (now : Z) (s : State)
  : option (State * list Effect) :=
  callback ← timers s !! t;
  navigation ← heap s !! callback_navigation callback;
  let a := callback_navigation callback in
  let userId := callback_userId callback in
  if (length (movementPoints navigation) <=? currentIndex navigation)%nat then
    let routeId := callback_routeId callback navigation in
    let s := clearInterval (interval navigation) s in
    let s := with_navigations (delete userId) s in
    Some (with_pending (<[k := AwaitRouteDead callback routeId]>) s,
          [RouteUpdate routeId dead false])
  else
    let currentPosition :=
      at_index (movementPoints navigation) (currentIndex navigation) in
    let navigation := set_position currentPosition navigation in
    match callback with
    | StartCallback _ _ routeId =>
        let s := with_heap (<[a := navigation]>) s in
        Some (with_pending
                (<[k := AwaitFleet a userId routeId currentPosition]>) s,
              [FleetUpdate userId currentPosition])
    | ResumeCallback _ _ =>
        let events :=
          locationEvents navigation userId (routeId navigation)
            currentPosition now in
        Some (with_heap
                (<[a := set_index (S (currentIndex navigation)) navigation]>)
                s,
              events)
    end.

(** The end of the callback of [/startNavigation], lines 355-377 (and
    383-405 in its [catch]): it reads [navigation.currentIndex] as it is
    now, publishes the position it took before the [await], and increments
    the index. *)
Definition publishAndAdvance (a : ref) (userId routeId : string)
    (currentPosition : value) (now : Z) (s : State) : option (State * Output) :=
  navigation ← heap s !! a;
  Some (with_heap
          (<[a := set_index (S (currentIndex navigation)) navigation]>) s,
        mkOutput None
          (locationEvents navigation userId routeId currentPosition now)).

(** The stretch that follows an [await], once the store call [k] has
    settled with [outcome]. *)
Definition resume (k : nat) (continuation : Continuation) (now : Z)
    (outcome : StoreOutcome) (s : State) : option (State * Output) :=
  match continuation with
  | AwaitRoute userId routeId =>
      (* lines 273-278 *)
      match outcome with
      | Rejects =>
          Some (s, mkOutput (Some (error 500 "Failed to start navigation")) [])
      | Resolves =>
          match routes s !! routeId with
          | None =>
              Some (s, mkOutput
                         (Some (error 404 "Route not found or access denied"))
                         [])
          | Some route =>
              if decide (route_userId route = userId) then
                Some (with_pending
                        (<[k := AwaitRouteAlive userId routeId route]>) s,
                      mkOutput None [RouteUpdate routeId alive true])
              else
                Some (s, mkOutput
                           (Some (error 404
                                    "Route not found or access denied"))
                           [])
          end
      end
  | AwaitRouteAlive userId routeId route =>
      (* lines 278-418 *)
      match outcome with
      | Rejects =>
          Some (s, mkOutput (Some (error 500 "Failed to start navigation")) [])
      | Resolves =>
          let s := updateRoute routeId alive true s in
          match processRouteForMovement (route_data route) with
          | Throw _ =>
              Some (s, mkOutput
                         (Some (error 500 "Failed to start navigation")) [])
          | Ok movementPoints =>
              let navigation :=
                {| userId := userId;
                   routeId := routeId;
                   routeName := route_routeName route;
                   movementPoints := movementPoints;
                   currentIndex := 0;
                   currentPosition := at_index movementPoints 0;
                   status := active;
                   startTime := now;
                   interval := None |} in
              let '(a, s) := alloc navigation s in
              let '(t, s) :=
                setInterval (StartCallback a userId routeId) s in
              let s :=
                with_heap (<[a := set_interval (Some t) navigation]>) s in
              let s := with_navigations (<[userId := a]>) s in
              Some (s,
                    mkOutput
                      (Some (mkResponse 200
                               (StartedBody
                                  ("Navigation started for "
                                     +:+ route_routeName route)
                                  routeId (route_routeName route)
                                  (length movementPoints))))
                      [])
          end
      end
  | AwaitFleet a userId routeId currentPosition =>
      (* lines 329-349 *)
      match outcome with
      | Rejects =>
          (* catch *)
          publishAndAdvance a userId routeId currentPosition now s
      | Resolves =>
          let fleetUpdate := fleet s !! userId in
          let s := updateFleet userId currentPosition s in
          match fleetUpdate with
          | Some _ => publishAndAdvance a userId routeId currentPosition now s
          | None =>
              Some (with_pending
                      (<[k := AwaitFleetExists a userId routeId
                                 currentPosition]>) s,
                    mkOutput None [])
          end
      end
  | AwaitFleetExists a userId routeId currentPosition =>
      (* lines 349-377; a rejection goes through the catch *)
      publishAndAdvance a userId routeId currentPosition now s
  | AwaitRouteDead callback id =>
      (* lines 302-321, 582-602; a rejection escapes the callback *)
      match outcome with
      | Rejects => Some (s, mkOutput None [])
      | Resolves =>
          navigation ← heap s !! callback_navigation callback;
          let userId := callback_userId callback in
          let r := callback_routeId callback navigation in
          Some (updateRoute id dead false s,
                mkOutput None
                  [ Emit userId "navigation-completed"
                      (NavigationCompleted r (routeName navigation)
                         ("Navigation completed for "
                            +:+ routeName navigation +:+ "!"));
                    Emit "fleet-manager" "route-completed"
                      (RouteCompleted userId r (routeName navigation) now) ])
      end
  | AwaitRouteStopped a userId id =>
      (* lines 443-468 *)
      match outcome with
      | Rejects =>
          Some (s, mkOutput (Some (error 500 "Failed to stop navigation")) [])
      | Resolves =>
          navigation ← heap s !! a;
          Some (updateRoute id dead false s,
                mkOutput
                  (Some (mkResponse 200
                           (SuccessBody
                              ("Navigation stopped for "
                                 +:+ routeName navigation)
                              (routeId navigation))))
                  [ Emit userId "navigation-stopped"
                      (NavigationStopped (routeId navigation)
                         (routeName navigation));
                    Emit "fleet-manager" "route-stopped"
                      (RouteStopped userId (routeId navigation)
                         (routeName navigation) now) ])
      end
  end.

(** The store call [k] settles and the stretch that awaits it runs. *)
Definition settle (k : nat) (now : Z) (outcome : StoreOutcome) (s : State)
  : option (State * Output) :=
  continuation ← pending s !! k;
  resume k continuation now outcome (with_pending (delete k) s).

(** *** The server as a transition system *)

(** What can happen to the server: a request, a socket event, the firing of
    an interval, the settling of a store call, or a change of the store
    made by somebody else (the route creation endpoint, the telemetry
    simulator, an administrator).

    [StartRequest], [StopRequest] and [TickBegin] start a handler or a
    callback, which runs up to its first [await]; [Settle] lets it go on
    to the next.  Any other event may be handled between the two.
    [StartNavigation], [StopNavigation] and [Tick] are the same handlers
    and callback when they are not interleaved with anything: the whole
    run, with the outcomes of its store calls in the order in which it
    awaits them. *)
Inductive Event : Type :=
  | StartNavigation (userId routeId : string) (now : Z) (db : Outcomes)
  | StopNavigation (userId : string) (now : Z) (db : Outcomes)
  | PauseNavigation (userId : string)
  | ResumeNavigation (userId : string)
  | Tick (t : handle) (now : Z) (db : Outcomes)
  | Connection (socketId : string)
  | JoinUser (socketId userId : string)
  | Disconnect (socketId : string)
  | StoreChanged (routes : gmap string Route) (fleet : gmap string value)
  | StartRequest (k : nat) (userId routeId : string)
  | StopRequest (k : nat) (userId : string)
  | TickBegin (k : nat) (t : handle) (now : Z)
  | Settle (k : nat) (now : Z) (outcome : StoreOutcome).

Definition step (s : State) (e : Event) : option (State * Output) :=
  match e with
  | StartNavigation userId routeId now db =>
      let '(s', r, eff) := startNavigation userId routeId now db s in
      Some (s', mkOutput (Some r) eff)
  | StopNavigation userId now db =>
      '(s', r, eff) ← stopNavigation userId now db s;
      Some (s', mkOutput (Some r) eff)
  | PauseNavigation userId =>
      '(s', r, eff) ← pauseNavigation userId s;
      Some (s', mkOutput (Some r) eff)
  | ResumeNavigation userId =>
      '(s', r, eff) ← resumeNavigation userId s;
      Some (s', mkOutput (Some r) eff)
  | Tick t now db =>
      '(s', eff) ← tick t now db s;
      Some (s', mkOutput None eff)
  | Connection socketId =>
      s' ← connection socketId s;
      Some (s', mkOutput None [])
  | JoinUser socketId userId =>
      s' ← joinUser socketId userId s;
      Some (s', mkOutput None [])
  | Disconnect socketId =>
      s' ← disconnect socketId s;
      Some (s', mkOutput None [])
  | StoreChanged routes fleet =>
      Some (with_fleet (fun _ => fleet) (with_routes (fun _ => routes) s),
            mkOutput None [])
  | StartRequest k userId routeId =>
      if decide (is_Some (pending s !! k)) then None
      else Some (startRequest k userId routeId s)
  | StopRequest k userId =>
      if decide (is_Some (pending s !! k)) then None
      else stopRequest k userId s
  | TickBegin k t now =>
      if decide (is_Some (pending s !! k)) then None
      else
        '(s', eff) ← tickBegin k t now s;
        Some (s', mkOutput None eff)
  | Settle k now outcome => settle k now outcome s
  end.

(** A run: the events handled in order, with the effects of all of them. *)
Fixpoint run (s : State) (events : list Event)
  : option (State * list Effect) :=
  match events with
  | [] => Some (s, [])
  | e :: rest =>
      '(s', out) ← step s e;
      '(s'', eff) ← run s' rest;
      Some (s'', (effects out ++ eff)%list)
  end.

(** The states the server can be in, whatever the interleaving of its
    handlers and callbacks. *)
Inductive reachable : State -> Prop :=
  | reachable_initial routes fleet : reachable (initial routes fleet)
  | reachable_step s e s' out :
      reachable s -> step s e = Some (s', out) -> reachable s'.

(** *** The tracking endpoints (lines 474-533) *)

(** The [activeNavigation] object of the answer. *)
Record ActiveNavigation : Type := mkActiveNavigation {
  reported_routeId : string;
  reported_routeName : string;
  reported_status : NavStatus;
  reported_progress : jsnum;
  reported_currentIndex : nat;
  reported_totalPoints : nat;
  reported_currentPosition : value;
  reported_startTime : Z
}.

Inductive ActiveNavigationResponse : Type :=
  | UserIdRequired
  | ActiveNavigationBody (activeNavigation : option ActiveNavigation).

(** [GET /getActiveNavigation].  [userId] is the query parameter, which may
    be absent; [UserIdRequired] is the answer 400.  Nothing in the handler
    throws, so its [catch] is never entered. *)
Definition getActiveNavigation (userId : option string) (s : State)
  : option ActiveNavigationResponse :=
  match userId with
  | None => Some UserIdRequired
  | Some userId =>
      if truthy userId then
        match activeNavigations s !! userId with
        | None => Some (ActiveNavigationBody None)
        | Some a =>
            navigation ← heap s !! a;
            Some (ActiveNavigationBody (Some
              {| reported_routeId := routeId navigation;
                 reported_routeName := routeName navigation;
                 reported_status := status navigation;
                 reported_progress := progressOf navigation;
                 reported_currentIndex := currentIndex navigation;
                 reported_totalPoints := length (movementPoints navigation);
                 reported_currentPosition := currentPosition navigation;
                 reported_startTime := startTime navigation |}))
        end
      else Some UserIdRequired
  end.

(** An entry of [liveRoutes]. *)
Record LiveRoute : Type := mkLiveRoute {
  live_userId : string;
  live_routeId : string;
  live_routeName : string;
  live_currentPosition : value;
  live_progress : jsnum;
  live_startTime : Z;
  live_status : string
}.

Record LiveTracking : Type := mkLiveTracking {
  success : bool;
  liveRoutes : list LiveRoute;
  totalLiveRoutes : nat
}.

(** [GET /getLiveTracking].  The source lists the sessions in the order in
    which they entered the table; the table of the model keeps no such
    order, so the entries come in the order of the keys. *)
Definition getLiveTracking (s : State) : option LiveTracking :=
  liveTrackingData ←
    mapM (fun entry : string * ref =>
            navigation ← heap s !! entry.2;
            Some {| live_userId := entry.1;
                    live_routeId := routeId navigation;
                    live_routeName := routeName navigation;
                    live_currentPosition := currentPosition navigation;
                    live_progress := progressOf navigation;
                    live_startTime := startTime navigation;
                    live_status := "alive" |})
         (map_to_list (activeNavigations s));
  Some {| success := true;
          liveRoutes := liveTrackingData;
          totalLiveRoutes := length liveTrackingData |}.

(** *** Well-formed states *)

(** What holds of every state the server can reach.  A session of the
    table is filed under its own vehicle; a live interval ticks an object
    that records it, is active and belongs to the vehicle and the route of
    the callback; a session of the table that is active has a live interval
    ticking it, one that is paused has none; a suspended continuation holds
    an object that exists. *)
Record wf (s : State) : Prop := mkWf {
  wf_table : forall u a,
    activeNavigations s !! u = Some a ->
    exists n, heap s !! a = Some n /\ userId n = u;
  wf_timer : forall t c,
    timers s !! t = Some c ->
    exists n, heap s !! callback_navigation c = Some n
              /\ interval n = Some t
              /\ callback_routeId c n = routeId n
              /\ userId n = callback_userId c
              /\ status n = active;
  wf_status : forall u a n,
    activeNavigations s !! u = Some a -> heap s !! a = Some n ->
    match status n with
    | paused => interval n = None
    | active => exists t c, interval n = Some t
                            /\ timers s !! t = Some c
                            /\ callback_navigation c = a
    end;
  wf_fresh_ref : forall a, is_Some (heap s !! a) -> (a < nextRef s)%nat;
  wf_fresh_handle : forall t, is_Some (timers s !! t) -> (t < nextHandle s)%nat;
  wf_pending : forall k c a,
    pending s !! k = Some c -> continuation_navigation c = Some a ->
    is_Some (heap s !! a)
}.

(** *** Vocabulary of the properties *)

(** The session after one position update: the position is the movement
    point at the current index, and the index is one more. *)
Definition advance (n : Navigation) : Navigation :=
  set_index (S (currentIndex n))
    (set_position (at_index (movementPoints n) (currentIndex n)) n).

(** The [(currentIndex, progress)] pairs of the [location-update] events of
    a trace, in the order of publication. *)
Fixpoint published (eff : list Effect) : list (nat * jsnum) :=
  match eff with
  | [] => []
  | Emit _ _ (LocationUpdate _ _ _ progress index _ _) :: rest =>
      (index, progress) :: published rest
  | _ :: rest => published rest
  end.

(** [p] is the number [index / len * 100]. *)
Definition percentage_of (index len : nat) (p : jsnum) : Prop :=
  exists q, p = Fin q
    /\ (q == inject_Z (Z.of_nat index) / inject_Z (Z.of_nat len) * 100)%Q.

(** A progress value is a percentage. *)
Definition in_percent (p : jsnum) : Prop :=
  match p with
  | Fin q => (0 <= q <= 100)%Q
  | _ => False
  end.

Definition progress_le (p p' : jsnum) : Prop :=
  match p, p' with
  | Fin q, Fin q' => (q <= q')%Q
  | _, _ => False
  end.

(** The outputs of two consecutive stretches of one handler. *)
Definition merge (o o' : Output) : Output :=
  mkOutput (match response o' with Some r => Some r | None => response o end)
    (effects o ++ effects o').

(** The store call [k] and those that follow it in the same handler settle
    one after the other, with the outcomes [db i], [db (i + 1)], ...,
    until the handler has returned. *)
Fixpoint settleAll (fuel : nat) (k : nat) (now : Z) (db : Outcomes) (i : nat)
    (s : State) (o : Output) : option (State * Output) :=
  match pending s !! k with
  | None => Some (s, o)
  | Some _ =>
      match fuel with
      | O => None
      | S fuel =>
          '(s', o') ← step s (Settle k now (db i));
          settleAll fuel k now db (S i) s' (merge o o')
      end
  end.

(** A handler or callback started by [begin], whose store calls are
    numbered [k], run with nothing in between. *)
Definition uninterrupted (begin : Event) (k : nat) (now : Z) (db : Outcomes)
    (s : State) : option (State * Output) :=
  '(s', o) ← step s begin;
  settleAll 2 k now db 0 s' o.

(** The firings of one interval, one per given time and store outcome. *)
Definition ticks (t : handle) (inputs : list (Z * Outcomes)) : list Event :=
  (fun i => Tick t i.1 i.2) <$> inputs.

(** The state after a run (the state itself if the run is not possible). *)
Definition after (s : State) (events : list Event) : State :=
  match run s events with
  | Some (s', _) => s'
  | None => s
  end.

(** The session [a], whose last interval was [t], is gone: it is not in the
    table, no live interval ticks it, and neither its reference nor its
    handle can be handed out again. *)
Record gone (s : State) (a : ref) (t : option handle) : Prop := mkGone {
  gone_table : forall u, activeNavigations s !! u <> Some a;
  gone_timers : forall t' c,
    timers s !! t' = Some c -> callback_navigation c <> a;
  gone_ref : (a < nextRef s)%nat;
  gone_handle : forall t', t = Some t' ->
    timers s !! t' = None /\ (t' < nextHandle s)%nat
}.

End Server.

(** ** Concrete scenarios *)

Module Scenarios.
Import Js RouteLogic Server.
Local Open Scope string_scope.

(** The route of the first concrete scenario: vertices [[0,0],[0,1]],
    estimated duration 120 s. *)
Definition scenario1 : RouteData :=
  mkRouteData [(Fin 0, Fin 0); (Fin 0, Fin 1)] 120.

(** The same two vertices with an estimated duration of 3 s: three movement
    points. *)
Definition shortRoute : RouteData :=
  mkRouteData [(Fin 0, Fin 0); (Fin 0, Fin 1)] 3.

(** A store that accepts every call. *)
Definition resolves : Outcomes := fun _ => Resolves.

(** A store that rejects every call. *)
Definition rejects : Outcomes := fun _ => Rejects.

Definition scenario2_routes : gmap string Route :=
  {[ "R" := mkRoute "A" "depot run" shortRoute created false;
     "R2" := mkRoute "A" "return" shortRoute created false ]}.

(** The state of the second concrete scenario: vehicle ["A"] has started
    route ["R"]. *)
Definition scenario2 : State :=
  after (initial scenario2_routes {[ "A" := Some (Fin 7, Fin 7) ]})
    [StartNavigation "A" "R" 1000 resolves].

(** The session of ["A"] on route ["R"] after a start, a pause and a
    resume: the same session as in [scenario2], ticked by the callback of
    [/resumeNavigation]. *)
Definition scenario2_resumed : State :=
  after scenario2 [PauseNavigation "A"; ResumeNavigation "A"].

(** The session of [scenario2] after its three position updates. *)
Definition scenario4 : State :=
  after scenario2
    [ Tick 0 2000 resolves; Tick 0 3000 resolves; Tick 0 4000 resolves ].

(** Vehicle ["A"] has joined on socket ["sock"] and started route ["R"]. *)
Definition scenario10 : State :=
  after (initial scenario2_routes ∅)
    [ Connection "sock"; JoinUser "sock" "A";
      StartNavigation "A" "R" 1000 resolves ].

(** Two start requests of vehicle ["A"] for route ["R"] that overlap: the
    second arrives while the first awaits the store, and their store calls
    settle alternately. *)
Definition overlappingStarts : list Event :=
  [ StartRequest 0 "A" "R"; StartRequest 1 "A" "R";
    Settle 0 1000 Resolves; Settle 1 1000 Resolves;
    Settle 0 1001 Resolves; Settle 1 1002 Resolves ].

Definition scenario1_overlap : State :=
  after (initial scenario2_routes ∅) overlappingStarts.



(** [scenario10] after the disconnect of the socket, and then after a new
    start of the same route followed by a stop. *)
Definition scenario10_disconnected : State :=
  after scenario10 [Disconnect "sock"].

Definition scenario10_restarted : State :=
  after scenario10_disconnected
    [ StartNavigation "A" "R" 2000 resolves;
      StopNavigation "A" 3000 resolves ].

(** The session of [scenario2], written out. *)
Definition scenario2_navigation : Navigation :=
  {| userId := "A"; routeId := "R"; routeName := "depot run";
     movementPoints :=
       [Some (Fin 0, Fin 0); Some (Fin 0, Fin (1 # 2)); Some (Fin 0, Fin 1)];
     currentIndex := 0;
     currentPosition := Some (Fin 0, Fin 0);
     status := active;
     startTime := 1000;
     interval := Some 0%nat |}.

(** The session of [scenario4], written out. *)
Definition scenario4_navigation : Navigation :=
  {| userId := "A"; routeId := "R"; routeName := "depot run";
     movementPoints :=
       [Some (Fin 0, Fin 0); Some (Fin 0, Fin (1 # 2)); Some (Fin 0, Fin 1)];
     currentIndex := 3;
     currentPosition := Some (Fin 0, Fin 1);
     status := active;
     startTime := 1000;
     interval := Some 0%nat |}.

End Scenarios.

(** ** A concrete station search *)

Module LocatorScenarios.
Import Js RouteChargingLogic.
Local Open Scope R_scope.
Local Open Scope string_scope.

(** A route of two vertices on the equator, 0.01 degree apart, and a station
    standing on its second vertex. *)
Definition route9 : list coord := [(0, 0); (1 / 100, 0)].

Definition station9 : ChargingStation :=
  mkChargingStation "ocm_1" "Plaza" (1 / 100, 0) true.

(** A store whose box query fails and whose geo-nearest query finds the
    station: 1113 m from the first vertex, 0 m from the second. *)
Definition findInBox9 (b : Bounds) (limit : nat)
  : result (list ChargingStation) :=
  Throw StoreError.

Definition geoNear9 (point : coord) (maxDistance : R)
  : result (list (ChargingStation * R)) :=
  if Req_EM_T (fst point) 0 then Ok [(station9, 1113)]
  else Ok [(station9, 0)].

(** A store whose box query answers with the station. *)
Definition findInBox9' (b : Bounds) (limit : nat)
  : result (list ChargingStation) :=
  Ok [station9].

(** The match that the fallback strategy builds for the station. *)
Definition fallbackMatch9 : RouteStationMatch :=
  {| station := station9;
     routePosition :=
       {| index := 1; coordinates := Some (1 / 100, 0); distanceKm := XR 0 |};
     distanceFromRouteKm := XR (11 / 10) |}.

End LocatorScenarios.

(** * Properties *)

Import Scenarios LocatorScenarios.

Ltac unfold_state :=
  unfold Server.clearInterval, Server.setInterval, Server.alloc,
    Server.updateRoute, Server.updateFleet, Server.with_navigations,
    Server.with_heap, Server.with_timers, Server.with_routes,
    Server.with_fleet, Server.with_sockets, Server.with_pending in *;
  simpl in *.

(** ** Arithmetic of the number model *)

Section JsFacts.
Import Js.

Lemma Qred_inject_Z (q : Q) (z : Z) : (q == inject_Z z)%Q -> Qred q = inject_Z z.
Proof.
  intros H. rewrite (Qred_complete _ _ H).
  apply Qcanon.Qred_identity. simpl. apply Z.gcd_1_r.
Qed.

Lemma fin_inject_Z (q : Q) (z : Z) : (q == inject_Z z)%Q -> fin q = of_Z z.
Proof. intros H. unfold fin, of_Z. by rewrite (Qred_inject_Z _ _ H). Qed.

Lemma qsign_inject_Z (z : Z) : qsign (inject_Z z) = (z ?= 0)%Z.
Proof. unfold qsign, Qcompare. simpl. by rewrite Z.mul_1_r. Qed.

Lemma jadd_of_Z (a b : Z) : jadd (of_Z a) (of_Z b) = of_Z (a + b).
Proof. simpl. apply fin_inject_Z. by rewrite inject_Z_plus. Qed.

Lemma jmin_of_Z (a b : Z) : jmin (of_Z a) (of_Z b) = of_Z (Z.min a b).
Proof.
  unfold of_Z. simpl. destruct (Qle_bool _ _) eqn:E.
  - apply Qle_bool_iff in E. rewrite <- Zle_Qle in E. by rewrite Z.min_l.
  - rewrite Z.min_r; [done|]. destruct (Z.le_gt_cases a b) as [H|H]; [|lia].
    rewrite Zle_Qle in H. apply Qle_bool_iff in H. congruence.
Qed.

Lemma strict_eq_of_Z (a b : Z) : strict_eq (of_Z a) (of_Z b) = (a =? b)%Z.
Proof.
  unfold of_Z. simpl. destruct (Z.eqb_spec a b) as [->|Hne].
  - apply Qeq_bool_iff. reflexivity.
  - destruct (Qeq_bool _ _) eqn:E; [|done].
    apply Qeq_bool_iff in E. apply (proj1 (inject_Z_injective a b)) in E. done.
Qed.

Lemma array_index_of_Z (z : Z) :
  (0 <= z)%Z -> array_index (of_Z z) = Some (Z.to_nat z).
Proof.
  intros Hz. unfold array_index, of_Z.
  rewrite (Qred_inject_Z (inject_Z z) z) by reflexivity. simpl.
  destruct (Z.leb_spec 0 z); [done | lia].
Qed.

Lemma get_of_Z {A} (arr : list A) (z : Z) :
  (0 <= z)%Z -> get arr (of_Z z) = arr !! Z.to_nat z.
Proof. intros Hz. unfold get. by rewrite array_index_of_Z. Qed.

End JsFacts.

(** ** The movement planner *)

Section PlannerFacts.
Import Js RouteLogic.

Lemma progress_fin (tp i : Z) :
  (2 <= tp)%Z ->
  jdiv (of_Z i) (of_Z (tp - 1)) = fin (inject_Z i / inject_Z (tp - 1)).
Proof.
  intros Htp. unfold of_Z. simpl. rewrite qsign_inject_Z.
  destruct (Z.compare_spec (tp - 1) 0); [lia | lia | done].
Qed.

Lemma fractionalPosition_bounds (len tp i : Z) :
  (1 <= len)%Z -> (2 <= tp)%Z -> (0 <= i < tp)%Z ->
  (0 <= fractionalPosition len tp i <= inject_Z (len - 1))%Q.
Proof.
  intros Hlen Htp Hi. unfold fractionalPosition.
  assert (HD : (0 < inject_Z (tp - 1))%Q).
  { change 0%Q with (inject_Z 0). rewrite <- Zlt_Qlt. lia. }
  assert (HL : (0 <= inject_Z (len - 1))%Q).
  { change 0%Q with (inject_Z 0). rewrite <- Zle_Qle. lia. }
  assert (H0 : (0 <= inject_Z i / inject_Z (tp - 1))%Q).
  { apply Qle_shift_div_l; [done|]. rewrite Qmult_0_l.
    change 0%Q with (inject_Z 0). rewrite <- Zle_Qle. lia. }
  assert (H1 : (inject_Z i / inject_Z (tp - 1) <= 1)%Q).
  { apply Qle_shift_div_r; [done|]. rewrite Qmult_1_l.
    rewrite <- Zle_Qle. lia. }
  split.
  - by apply Qmult_le_0_compat.
  - rewrite <- (Qmult_1_l (inject_Z (len - 1))) at 2.
    by apply Qmult_le_compat_r.
Qed.

Lemma coordIndex_of_Z (len tp i : Z) :
  (2 <= tp)%Z ->
  jfloor (jmul (jdiv (of_Z i) (of_Z (tp - 1))) (of_Z (len - 1)))
  = of_Z (Qfloor (fractionalPosition len tp i)).
Proof.
  intros Htp. rewrite progress_fin by done.
  unfold fin, of_Z, jmul, jfloor, fin, of_Z.
  do 2 f_equal. apply Qfloor_comp. unfold fractionalPosition.
  by rewrite !Qred_correct.
Qed.

Lemma coordIndex_bounds (len tp i : Z) :
  (1 <= len)%Z -> (2 <= tp)%Z -> (0 <= i < tp)%Z ->
  (0 <= Qfloor (fractionalPosition len tp i) <= len - 1)%Z.
Proof.
  intros Hlen Htp Hi.
  destruct (fractionalPosition_bounds len tp i Hlen Htp Hi) as [H0 H1].
  split.
  - rewrite <- (Qfloor_Z 0). by apply Qfloor_resp_le.
  - rewrite <- (Qfloor_Z (len - 1)). by apply Qfloor_resp_le.
Qed.

(** With at least one route vertex and at least two output points no
    iteration reads outside the route, so none throws and none pushes
    [undefined]. *)
Lemma movementPoint_defined (routeCoordinates : list point) (tp i : Z) :
  (1 <= length routeCoordinates)%nat -> (2 <= tp)%Z -> (0 <= i < tp)%Z ->
  exists p, movementPoint routeCoordinates tp i = Ok (Some p).
Proof.
  intros Hlen Htp Hi. unfold movementPoint.
  set (len := Z.of_nat (length routeCoordinates)).
  assert (Hlen' : (1 <= len)%Z) by lia.
  rewrite (coordIndex_of_Z len tp i Htp).
  pose proof (coordIndex_bounds len tp i Hlen' Htp Hi) as Hci.
  set (ci := Qfloor (fractionalPosition len tp i)) in *.
  rewrite jadd_of_Z, jmin_of_Z, strict_eq_of_Z.
  rewrite !get_of_Z by lia.
  destruct (lookup_lt_is_Some_2 routeCoordinates (Z.to_nat ci)) as [p Hp];
    [lia|].
  destruct (lookup_lt_is_Some_2 routeCoordinates
              (Z.to_nat (Z.min (ci + 1) (len - 1)))) as [p' Hp']; [lia|].
  rewrite Hp, Hp'. destruct (ci =? _)%Z; [by eexists|].
  destruct p as [lng0 lat0], p' as [lng1 lat1]. simpl. by eexists.
Qed.

Lemma movementLoop_defined (routeCoordinates : list point) (tp : Z)
    (fuel : nat) (i : Z) (acc : list value) :
  (1 <= length routeCoordinates)%nat -> (2 <= tp)%Z ->
  (0 <= i)%Z -> (i + Z.of_nat fuel <= tp)%Z ->
  exists pts, movementLoop routeCoordinates tp fuel i acc = Ok pts
              /\ length pts = (length acc + fuel)%nat.
Proof.
  intros Hlen Htp. revert i acc.
  induction fuel as [|fuel IH]; intros i acc Hi Hle; simpl.
  - exists acc. split; [done | lia].
  - destruct (movementPoint_defined routeCoordinates tp i) as [p Hp];
      [done | done | lia |].
    rewrite Hp.
    destruct (IH (i + 1)%Z (acc ++ [Some p])) as (pts & Hpts & Hlenpts);
      [lia | lia |].
    exists pts. split; [done|]. rewrite Hlenpts, length_app. simpl. lia.
Qed.

(** A single-vertex route: every iteration pushes that vertex. *)
Lemma movementPoint_single (p : point) (tp i : Z) :
  (2 <= tp)%Z -> (0 <= i < tp)%Z ->
  movementPoint [p] tp i = Ok (Some p).
Proof.
  intros Htp Hi. unfold movementPoint.
  change (Z.of_nat (length [p])) with 1%Z.
  rewrite (coordIndex_of_Z 1 tp i Htp).
  pose proof (coordIndex_bounds 1 tp i ltac:(lia) Htp Hi) as Hci.
  assert (Hz : Qfloor (fractionalPosition 1 tp i) = 0%Z) by lia.
  rewrite Hz. reflexivity.
Qed.

Lemma movementLoop_single (p : point) (tp : Z) (fuel : nat) (i : Z)
    (acc : list value) :
  (2 <= tp)%Z -> (0 <= i)%Z -> (i + Z.of_nat fuel <= tp)%Z ->
  movementLoop [p] tp fuel i acc = Ok (acc ++ replicate fuel (Some p)).
Proof.
  intros Htp. revert i acc.
  induction fuel as [|fuel IH]; intros i acc Hi Hle; simpl.
  - by rewrite app_nil_r.
  - rewrite movementPoint_single by lia.
    rewrite IH by lia. by rewrite <- app_assoc.
Qed.

End PlannerFacts.

Section PlannerClaims.
Import Js RouteLogic.

(** C6.  [processRouteForMovement] is a function of its argument alone (two
    calls on the same route give the same result); on a route with at least
    two vertices it returns, and the number of movement points is
    [max(ceil(duration), number of vertices)]; on the route [[0,0],[0,1]]
    with duration 120 it returns 120 points, the first [[0,0]], the last
    [[0,1]] and point 60 within 0.001 of [[0, 0.504]]. *)
Theorem processRouteForMovement_plan :
  (forall rd r1 r2,
      processRouteForMovement rd = r1 -> processRouteForMovement rd = r2 ->
      r1 = r2)
  /\ (forall rd, (2 <= length (coordinates rd))%nat ->
        exists pts, processRouteForMovement rd = Ok pts
          /\ Z.of_nat (length pts)
             = Z.max (Qceiling (duration rd))
                     (Z.of_nat (length (coordinates rd))))
  /\ (exists pts y, processRouteForMovement scenario1 = Ok pts
        /\ length pts = 120%nat
        /\ pts !! 0%nat = Some (Some (Fin 0, Fin 0))
        /\ pts !! 119%nat = Some (Some (Fin 0, Fin 1))
        /\ pts !! 60%nat = Some (Some (Fin 0, Fin y))
        /\ (Qabs (y - (504 # 1000)) < (1 # 1000))%Q).
Proof.
  split; [|split].
  - intros rd r1 r2 <- <-. reflexivity.
  - intros rd Hlen. unfold processRouteForMovement.
    set (tp := Z.max _ _).
    destruct (movementLoop_defined (coordinates rd) tp (Z.to_nat tp) 0 [])
      as (pts & Hpts & Hl); [lia | lia | lia | lia |].
    exists pts. split; [done|]. rewrite Hl. simpl. lia.
  - eexists. exists (60 # 119)%Q.
    split; [vm_compute; reflexivity|].
    repeat split.
Qed.

Lemma processRouteForMovement_plan_witness :
  (2 <= length (coordinates scenario1))%nat
  /\ exists pts, processRouteForMovement scenario1 = Ok pts
       /\ Z.of_nat (length pts)
          = Z.max (Qceiling (duration scenario1))
                  (Z.of_nat (length (coordinates scenario1))).
Proof.
  split; [simpl; lia|].
  apply (proj1 (proj2 processRouteForMovement_plan) scenario1). simpl. lia.
Defined.

(** A route with a single vertex and a positive duration is planned without
    any failure: the claim of C7 does not hold as stated. *)
Lemma processRouteForMovement_single_vertex_returns :
  (length (coordinates (mkRouteData [(Fin 3, Fin 4)] 5)) < 2)%nat
  /\ processRouteForMovement (mkRouteData [(Fin 3, Fin 4)] 5)
     = Ok (replicate 5 (Some (Fin 3, Fin 4))).
Proof. split; [simpl; lia | reflexivity]. Qed.

(** C7 (amended).  The planner has no check on the number of vertices.  On a
    route with fewer than two vertices it behaves as follows: with one
    vertex and [ceil(duration) >= 2] it returns [ceil(duration)] copies of
    that vertex; with no vertex and [ceil(duration) <= 0] it returns the
    empty sequence; in the remaining cases (no vertex and a positive
    duration, one vertex and [ceil(duration) <= 1]) the first iteration
    reads a coordinate of [undefined] and a [TypeError] is thrown. *)
Theorem processRouteForMovement_short_route (rd : RouteData) :
  (length (coordinates rd) < 2)%nat ->
  processRouteForMovement rd =
    match coordinates rd with
    | [] =>
        if (Qceiling (duration rd) <=? 0)%Z then Ok [] else Throw TypeError
    | p :: _ =>
        if (Qceiling (duration rd) <=? 1)%Z then Throw TypeError
        else Ok (replicate (Z.to_nat (Qceiling (duration rd))) (Some p))
    end.
Proof.
  destruct rd as [cs d]. simpl. intros Hlen.
  unfold processRouteForMovement. simpl.
  destruct cs as [|p [|p' cs]]; simpl in *; [| |lia].
  - destruct (Z.leb_spec (Qceiling d) 0) as [H|H].
    + rewrite Z.max_r by lia. reflexivity.
    + rewrite Z.max_l by lia.
      destruct (Z.to_nat (Qceiling d)) as [|fuel] eqn:E; [lia|]. simpl.
      unfold movementPoint. simpl length.
      destruct (Z.eq_dec (Qceiling d) 1%Z) as [Heq|Hne];
        [rewrite Heq; reflexivity|].
      change (Z.of_nat 0) with 0%Z.
      rewrite (coordIndex_of_Z 0 (Qceiling d) 0) by lia.
      assert (Hz : Qfloor (fractionalPosition 0 (Qceiling d) 0) = 0%Z).
      { unfold fractionalPosition.
        rewrite <- (Qfloor_Z 0). apply Qfloor_comp.
        unfold Qdiv. by rewrite !Qmult_0_l. }
      rewrite Hz. reflexivity.
  - destruct (Z.leb_spec (Qceiling d) 1) as [H|H].
    + rewrite Z.max_r by lia. reflexivity.
    + rewrite Z.max_l by lia.
      rewrite movementLoop_single by lia. reflexivity.
Qed.

Lemma processRouteForMovement_short_route_witness :
  (length (coordinates (mkRouteData [] 3)) < 2)%nat
  /\ processRouteForMovement (mkRouteData [] 3) = Throw TypeError.
Proof.
  split; [simpl; lia|].
  apply (processRouteForMovement_short_route (mkRouteData [] 3)). simpl. lia.
Defined.

End PlannerClaims.

(** ** Even-spacing selection *)

Section SelectFacts.
Import RouteChargingLogic.
Context {A : Type} (undefined : A).

Lemma nth_shift (x : A) (l : list A) (idxs : list nat) :
  Forall (fun i => 0 < i)%nat idxs ->
  (fun i => nth i (x :: l) undefined) <$> idxs
  = (fun i => nth i l undefined) <$> (Nat.pred <$> idxs).
Proof.
  induction 1 as [|i idxs Hi _ IH]; [done|].
  rewrite !fmap_cons, IH. f_equal. destruct i; [lia | done].
Qed.

Lemma sorted_pred (idxs : list nat) :
  Forall (fun i => 0 < i)%nat idxs ->
  StronglySorted lt idxs -> StronglySorted lt (Nat.pred <$> idxs).
Proof.
  intros Hpos Hs. induction Hs as [|i idxs Hs IH Hall]; simpl.
  - constructor.
  - inversion Hpos as [|? ? Hi Hpos']; subst.
    constructor; [by apply IH|].
    rewrite Forall_fmap. rewrite Forall_forall in *.
    intros j Hj. simpl. specialize (Hall j Hj). specialize (Hpos' j Hj). lia.
Qed.

(** Reading a list at strictly increasing positions yields a sublist. *)
Lemma sublist_nth_increasing (l : list A) (idxs : list nat) :
  StronglySorted lt idxs ->
  Forall (fun i => i < length l)%nat idxs ->
  sublist ((fun i => nth i l undefined) <$> idxs) l.
Proof.
  revert idxs. induction l as [|x l IH]; intros idxs Hs Hb.
  - destruct idxs as [|i idxs]; [constructor|].
    inversion Hb; subst. simpl in *. lia.
  - assert (Htail : forall js, Forall (fun i => 0 < i)%nat js ->
              StronglySorted lt js ->
              Forall (fun i => i < length (x :: l))%nat js ->
              sublist ((fun i => nth i (x :: l) undefined) <$> js) l).
    { intros js Hpos Hsj Hbj. rewrite nth_shift by done.
      apply IH; [by apply sorted_pred|].
      rewrite Forall_fmap. rewrite Forall_forall in *.
      intros j Hj. specialize (Hpos j Hj). specialize (Hbj j Hj).
      simpl in *. lia. }
    destruct idxs as [|i idxs]; [apply sublist_nil_l|].
    inversion Hs as [|? ? Hs' Hall]; subst.
    inversion Hb as [|? ? Hi Hb']; subst.
    destruct i as [|i].
    + simpl. apply sublist_skip. apply Htail; [|done|done].
      rewrite Forall_forall in *. intros j Hj. specialize (Hall j Hj). lia.
    + apply sublist_cons. apply Htail; [|done|done].
      constructor; [lia|].
      rewrite Forall_forall in *. intros j Hj. specialize (Hall j Hj). lia.
Qed.

Lemma multiples_sorted (s a k : nat) :
  (1 <= s)%nat ->
  StronglySorted lt ((fun i => i * s)%nat <$> seq a k).
Proof.
  intros Hs. revert a. induction k as [|k IH]; intros a; simpl.
  - constructor.
  - constructor; [apply IH|].
    rewrite Forall_fmap, Forall_forall. intros j Hj.
    apply elem_of_seq in Hj. simpl. nia.
Qed.

(** When more stations than [maxStations] are given, no index is clamped:
    the last one read is [(maxStations - 1) * spacing <= total - 1]. *)
Lemma spacing_in_range (n k i : nat) :
  (k < n)%nat -> (i < k)%nat ->
  (1 <= n / k)%nat /\ (i * (n / k) <= n - 1)%nat.
Proof.
  intros Hkn Hik.
  assert (Hk : k <> 0%nat) by lia.
  pose proof (Nat.Div0.mul_div_le n k) as Hmul.
  assert (Hs : (1 <= n / k)%nat).
  { apply Nat.div_str_pos. lia. }
  split; [done | nia].
Qed.

Lemma select_unfold (stations : list A) (maxStations : nat) :
  (maxStations < length stations)%nat ->
  selectEvenlySpacedStations undefined stations maxStations
  = (fun i => nth i stations undefined)
      <$> ((fun i => i * (length stations / maxStations))%nat
             <$> seq 0 maxStations).
Proof.
  intros Hlt. unfold selectEvenlySpacedStations.
  destruct (Nat.leb_spec (length stations) maxStations) as [H|_]; [lia|].
  rewrite <- list_fmap_compose. apply list_fmap_ext.
  intros j i Hi. apply lookup_seq in Hi. simpl.
  destruct (spacing_in_range (length stations) maxStations i) as [_ Hle];
    [done | lia |].
  by rewrite Nat.min_l.
Qed.

End SelectFacts.

Section SelectClaim.
Import RouteChargingLogic.

(** C8.  Even-spacing selection.  With [N] stations and target [K]: if
    [N <= K] the input is returned unchanged; otherwise exactly [K] elements
    are returned, the [i]-th being the input element at index
    [min (i * floor(N / K)) (N - 1)], and they form a subsequence of the
    input (relative order is preserved); with 12 stations and [K = 4] the
    elements at input indices 0, 3, 6 and 9 are returned. *)
Theorem selectEvenlySpacedStations_spec {A : Type} (undefined : A)
    (stations : list A) (K : nat) :
  let N := length stations in
  let selected := selectEvenlySpacedStations undefined stations K in
  ((N <= K)%nat -> selected = stations)
  /\ ((K < N)%nat ->
        length selected = K
        /\ (forall i, (i < K)%nat ->
              (Nat.min (i * (N / K)) (N - 1) < N)%nat
              /\ selected !! i = stations !! Nat.min (i * (N / K)) (N - 1))
        /\ sublist selected stations)
  /\ (N = 12%nat -> K = 4%nat ->
        selected = (fun i => nth i stations undefined) <$> [0; 3; 6; 9]%nat).
Proof.
  intros N selected. split; [|split].
  - intros Hle. unfold selected, selectEvenlySpacedStations.
    destruct (Nat.leb_spec (length stations) K) as [_|H]; [done | lia].
  - intros Hlt. split; [|split].
    + unfold selected. rewrite select_unfold by done.
      by rewrite !length_fmap, length_seq.
    + intros i Hi. split; [lia|].
      unfold selected, selectEvenlySpacedStations.
      destruct (Nat.leb_spec (length stations) K) as [H|_]; [lia|].
      rewrite list_lookup_fmap, lookup_seq_lt by done. simpl.
      fold N.
      destruct (lookup_lt_is_Some_2 stations (Nat.min (i * (N / K)) (N - 1)))
        as [x Hx]; [lia|].
      rewrite Hx. f_equal. by apply nth_lookup_Some.
    + unfold selected. rewrite select_unfold by done.
      apply sublist_nth_increasing.
      * destruct (decide (K = 0%nat)) as [->|HK]; [constructor|].
        apply multiples_sorted.
        destruct (spacing_in_range N K 0) as [Hs _]; [done | lia | done].
      * rewrite Forall_fmap, Forall_forall. intros i Hi.
        apply elem_of_seq in Hi. simpl.
        destruct (spacing_in_range N K i) as [_ Hle]; [done | lia |].
        unfold N in *. lia.
  - intros HN HK. unfold selected, selectEvenlySpacedStations.
    fold N. rewrite HN, HK. reflexivity.
Qed.

Lemma selectEvenlySpacedStations_spec_witness :
  (4 < length (seq 0 12))%nat
  /\ length (selectEvenlySpacedStations 0%nat (seq 0 12) 4) = 4%nat
  /\ selectEvenlySpacedStations 0%nat (seq 0 12) 4 = [0; 3; 6; 9]%nat.
Proof.
  pose proof (selectEvenlySpacedStations_spec 0%nat (seq 0 12) 4) as H.
  simpl in H. destruct H as (_ & H2 & H3).
  split; [simpl; lia|]. split.
  - apply H2. lia.
  - apply H3; reflexivity.
Defined.

End SelectClaim.

(** ** The navigation sessions *)

Section ServerInvariant.
Import Js RouteLogic Server.

Lemma wf_initial routes fleet : wf (initial routes fleet).
Proof.
  constructor; simpl; intros *.
  - by rewrite lookup_empty.
  - by rewrite lookup_empty.
  - by rewrite lookup_empty.
  - rewrite lookup_empty. by intros [? ?].
  - rewrite lookup_empty. by intros [? ?].
  - by rewrite lookup_empty.
Qed.

(** Well-formedness speaks of the table, the objects, the intervals and
    the suspended continuations only. *)
Lemma wf_same (s s' : State) :
  activeNavigations s' = activeNavigations s ->
  heap s' = heap s -> timers s' = timers s ->
  nextRef s' = nextRef s -> nextHandle s' = nextHandle s ->
  pending s' = pending s ->
  wf s -> wf s'.
Proof.
  destruct s, s'. simpl. intros -> -> -> -> -> -> [H1 H2 H3 H4 H5 H6].
  by constructor.
Qed.

Lemma table_injective (s : State) (u1 u2 : string) (a : ref) :
  wf s ->
  activeNavigations s !! u1 = Some a -> activeNavigations s !! u2 = Some a ->
  u1 = u2.
Proof.
  intros Hwf H1 H2.
  destruct (wf_table s Hwf u1 a H1) as (n1 & Hn1 & <-).
  destruct (wf_table s Hwf u2 a H2) as (n2 & Hn2 & <-).
  congruence.
Qed.

(** The interval recorded in a session of the table is live and ticks that
    session. *)
Lemma interval_live (s : State) (u : string) (a : ref) (n : Navigation)
    (t : handle) :
  wf s ->
  activeNavigations s !! u = Some a -> heap s !! a = Some n ->
  interval n = Some t ->
  exists c, timers s !! t = Some c /\ callback_navigation c = a.
Proof.
  intros Hwf Hu Ha Ht. pose proof (wf_status s Hwf u a n Hu Ha) as Hst.
  destruct (status n).
  - destruct Hst as (t' & c & Ht' & Hc & Hnav). exists c.
    split; [congruence | done].
  - congruence.
Qed.

(** A live interval is the one recorded in the session it ticks. *)
Lemma callback_interval (s : State) (t : handle) (c : Timer) (n : Navigation) :
  wf s ->
  timers s !! t = Some c -> heap s !! callback_navigation c = Some n ->
  interval n = Some t.
Proof.
  intros Hwf Ht Hn.
  destruct (wf_timer s Hwf t c Ht) as (n' & Hn' & Hint & _). congruence.
Qed.

(** The object ticked by a live interval belongs to the vehicle of the
    callback. *)
Lemma callback_owner (s : State) (t : handle) (c : Timer) (n : Navigation) :
  wf s ->
  timers s !! t = Some c -> heap s !! callback_navigation c = Some n ->
  userId n = callback_userId c.
Proof.
  intros Hwf Ht Hn.
  destruct (wf_timer s Hwf t c Ht) as (n' & Hn' & _ & _ & Hu & _).
  congruence.
Qed.

(** Removing a session: [clearInterval(navigation.interval)] followed by
    [activeNavigations.delete(userId)], for an object of the vehicle whose
    interval, if it records one, is live and its own. *)
Lemma wf_remove (s : State) (u : string) (a : ref) (n : Navigation) :
  wf s ->
  heap s !! a = Some n -> userId n = u ->
  (forall t, interval n = Some t ->
     exists c, timers s !! t = Some c /\ callback_navigation c = a) ->
  wf (with_navigations (delete u) (clearInterval (interval n) s)).
Proof.
  intros Hwf Ha Hown Hlive.
  assert (Hstat : forall u' a' n' t' c', u' <> u ->
            activeNavigations s !! u' = Some a' -> heap s !! a' = Some n' ->
            timers s !! t' = Some c' ->
            callback_navigation c' = a' -> interval n <> Some t').
  { intros u' a' n' t' c' Hne Hu' Ha' Ht' Hnav Heq.
    destruct (Hlive t' Heq) as (c & Hc & Hnavc).
    rewrite Ht' in Hc. simplify_eq.
    destruct (wf_table s Hwf u' _ Hu') as (m & Hm & Hmu). congruence. }
  constructor.
  - intros u' a'. destruct (interval n); unfold_state;
      intros Hl; apply lookup_delete_Some in Hl as [_ Hl];
      by apply (wf_table s Hwf).
  - intros t' c'. destruct (interval n) as [t|] eqn:Hint; unfold_state; intros Ht'.
    + apply lookup_delete_Some in Ht' as [Hne Ht'].
      by apply (wf_timer s Hwf).
    + by apply (wf_timer s Hwf).
  - intros u' a' n'.
    destruct (interval n) as [t|] eqn:Hint; unfold_state; intros Hu' Ha';
      apply lookup_delete_Some in Hu' as [Hne Hu'];
      pose proof (wf_status s Hwf u' a' n' Hu' Ha') as Hst;
      destruct (status n'); try done.
    destruct Hst as (t' & c' & Hi' & Ht' & Hnav).
    exists t', c'. split; [done|]. split; [|done].
    rewrite lookup_delete_ne; [done|].
    intros ->. by apply (Hstat u' a' n' t' c').
  - intros a'. destruct (interval n); unfold_state; apply (wf_fresh_ref s Hwf).
  - intros t'. destruct (interval n); unfold_state.
    + intros [c Hc]. apply lookup_delete_Some in Hc as [_ Hc].
      apply (wf_fresh_handle s Hwf). by exists c.
    + apply (wf_fresh_handle s Hwf).
  - intros k c a'. destruct (interval n); unfold_state;
      apply (wf_pending s Hwf).
Qed.

(** Removing the session of the table. *)
Lemma wf_remove_table (s : State) (u : string) (a : ref) (n : Navigation) :
  wf s ->
  activeNavigations s !! u = Some a -> heap s !! a = Some n ->
  wf (with_navigations (delete u) (clearInterval (interval n) s)).
Proof.
  intros Hwf Hu Ha.
  destruct (wf_table s Hwf u a Hu) as (n' & Hn' & Hown).
  apply (wf_remove s u a n); [done | done | congruence |].
  intros t Ht. by apply (interval_live s u a n).
Qed.

(** Removing the session that a live interval ticks. *)
Lemma wf_remove_callback (s : State) (t : handle) (c : Timer)
    (n : Navigation) :
  wf s ->
  timers s !! t = Some c -> heap s !! callback_navigation c = Some n ->
  wf (with_navigations (delete (callback_userId c))
        (clearInterval (interval n) s)).
Proof.
  intros Hwf Ht Hn.
  apply (wf_remove s _ (callback_navigation c) n); [done | done | |].
  - by eapply callback_owner.
  - intros t' Ht'. rewrite (callback_interval s t c n Hwf Ht Hn) in Ht'.
    injection Ht' as <-. by exists c.
Qed.

(** Writing fields of a session other than its owner, route, status and
    interval (that is: its position and its index). *)
Lemma wf_update (s : State) (a : ref) (n n' : Navigation) :
  wf s -> heap s !! a = Some n ->
  userId n' = userId n -> routeId n' = routeId n ->
  status n' = status n -> interval n' = interval n ->
  wf (with_heap (<[a := n']>) s).
Proof.
  intros Hwf Ha Hu Hr Hs Hi. constructor; unfold_state.
  - intros u' a' Hu'. destruct (wf_table s Hwf u' a' Hu') as (m & Hm & Hmu).
    destruct (decide (a = a')) as [<-|Hne].
    + exists n'. rewrite lookup_insert_eq. split; [done | congruence].
    + exists m. by rewrite lookup_insert_ne.
  - intros t c Ht.
    destruct (wf_timer s Hwf t c Ht) as (m & Hm & Hint & Hrt & Hown & Hact).
    destruct (decide (a = callback_navigation c)) as [Heq|Hne].
    + exists n'. rewrite Heq, lookup_insert_eq. rewrite <- Heq in Hm.
      assert (m = n) by congruence. subst m.
      split; [done|]. split; [congruence|].
      split; [|split; congruence].
      destruct c; simpl in *; congruence.
    + exists m. by rewrite lookup_insert_ne.
  - intros u' a' m Hu' Hm. destruct (decide (a = a')) as [<-|Hne].
    + rewrite lookup_insert_eq in Hm. injection Hm as <-.
      pose proof (wf_status s Hwf u' a n Hu' Ha) as Hst.
      rewrite Hs, Hi. done.
    + rewrite lookup_insert_ne in Hm by done.
      apply (wf_status s Hwf u' a' m Hu' Hm).
  - intros a' [m Hm]. destruct (decide (a = a')) as [<-|Hne].
    + apply (wf_fresh_ref s Hwf). by exists n.
    + rewrite lookup_insert_ne in Hm by done.
      apply (wf_fresh_ref s Hwf). by exists m.
  - apply (wf_fresh_handle s Hwf).
  - intros k c a' Hk Hc. apply lookup_insert_is_Some'. right.
    by apply (wf_pending s Hwf k c).
Qed.

Lemma wf_pause (s : State) (u : string) (a : ref) (n : Navigation)
    (t : handle) :
  wf s ->
  activeNavigations s !! u = Some a -> heap s !! a = Some n ->
  interval n = Some t ->
  wf (with_heap (<[a := set_status paused (set_interval None n)]>)
        (clearInterval (Some t) s)).
Proof.
  intros Hwf Hu Ha Hint.
  destruct (interval_live s u a n t Hwf Hu Ha Hint) as (c & Hc & Hnavc).
  constructor; unfold_state.
  - intros u' a' Hu'. destruct (wf_table s Hwf u' a' Hu') as (m & Hm & Hmu).
    destruct (decide (a = a')) as [<-|Hne].
    + eexists. rewrite lookup_insert_eq. split; [done|]. simpl. congruence.
    + exists m. by rewrite lookup_insert_ne.
  - intros t' c' Ht'. apply lookup_delete_Some in Ht' as [Hne Ht'].
    destruct (wf_timer s Hwf t' c' Ht') as (m & Hm & Hmi & Hrt).
    exists m. rewrite lookup_insert_ne; [done|].
    intros Heq. rewrite <- Heq in Hm. congruence.
  - intros u' a' m Hu' Hm. destruct (decide (a = a')) as [<-|Hne].
    + rewrite lookup_insert_eq in Hm. by injection Hm as <-.
    + rewrite lookup_insert_ne in Hm by done.
      pose proof (wf_status s Hwf u' a' m Hu' Hm) as Hst.
      destruct (status m); [|done].
      destruct Hst as (t' & c' & Hi' & Ht' & Hnav).
      exists t', c'. split; [done|]. split; [|done].
      rewrite lookup_delete_ne; [done|]. intros ->. congruence.
  - intros a' [m Hm]. destruct (decide (a = a')) as [<-|Hne].
    + apply (wf_fresh_ref s Hwf). by exists n.
    + rewrite lookup_insert_ne in Hm by done.
      apply (wf_fresh_ref s Hwf). by exists m.
  - intros t' [c' Hc']. apply lookup_delete_Some in Hc' as [_ Hc'].
    apply (wf_fresh_handle s Hwf). by exists c'.
  - intros k c' a' Hk Hc'. apply lookup_insert_is_Some'. right.
    by apply (wf_pending s Hwf k c').
Qed.

Lemma wf_resume (s : State) (u : string) (a : ref) (n : Navigation) :
  wf s ->
  activeNavigations s !! u = Some a -> heap s !! a = Some n ->
  status n = paused ->
  wf (with_heap
        (<[a := set_status active (set_interval (Some (nextHandle s)) n)]>)
        (snd (setInterval (ResumeCallback a u) s))).
Proof.
  intros Hwf Hu Ha Hst.
  pose proof (wf_status s Hwf u a n Hu Ha) as Hnone. rewrite Hst in Hnone.
  destruct (wf_table s Hwf u a Hu) as (n0 & Hn0 & Hown).
  assert (n0 = n) by congruence. subst n0.
  assert (Hfresh : timers s !! nextHandle s = None).
  { destruct (timers s !! nextHandle s) as [c|] eqn:E; [|done].
    pose proof (wf_fresh_handle s Hwf (nextHandle s) (ex_intro _ c E)). lia. }
  constructor; unfold_state.
  - intros u' a' Hu'. destruct (wf_table s Hwf u' a' Hu') as (m & Hm & Hmu).
    destruct (decide (a = a')) as [<-|Hne].
    + eexists. rewrite lookup_insert_eq. split; [done|]. simpl. congruence.
    + exists m. by rewrite lookup_insert_ne.
  - intros t' c' Ht'. apply lookup_insert_Some in Ht' as [[<- <-]|[Hne Ht']].
    + simpl. eexists. rewrite lookup_insert_eq.
      split; [done|]. by simpl.
    + destruct (wf_timer s Hwf t' c' Ht') as (m & Hm & Hmi & Hrt).
      exists m. rewrite lookup_insert_ne; [done|].
      intros Heq. rewrite <- Heq in Hm. congruence.
  - intros u' a' m Hu' Hm. destruct (decide (a = a')) as [<-|Hne].
    + rewrite lookup_insert_eq in Hm. injection Hm as <-. simpl.
      exists (nextHandle s), (ResumeCallback a u).
      by rewrite lookup_insert_eq.
    + rewrite lookup_insert_ne in Hm by done.
      pose proof (wf_status s Hwf u' a' m Hu' Hm) as Hst'.
      destruct (status m); [|done].
      destruct Hst' as (t' & c' & Hi' & Ht' & Hnav).
      exists t', c'. split; [done|]. split; [|done].
      rewrite lookup_insert_ne; [done|]. intros <-. congruence.
  - intros a' [m Hm]. destruct (decide (a = a')) as [<-|Hne].
    + apply (wf_fresh_ref s Hwf). by exists n.
    + rewrite lookup_insert_ne in Hm by done.
      apply (wf_fresh_ref s Hwf). by exists m.
  - intros t' [c' Hc']. apply lookup_insert_Some in Hc' as [[<- _]|[_ Hc']].
    + lia.
    + pose proof (wf_fresh_handle s Hwf t' (ex_intro _ c' Hc')). lia.
  - intros k c' a' Hk Hc'. apply lookup_insert_is_Some'. right.
    by apply (wf_pending s Hwf k c').
Qed.

(** Installing a new session for a vehicle, whether or not the table holds
    one for it. *)
Lemma wf_install (s : State) (u r : string) (n : Navigation) :
  wf s ->
  userId n = u -> routeId n = r -> status n = active ->
  wf (with_navigations (<[u := nextRef s]>)
        (with_heap (<[nextRef s := set_interval (Some (nextHandle s)) n]>)
           (snd (setInterval (StartCallback (nextRef s) u r)
                   (snd (alloc n s)))))).
Proof.
  intros Hwf Hnu Hnr Hns.
  assert (Hfresh : timers s !! nextHandle s = None).
  { destruct (timers s !! nextHandle s) as [c|] eqn:E; [|done].
    pose proof (wf_fresh_handle s Hwf (nextHandle s) (ex_intro _ c E)). lia. }
  assert (Hnew : heap s !! nextRef s = None).
  { destruct (heap s !! nextRef s) as [m|] eqn:E; [|done].
    pose proof (wf_fresh_ref s Hwf (nextRef s) (ex_intro _ m E)). lia. }
  constructor; unfold_state.
  - intros u' a' Hu'. apply lookup_insert_Some in Hu' as [[<- <-]|[Hne Hu']].
    + eexists. rewrite lookup_insert_eq. split; [done|]. by simpl.
    + destruct (wf_table s Hwf u' a' Hu') as (m & Hm & Hmu).
      exists m. split; [|done].
      rewrite !lookup_insert_ne; [done | congruence | congruence].
  - intros t' c' Ht'. apply lookup_insert_Some in Ht' as [[<- <-]|[Hne Ht']].
    + simpl. eexists. rewrite lookup_insert_eq. split; [done|]. by simpl.
    + destruct (wf_timer s Hwf t' c' Ht') as (m & Hm & Hmi & Hrt).
      exists m. split; [|done].
      rewrite !lookup_insert_ne; [done | congruence | congruence].
  - intros u' a' m Hu' Hm.
    apply lookup_insert_Some in Hu' as [[<- <-]|[Hne Hu']].
    + rewrite lookup_insert_eq in Hm. injection Hm as <-. simpl. rewrite Hns.
      exists (nextHandle s), (StartCallback (nextRef s) u r).
      by rewrite lookup_insert_eq.
    + destruct (wf_table s Hwf u' a' Hu') as (m' & Hm' & _).
      rewrite !lookup_insert_ne in Hm by congruence.
      pose proof (wf_status s Hwf u' a' m Hu' Hm) as Hst'.
      destruct (status m); [|done].
      destruct Hst' as (t' & c' & Hi' & Ht' & Hnav).
      exists t', c'. split; [done|]. split; [|done].
      rewrite lookup_insert_ne; [done | congruence].
  - intros a' [m Hm]. destruct (decide (nextRef s = a')) as [<-|Hne]; [lia|].
    rewrite !lookup_insert_ne in Hm by done.
    pose proof (wf_fresh_ref s Hwf a' (ex_intro _ m Hm)). lia.
  - intros t' [c' Hc']. apply lookup_insert_Some in Hc' as [[<- _]|[_ Hc']].
    + lia.
    + pose proof (wf_fresh_handle s Hwf t' (ex_intro _ c' Hc')). lia.
  - intros k c' a' Hk Hc'. apply lookup_insert_is_Some'. right.
    apply lookup_insert_is_Some'. right.
    by apply (wf_pending s Hwf k c').
Qed.

(** Suspending at a store call, and the call settling. *)
Lemma wf_suspend (s : State) (k : nat) (c : Continuation) :
  wf s ->
  (forall a, continuation_navigation c = Some a -> is_Some (heap s !! a)) ->
  wf (with_pending (<[k := c]>) s).
Proof.
  intros [H1 H2 H3 H4 H5 H6] Hc. constructor; unfold_state; try done.
  intros k' c' a Hk Ha. apply lookup_insert_Some in Hk as [[<- <-]|[_ Hk]].
  - by apply Hc.
  - by apply (H6 k' c').
Qed.

Lemma wf_settled (s : State) (k : nat) :
  wf s -> wf (with_pending (delete k) s).
Proof.
  intros [H1 H2 H3 H4 H5 H6]. constructor; unfold_state; try done.
  intros k' c' a Hk Ha. apply lookup_delete_Some in Hk as [_ Hk].
  by apply (H6 k' c').
Qed.

Lemma wf_startNavigation (s : State) (u r : string) (now : Z)
    (db : Outcomes) :
  wf s -> wf (startNavigation u r now db s).1.1.
Proof.
  intros Hwf. unfold startNavigation.
  destruct (decide (is_Some (activeNavigations s !! u))) as [|Hnone]; [done|].
  destruct (db 0%nat); [|done].
  destruct (routes s !! r) as [route|]; [|done].
  destruct (decide (route_userId route = u)) as [Hown|]; [|done].
  destruct (db 1%nat); [|done].
  assert (Hwf' : wf (updateRoute r alive true s)) by by apply (wf_same s).
  destruct (processRouteForMovement (route_data route)) as [pts|]; [|done].
  by apply (wf_install (updateRoute r alive true s) u r).
Qed.

Lemma wf_startTick (s : State) (t : handle) (a : ref) (u r : string)
    (n : Navigation) (now : Z) (db : Outcomes) :
  wf s -> timers s !! t = Some (StartCallback a u r) -> heap s !! a = Some n ->
  wf (startTick a n u r now db s).1.
Proof.
  intros Hwf Ht Ha.
  unfold startTick. destruct (_ <=? _)%nat.
  - pose proof (wf_remove_callback s t _ n Hwf Ht Ha) as Hrem.
    destruct (db 0%nat); simpl; [|done].
    eapply wf_same; [..|exact Hrem]; done.
  - set (n1 := set_position _ n).
    assert (H1 : wf (with_heap (<[a := n1]>) s)) by by apply (wf_update s a n).
    assert (H2 : forall s1, wf s1 -> heap s1 !! a = Some n1 ->
              wf (with_heap (<[a := set_index (S (currentIndex n1)) n1]>) s1)).
    { intros s1 Hs1 Hn1. by apply (wf_update s1 a n1). }
    assert (H3 : forall p, wf (updateFleet u p (with_heap (<[a := n1]>) s)))
      by (intros p; eapply wf_same; [..|exact H1]; done).
    assert (Hl : heap (with_heap (<[a := n1]>) s) !! a = Some n1)
      by apply lookup_insert_eq.
    destruct (db 0%nat); simpl.
    + destruct (fleet s !! u); [by apply H2|].
      destruct (db 1%nat); by apply H2.
    + by apply H2.
Qed.

Lemma wf_resumeTick (s : State) (t : handle) (a : ref) (u : string)
    (n : Navigation) (now : Z) (db : Outcomes) :
  wf s -> timers s !! t = Some (ResumeCallback a u) -> heap s !! a = Some n ->
  wf (resumeTick a n u now db s).1.
Proof.
  intros Hwf Ht Ha.
  unfold resumeTick. destruct (_ <=? _)%nat.
  - pose proof (wf_remove_callback s t _ n Hwf Ht Ha) as Hrem.
    destruct (db 0%nat); simpl; [|done].
    eapply wf_same; [..|exact Hrem]; done.
  - simpl. by apply (wf_update s a n).
Qed.

Lemma wf_tickBegin (s s' : State) (k : nat) (t : handle) (now : Z)
    (eff : list Effect) :
  wf s -> tickBegin k t now s = Some (s', eff) -> wf s'.
Proof.
  intros Hwf Hstep. unfold tickBegin in Hstep.
  destruct (timers s !! t) as [c|] eqn:Ht; [|done]. simpl in Hstep.
  destruct (heap s !! callback_navigation c) as [n|] eqn:Ha; [|done].
  simpl in Hstep.
  destruct (_ <=? _)%nat.
  - simplify_eq. apply wf_suspend.
    + by apply (wf_remove_callback s t c n).
    + simpl. intros a [= <-]. destruct (interval n); unfold_state; by exists n.
  - destruct c as [a u r|a u]; simplify_eq/=.
    + apply wf_suspend.
      * by apply (wf_update s a n).
      * simpl. intros a' [= <-]. unfold_state. rewrite lookup_insert_eq.
        by eexists.
    + by apply (wf_update s a n).
Qed.

Lemma wf_publishAndAdvance (s s' : State) (a : ref) (u r : string)
    (p : value) (now : Z) (out : Output) :
  wf s -> publishAndAdvance a u r p now s = Some (s', out) -> wf s'.
Proof.
  intros Hwf Hstep. unfold publishAndAdvance in Hstep.
  destruct (heap s !! a) as [n|] eqn:Ha; [|done]. simplify_eq/=.
  by apply (wf_update s a n).
Qed.

Lemma wf_settle (s s' : State) (k : nat) (now : Z) (o : StoreOutcome)
    (out : Output) :
  wf s -> settle k now o s = Some (s', out) -> wf s'.
Proof.
  intros Hwf Hstep. unfold settle in Hstep.
  destruct (pending s !! k) as [c|] eqn:Hk; [|done].
  unfold resume in Hstep. simpl in Hstep.
  pose proof (wf_settled s k Hwf) as Hwf1.
  pose proof (fun a => wf_pending s Hwf k c a Hk) as Hobj.
  set (s1 := with_pending (delete k) s) in *.
  destruct c as [u r|u r route|a u r p|a u r p|c r|a u r].
  - destruct o; [|by simplify_eq].
    destruct (routes _ !! r) as [route|]; [|by simplify_eq].
    destruct (decide _); simplify_eq; [|done].
    by apply wf_suspend.
  - destruct o; [|by simplify_eq].
    assert (Hwf2 : wf (updateRoute r alive true s1))
      by (eapply wf_same; [..|exact Hwf1]; done).
    destruct (processRouteForMovement _) as [pts|]; simplify_eq; [|done].
    by apply (wf_install (updateRoute r alive true s1) u r).
  - destruct o.
    + assert (Hwf2 : wf (updateFleet u p s1))
        by (eapply wf_same; [..|exact Hwf1]; done).
      destruct (fleet _ !! u).
      * by eapply wf_publishAndAdvance.
      * simplify_eq. apply wf_suspend; [done|].
        simpl. intros a' [= <-]. by apply Hobj.
    + by eapply wf_publishAndAdvance.
  - by eapply wf_publishAndAdvance.
  - destruct o; [|by simplify_eq].
    destruct (heap _ !! callback_navigation c); simplify_eq/=.
    eapply wf_same; [..|exact Hwf1]; done.
  - destruct o; [|by simplify_eq].
    destruct (heap _ !! a); simplify_eq/=.
    eapply wf_same; [..|exact Hwf1]; done.
Qed.

(** Every event keeps the state well formed. *)
Lemma wf_step (s s' : State) (e : Event) (out : Output) :
  wf s -> step s e = Some (s', out) -> wf s'.
Proof.
  intros Hwf Hstep.
  destruct e as [u r now db | u now db | u | u | t now db
                | sid | sid u | sid | rs fl
                | k u r | k u | k t now | k now o]; simpl in Hstep.
  - pose proof (wf_startNavigation s u r now db Hwf) as H.
    destruct (startNavigation _ _ _ _ _) as [[s1 r1] e1].
    by simplify_eq.
  - unfold stopNavigation in Hstep.
    destruct (activeNavigations s !! u) as [a|] eqn:Hu;
      [|by simplify_eq/=].
    destruct (heap s !! a) as [n|] eqn:Ha; [|done]. simpl in Hstep.
    pose proof (wf_remove_table s u a n Hwf Hu Ha) as Hrem.
    destruct (db 0%nat); simplify_eq/=; [|done].
    eapply wf_same; [..|exact Hrem]; done.
  - unfold pauseNavigation in Hstep.
    destruct (activeNavigations s !! u) as [a|] eqn:Hu;
      [|by simplify_eq/=].
    destruct (heap s !! a) as [n|] eqn:Ha; [|done]. simpl in Hstep.
    simplify_eq. destruct (interval n) as [t|] eqn:Hi; [|done].
    by apply (wf_pause s u a n t).
  - unfold resumeNavigation in Hstep.
    destruct (activeNavigations s !! u) as [a|] eqn:Hu;
      [|by simplify_eq/=].
    destruct (heap s !! a) as [n|] eqn:Ha; [|done]. simpl in Hstep.
    simplify_eq. destruct (status n) eqn:Hs; [done|].
    by apply (wf_resume s u a n).
  - unfold tick in Hstep.
    destruct (timers s !! t) as [c|] eqn:Ht; [|done]. simpl in Hstep.
    destruct (heap s !! callback_navigation c) as [n|] eqn:Ha; [|done].
    simpl in Hstep. destruct c as [a u r|a u]; simpl in *.
    + pose proof (wf_startTick s t a u r n now db Hwf Ht Ha) as H.
      destruct (startTick _ _ _ _ _ _ _). by simplify_eq/=.
    + pose proof (wf_resumeTick s t a u n now db Hwf Ht Ha) as H.
      destruct (resumeTick _ _ _ _ _ _). by simplify_eq/=.
  - unfold connection in Hstep.
    destruct (sockets s !! sid); simplify_eq/=.
    eapply wf_same; [..|exact Hwf]; done.
  - unfold joinUser in Hstep.
    destruct (sockets s !! sid); simplify_eq/=.
    eapply wf_same; [..|exact Hwf]; done.
  - unfold disconnect in Hstep.
    destruct (sockets s !! sid) as [uo|]; [|done]. simpl in Hstep.
    assert (Hwf0 : wf (with_sockets (delete sid) s))
      by (eapply wf_same; [..|exact Hwf]; done).
    destruct uo as [uid|]; [|by simplify_eq/=].
    destruct (truthy uid); [|by simplify_eq/=].
    destruct (activeNavigations s !! uid) as [a|] eqn:Hu;
      [|by simplify_eq/=].
    destruct (heap s !! a) as [n|] eqn:Ha; [|done]. simpl in Hstep.
    simplify_eq.
    pose proof (wf_remove_table _ uid a n Hwf0 Hu Ha) as Hrem.
    by destruct (interval n).
  - simplify_eq. eapply wf_same; [..|exact Hwf]; done.
  - destruct (decide _) as [|_]; [done|]. unfold startRequest in Hstep.
    destruct (decide _); simplify_eq; [done|].
    by apply wf_suspend.
  - destruct (decide _) as [|_]; [done|]. unfold stopRequest in Hstep.
    destruct (activeNavigations s !! u) as [a|] eqn:Hu;
      [|by simplify_eq/=].
    destruct (heap s !! a) as [n|] eqn:Ha; [|done]. simplify_eq/=.
    apply wf_suspend.
    + by apply (wf_remove_table s u a n).
    + simpl. intros a' [= <-]. destruct (interval n); unfold_state; by exists n.
  - destruct (decide _) as [|_]; [done|].
    destruct (tickBegin k t now s) as [[s1 eff]|] eqn:Hb; [|done].
    simplify_eq/=. by eapply wf_tickBegin.
  - by eapply wf_settle.
Qed.

Lemma reachable_wf (s : State) : reachable s -> wf s.
Proof.
  induction 1 as [rs fl | s e s' out _ IH Hstep].
  - apply wf_initial.
  - by eapply wf_step.
Qed.

End ServerInvariant.

Section ServerRuns.
Import Js RouteLogic Server.

Lemma reachable_run (s s' : State) (events : list Event) (eff : list Effect) :
  reachable s -> run s events = Some (s', eff) -> reachable s'.
Proof.
  revert s s' eff. induction events as [|e events IH]; intros s s' eff Hr Hrun.
  - simpl in Hrun. by simplify_eq.
  - simpl in Hrun.
    destruct (step s e) as [[s1 out]|] eqn:Hstep; [|done]. simpl in Hrun.
    destruct (run s1 events) as [[s2 eff2]|] eqn:Hrest; [|done].
    simpl in Hrun. simplify_eq.
    eapply IH; [|done]. by eapply reachable_step.
Qed.

Lemma reachable_after (s : State) (events : list Event) :
  reachable s -> reachable (after s events).
Proof.
  intros Hr. unfold after.
  destruct (run s events) as [[s' eff]|] eqn:Hrun; [|done].
  by eapply reachable_run.
Qed.

Lemma run_app (s : State) (es1 es2 : list Event) :
  run s (es1 ++ es2)
  = match run s es1 with
    | Some (s1, eff1) =>
        match run s1 es2 with
        | Some (s2, eff2) => Some (s2, eff1 ++ eff2)
        | None => None
        end
    | None => None
    end.
Proof.
  revert s. induction es1 as [|e es1 IH]; intros s; simpl.
  - by destruct (run s es2) as [[? ?]|].
  - destruct (step s e) as [[s1 out]|]; [|done]. simpl. rewrite IH.
    destruct (run s1 es1) as [[s2 eff2]|]; [|done]. simpl.
    destruct (run s2 es2) as [[s3 eff3]|]; [|done]. simpl.
    by rewrite app_assoc.
Qed.

End ServerRuns.

Section Interleaving.
Import Js RouteLogic Server.
Local Open Scope string_scope.
Local Open Scope list_scope.

Local Arguments processRouteForMovement : simpl never.

(** Issuing a store call under an unused number and settling it leaves the
    pending calls as they were. *)
Lemma suspended_settled (s : State) (k : nat) (c : Continuation) :
  pending s !! k = None ->
  with_pending (delete k) (with_pending (<[k := c]>) s) = s.
Proof.
  intros Hk. destruct s as [tab hp tm nr nh rt fl so pd]. simpl in Hk.
  unfold with_pending. simpl. f_equal. by apply delete_insert_id.
Qed.

(** Settling a store call that has just been issued runs its
    continuation. *)
Lemma settle_suspended (s : State) (k : nat) (c : Continuation) (now : Z)
    (o : StoreOutcome) :
  pending s !! k = None ->
  settle k now o (with_pending (<[k := c]>) s) = resume k c now o s.
Proof.
  intros Hk. unfold settle.
  change (pending (with_pending <[k:=c]> s)) with (<[k:=c]> (pending s)).
  rewrite lookup_insert_eq. simpl. by rewrite suspended_settled.
Qed.

Lemma settleAll_returned (fuel k : nat) (now : Z) (db : Outcomes) (i : nat)
    (s : State) (o : Output) :
  pending s !! k = None -> settleAll fuel k now db i s o = Some (s, o).
Proof. intros Hk. destruct fuel; simpl; by rewrite Hk. Qed.

Lemma settleAll_suspended (fuel k : nat) (now : Z) (db : Outcomes) (i : nat)
    (s : State) (c : Continuation) (o : Output) :
  pending s !! k = None ->
  settleAll (S fuel) k now db i (with_pending (<[k := c]>) s) o
  = '(s', o') ← resume k c now (db i) s;
    settleAll fuel k now db (S i) s' (merge o o').
Proof.
  intros Hk. cbn [settleAll].
  change (pending (with_pending <[k:=c]> s)) with (<[k:=c]> (pending s)).
  rewrite lookup_insert_eq. cbn [step]. by rewrite settle_suspended.
Qed.

(** The whole run of [/startNavigation] is its stretches run one after the
    other. *)
Lemma startNavigation_uninterrupted (s : State) (k : nat) (u r : string)
    (now : Z) (db : Outcomes) :
  pending s !! k = None ->
  uninterrupted (StartRequest k u r) k now db s
  = step s (StartNavigation u r now db).
Proof.
  intros Hk. unfold uninterrupted. cbn [step].
  destruct (decide (is_Some (pending s !! k))) as [[? H]|_]; [congruence|].
  unfold startRequest, startNavigation. cbn [mbind option_bind].
  destruct (decide (is_Some (activeNavigations s !! u))).
  { by rewrite settleAll_returned. }
  rewrite settleAll_suspended by done. cbn [resume].
  destruct (db 0%nat); cbn [mbind option_bind];
    [|by rewrite settleAll_returned].
  destruct (routes s !! r) as [route|]; cbn [mbind option_bind];
    [|by rewrite settleAll_returned].
  destruct (decide (route_userId route = u)); cbn [mbind option_bind];
    [|by rewrite settleAll_returned].
  rewrite settleAll_suspended by done. cbn [resume].
  destruct (db 1%nat); cbn [mbind option_bind];
    [|by rewrite settleAll_returned].
  destruct (processRouteForMovement (route_data route)) as [pts|];
    simpl; by rewrite Hk.
Qed.

(** The whole run of [/stopNavigation] likewise. *)
Lemma stopNavigation_uninterrupted (s : State) (k : nat) (u : string)
    (now : Z) (db : Outcomes) :
  pending s !! k = None ->
  uninterrupted (StopRequest k u) k now db s
  = step s (StopNavigation u now db).
Proof.
  intros Hk. unfold uninterrupted. cbn [step].
  destruct (decide (is_Some (pending s !! k))) as [[? H]|_]; [congruence|].
  unfold stopRequest, stopNavigation.
  destruct (activeNavigations s !! u) as [a|]; cbn [mbind option_bind];
    [|by rewrite settleAll_returned].
  destruct (heap s !! a) as [n|] eqn:Ha; cbn [mbind option_bind]; [|done].
  assert (Hk' : pending (with_navigations (delete u)
                           (clearInterval (interval n) s)) !! k = None)
    by by destruct (interval n).
  assert (Ha' : heap (with_navigations (delete u)
                        (clearInterval (interval n) s)) !! a = Some n)
    by by destruct (interval n).
  rewrite settleAll_suspended by done. cbn [resume].
  destruct (db 0%nat); cbn [mbind option_bind].
  - rewrite Ha'. cbn [mbind option_bind].
    rewrite settleAll_returned; [done|]. by destruct (interval n).
  - by rewrite settleAll_returned.
Qed.

(** A whole firing of an interval likewise. *)
Lemma tick_uninterrupted (s : State) (k : nat) (t : handle) (now : Z)
    (db : Outcomes) :
  pending s !! k = None ->
  uninterrupted (TickBegin k t now) k now db s = step s (Tick t now db).
Proof.
  intros Hk. unfold uninterrupted. cbn [step].
  destruct (decide (is_Some (pending s !! k))) as [[? H]|_]; [congruence|].
  unfold tickBegin, tick.
  destruct (timers s !! t) as [c|]; cbn [mbind option_bind]; [|done].
  destruct (heap s !! callback_navigation c) as [n|] eqn:Ha;
    cbn [mbind option_bind]; [|done].
  assert (Hcompletion :
            settleAll 2 k now db 0
              (with_pending
                 (<[k := AwaitRouteDead c (callback_routeId c n)]>)
                 (with_navigations (delete (callback_userId c))
                    (clearInterval (interval n) s)))
              (mkOutput None [RouteUpdate (callback_routeId c n) dead false])
            = Some
                (match db 0%nat with
                 | Rejects =>
                     (with_navigations (delete (callback_userId c))
                        (clearInterval (interval n) s),
                      mkOutput None
                        [RouteUpdate (callback_routeId c n) dead false])
                 | Resolves =>
                     (updateRoute (callback_routeId c n) dead false
                        (with_navigations (delete (callback_userId c))
                           (clearInterval (interval n) s)),
                      mkOutput None
                        [ RouteUpdate (callback_routeId c n) dead false;
                          Emit (callback_userId c) "navigation-completed"
                            (NavigationCompleted (callback_routeId c n)
                               (routeName n)
                               ("Navigation completed for "
                                  +:+ routeName n +:+ "!"));
                          Emit "fleet-manager" "route-completed"
                            (RouteCompleted (callback_userId c)
                               (callback_routeId c n) (routeName n) now) ])
                 end)).
  { assert (Hk' : pending (with_navigations (delete (callback_userId c))
                             (clearInterval (interval n) s)) !! k = None)
      by by destruct (interval n).
    assert (Ha' : heap (with_navigations (delete (callback_userId c))
                          (clearInterval (interval n) s))
                    !! callback_navigation c = Some n)
      by by destruct (interval n).
    rewrite settleAll_suspended by done. cbn [resume].
    destruct (db 0%nat); cbn [mbind option_bind].
    - rewrite Ha'. cbn [mbind option_bind].
      rewrite settleAll_returned; [done|]. by destruct (interval n).
    - by rewrite settleAll_returned. }
  destruct c as [a u r|a u]; cbn [callback_navigation callback_userId
                                   callback_routeId] in *.
  - unfold startTick.
    destruct (_ <=? _)%nat.
    + cbn [mbind option_bind]. rewrite Hcompletion.
      by destruct (db 0%nat).
    + cbn [mbind option_bind].
      set (p := at_index (movementPoints n) (currentIndex n)).
      set (n1 := set_position p n).
      assert (Hk1 : pending (with_heap (<[a := n1]>) s) !! k = None) by done.
      rewrite settleAll_suspended by done. cbn [resume].
      unfold publishAndAdvance.
      destruct (db 0%nat).
      * change (fleet (with_heap <[a:=n1]> s)) with (fleet s).
        destruct (fleet s !! u).
        -- change (heap (updateFleet u p (with_heap <[a:=n1]> s)))
             with (<[a:=n1]> (heap s)).
           rewrite lookup_insert_eq. cbn [mbind option_bind].
           by rewrite settleAll_returned.
        -- cbn [mbind option_bind].
           rewrite settleAll_suspended by done. cbn [resume].
           unfold publishAndAdvance.
           change (heap (updateFleet u p (with_heap <[a:=n1]> s)))
             with (<[a:=n1]> (heap s)).
           rewrite lookup_insert_eq. cbn [mbind option_bind].
           rewrite settleAll_returned by done.
           by destruct (db 1%nat).
      * change (heap (with_heap <[a:=n1]> s)) with (<[a:=n1]> (heap s)).
        rewrite lookup_insert_eq. cbn [mbind option_bind].
        by rewrite settleAll_returned.
  - unfold resumeTick.
    destruct (_ <=? _)%nat.
    + cbn [mbind option_bind]. rewrite Hcompletion.
      by destruct (db 0%nat).
    + cbn [mbind option_bind]. by rewrite settleAll_returned.
Qed.

(** X22.  The whole runs are runs of the server: [/startNavigation],
    [/stopNavigation] and a firing, taken as a whole with the outcomes of
    their store calls, do and answer exactly what their stretches do and
    answer when they are handled one after the other, the store calls
    settling in order, under any number [k] that no pending store call
    carries. *)
Theorem whole_runs_are_stretches (s : State) (k : nat) (now : Z)
    (db : Outcomes) :
  pending s !! k = None ->
  (forall u r,
      uninterrupted (StartRequest k u r) k now db s
      = step s (StartNavigation u r now db))
  /\ (forall u,
        uninterrupted (StopRequest k u) k now db s
        = step s (StopNavigation u now db))
  /\ (forall t,
        uninterrupted (TickBegin k t now) k now db s
        = step s (Tick t now db)).
Proof.
  intros Hk. split; [|split].
  - intros u r. by apply startNavigation_uninterrupted.
  - intros u. by apply stopNavigation_uninterrupted.
  - intros t. by apply tick_uninterrupted.
Qed.

Lemma whole_runs_are_stretches_witness :
  uninterrupted (TickBegin 7 0 2000) 7 2000 resolves scenario2
  = step scenario2 (Tick 0 2000 resolves).
Proof.
  assert (Hk : pending scenario2 !! 7%nat = None) by (vm_compute; reflexivity).
  exact (proj2 (proj2 (whole_runs_are_stretches scenario2 7 2000 resolves Hk))
           0%nat).
Defined.

End Interleaving.

Section SingleSession.
Import Js RouteLogic Server.
Local Open Scope string_scope.
Local Open Scope list_scope.

(** C1 (the code departs from the claim).  A start request that arrives
    while the table holds a session of the vehicle is answered with status
    400 at once and changes nothing, whether it is taken as a whole run or
    as its first stretch.  But the table is read at line 269 and written at
    line 410, with two awaits in between.  When two start requests of one
    vehicle overlap, both pass the test, both are answered 200, and the
    server is left with two session objects of the vehicle, each ticked by
    a live interval of its own; the table holds the later one, and the
    earlier one is out of reach of [/stopNavigation] and
    [/pauseNavigation], which go through the table. *)
Theorem overlapping_starts_two_sessions :
  (forall (s : State) (u : string) (a : ref) (r : string),
      activeNavigations s !! u = Some a ->
      let conflict :=
        mkOutput
          (Some (error 400 ("User already has an active navigation. "
                              +:+ "Stop current navigation first.")))
          [] in
      (forall now db, step s (StartNavigation u r now db) = Some (s, conflict))
      /\ (forall k, pending s !! k = None ->
            step s (StartRequest k u r) = Some (s, conflict)))
  /\ reachable scenario1_overlap
  /\ exists s4 s5 eff4 n0 n1,
       let started :=
         mkOutput
           (Some (mkResponse 200
                    (StartedBody "Navigation started for depot run"
                       "R" "depot run" 3)))
           [] in
       run (initial scenario2_routes ∅) (take 4 overlappingStarts)
       = Some (s4, eff4)
       /\ activeNavigations s4 !! "A" = None
       /\ step s4 (Settle 0 1001 Resolves) = Some (s5, started)
       /\ step s5 (Settle 1 1002 Resolves) = Some (scenario1_overlap, started)
       /\ timers scenario1_overlap !! 0%nat = Some (StartCallback 0 "A" "R")
       /\ timers scenario1_overlap !! 1%nat = Some (StartCallback 1 "A" "R")
       /\ heap scenario1_overlap !! 0%nat = Some n0
       /\ heap scenario1_overlap !! 1%nat = Some n1
       /\ userId n0 = "A" /\ userId n1 = "A"
       /\ interval n0 = Some 0%nat /\ interval n1 = Some 1%nat
       /\ activeNavigations scenario1_overlap !! "A" = Some 1%nat
       /\ (forall u, activeNavigations scenario1_overlap !! u <> Some 0%nat).
Proof.
  split; [|split].
  - intros s u a r Ha conflict. split.
    + intros now db. simpl. unfold startNavigation.
      destruct (decide (is_Some (activeNavigations s !! u))) as [_|Hn];
        [done|].
      exfalso. apply Hn. by exists a.
    + intros k Hk. simpl.
      destruct (decide (is_Some (pending s !! k))) as [[? H]|_];
        [congruence|].
      unfold startRequest.
      destruct (decide (is_Some (activeNavigations s !! u))) as [_|Hn];
        [done|].
      exfalso. apply Hn. by exists a.
  - apply reachable_after, reachable_initial.
  - do 5 eexists.
    split; [vm_compute; reflexivity|].
    split; [vm_compute; reflexivity|].
    split; [vm_compute; reflexivity|].
    split; [vm_compute; reflexivity|].
    split; [vm_compute; reflexivity|].
    split; [vm_compute; reflexivity|].
    split; [vm_compute; reflexivity|].
    split; [vm_compute; reflexivity|].
    split; [reflexivity|]. split; [reflexivity|].
    split; [reflexivity|]. split; [reflexivity|].
    split; [vm_compute; reflexivity|].
    intros u Hu.
    assert (Htab : activeNavigations scenario1_overlap = {[ "A" := 1%nat ]})
      by (vm_compute; reflexivity).
    rewrite Htab in Hu. apply lookup_singleton_Some in Hu as [_ Hu].
    discriminate.
Qed.

End SingleSession.

Section Progress.
Import Js RouteLogic Server.

(** The published progress, as a rational. *)
Lemma progressAt_fin (i len : nat) :
  (0 < len)%nat ->
  exists q, progressAt i len = Fin q
            /\ (q == inject_Z (Z.of_nat i) / inject_Z (Z.of_nat len)
                     * inject_Z 100)%Q.
Proof.
  intros Hlen. unfold progressAt, of_nat, of_Z, jdiv.
  rewrite qsign_inject_Z.
  destruct (Z.compare_spec (Z.of_nat len) 0); [lia | lia |].
  unfold fin, jmul, fin. eexists. split; [reflexivity|].
  by rewrite !Qred_correct.
Qed.

Lemma progressAt_percentage (i len : nat) :
  (0 < len)%nat -> percentage_of i len (progressAt i len).
Proof.
  intros Hlen. destruct (progressAt_fin i len Hlen) as (q & Hq & Heq).
  exists q. split; [done|]. by rewrite Heq.
Qed.

Lemma progressAt_percent_le (i len : nat) :
  (0 < len)%nat -> (i <= len)%nat -> in_percent (progressAt i len).
Proof.
  intros Hlen Hi. destruct (progressAt_fin i len) as (q & -> & Hq); [lia|].
  simpl. rewrite Hq.
  assert (HL : (0 < inject_Z (Z.of_nat len))%Q).
  { change 0%Q with (inject_Z 0). rewrite <- Zlt_Qlt. lia. }
  assert (H0 : (0 <= inject_Z (Z.of_nat i) / inject_Z (Z.of_nat len))%Q).
  { apply Qle_shift_div_l; [done|]. rewrite Qmult_0_l.
    change 0%Q with (inject_Z 0). rewrite <- Zle_Qle. lia. }
  assert (H1 : (inject_Z (Z.of_nat i) / inject_Z (Z.of_nat len) <= 1)%Q).
  { apply Qle_shift_div_r; [done|]. rewrite Qmult_1_l.
    rewrite <- Zle_Qle. lia. }
  split.
  - apply Qmult_le_0_compat; [done | done].
  - apply Qle_trans with (1 * inject_Z 100)%Q; [|done].
    by apply Qmult_le_compat_r.
Qed.

Lemma progressAt_percent (i len : nat) :
  (i < len)%nat -> in_percent (progressAt i len).
Proof. intros Hi. apply progressAt_percent_le; lia. Qed.

Lemma progressAt_monotone (i j len : nat) :
  (0 < len)%nat -> (i <= j)%nat ->
  progress_le (progressAt i len) (progressAt j len).
Proof.
  intros Hlen Hij.
  destruct (progressAt_fin i len Hlen) as (q & -> & Hq).
  destruct (progressAt_fin j len Hlen) as (q' & -> & Hq').
  simpl. rewrite Hq, Hq'.
  assert (HL : (0 < inject_Z (Z.of_nat len))%Q).
  { change 0%Q with (inject_Z 0). rewrite <- Zlt_Qlt. lia. }
  apply Qmult_le_compat_r; [|done].
  unfold Qdiv. apply Qmult_le_compat_r.
  - rewrite <- Zle_Qle. lia.
  - apply Qlt_le_weak. by apply Qinv_lt_0_compat.
Qed.

(** The progress values of consecutive indices within the movement points:
    each is its index over the length, in per cent, within [0, 100], and
    they do not decrease. *)
Lemma progress_run (i k len : nat) :
  (i + k <= len)%nat ->
  let run := (fun j => (j, progressAt j len)) <$> seq i k in
  Forall2 (fun j x => x.1 = j /\ percentage_of j len x.2 /\ in_percent x.2)
    (seq i k) run
  /\ StronglySorted (fun x y => progress_le x.2 y.2) run.
Proof.
  intros Hle run. split.
  - unfold run. apply Forall2_fmap_r, Forall_Forall2_diag.
    rewrite Forall_forall. intros j Hj. apply elem_of_seq in Hj. simpl.
    split; [done|]. split.
    + apply progressAt_percentage. lia.
    + apply progressAt_percent. lia.
  - unfold run. clear run. revert i Hle.
    induction k as [|k IH]; intros i Hle; [constructor|].
    simpl. constructor.
    + apply IH. lia.
    + rewrite Forall_fmap, Forall_forall. intros j Hj.
      apply elem_of_seq in Hj. simpl.
      apply progressAt_monotone; lia.
Qed.

End Progress.

Section Ticking.
Import Js RouteLogic Server.
Local Open Scope string_scope.
Local Open Scope list_scope.

Lemma published_app (eff1 eff2 : list Effect) :
  published (eff1 ++ eff2) = published eff1 ++ published eff2.
Proof.
  induction eff1 as [|e eff1 IH]; [done|]. simpl.
  destruct e as [room ev [ | | | | | ]| |]; simpl; by rewrite ?IH.
Qed.

(** One firing of a live interval on a session that has points left. *)
Lemma tick_position (s : State) (t : handle) (c : Timer) (n : Navigation)
    (now : Z) (db : Outcomes) :
  timers s !! t = Some c ->
  heap s !! callback_navigation c = Some n ->
  (currentIndex n < length (movementPoints n))%nat ->
  let position := at_index (movementPoints n) (currentIndex n) in
  exists s' pre,
    tick t now db s
    = Some (s',
            pre ++
            [ Emit (callback_userId c) "location-update"
                (LocationUpdate (callback_routeId c n) (routeName n) position
                   (progressOf n) (currentIndex n)
                   (length (movementPoints n))
                   (length (movementPoints n) - currentIndex n));
              Emit "fleet-manager" "live-location-update"
                (LiveLocationUpdate (callback_userId c)
                   (callback_routeId c n) (routeName n) position
                   (progressOf n) now) ])
    /\ (pre = [] \/ pre = [FleetUpdate (callback_userId c) position])
    /\ heap s' = <[callback_navigation c := advance n]> (heap s)
    /\ timers s' = timers s
    /\ activeNavigations s' = activeNavigations s
    /\ routes s' = routes s.
Proof.
  intros Ht Hn Hlt position. unfold tick. rewrite Ht. simpl. rewrite Hn. simpl.
  destruct c as [a u r|a u]; simpl in *.
  - unfold startTick.
    destruct (Nat.leb_spec (length (movementPoints n)) (currentIndex n));
      [lia|].
    fold position.
    assert (Hins : forall h : gmap ref Navigation,
              <[a := set_index (S (currentIndex n)) (set_position position n)]>
                (<[a := set_position position n]> h)
              = <[a := advance n]> h).
    { intros h. by rewrite insert_insert_eq. }
    unfold with_heap at 2. simpl fleet.
    destruct (db 0%nat); [destruct (fleet s !! u); [|destruct (db 1%nat)]|];
      eexists; exists [FleetUpdate u position];
      (split; [reflexivity|]); (split; [by right|]);
      simpl; by rewrite Hins.
  - unfold resumeTick.
    destruct (Nat.leb_spec (length (movementPoints n)) (currentIndex n));
      [lia|].
    eexists. exists []. split; [reflexivity|]. split; [by left|]. done.
Qed.



End Ticking.

Section Gone.
Import Js RouteLogic Server.

Lemma gone_same (s s' : State) (a : ref) (t : option handle) :
  activeNavigations s' = activeNavigations s -> timers s' = timers s ->
  nextRef s' = nextRef s -> nextHandle s' = nextHandle s ->
  gone s a t -> gone s' a t.
Proof.
  destruct s, s'. simpl. intros -> -> -> -> [H1 H2 H3 H4]. by constructor.
Qed.

Lemma gone_remove (s : State) (a : ref) (t : option handle) (u : string)
    (h : option handle) :
  gone s a t -> gone (with_navigations (delete u) (clearInterval h s)) a t.
Proof.
  intros [H1 H2 H3 H4]. constructor.
  - intros u'. destruct h; unfold_state; intros Hl;
      apply lookup_delete_Some in Hl as [_ Hl]; by apply (H1 u').
  - intros t' c. destruct h; unfold_state; intros Hl.
    + apply lookup_delete_Some in Hl as [_ Hl]. by apply (H2 t' c).
    + by apply (H2 t' c).
  - by destruct h.
  - intros t' Ht'. destruct (H4 t' Ht') as [Hn Hlt].
    destruct h; unfold_state; [|done]. split; [|done].
    apply lookup_delete_None. by right.
Qed.

Lemma gone_setInterval (s : State) (a : ref) (t : option handle) (c : Timer) :
  gone s a t -> callback_navigation c <> a ->
  gone (setInterval c s).2 a t.
Proof.
  intros [H1 H2 H3 H4] Hc. constructor; unfold_state; try done.
  - intros t' c' Hl. apply lookup_insert_Some in Hl as [[_ <-]|[_ Hl]]; [done|].
    by apply (H2 t' c').
  - intros t' Ht'. destruct (H4 t' Ht') as [Hn Hlt]. split; [|lia].
    rewrite lookup_insert_ne; [done | lia].
Qed.

(** A new session is a new object with a new interval. *)
Lemma gone_install (s : State) (a : ref) (t : option handle) (u r : string)
    (n : Navigation) :
  gone s a t ->
  gone (with_navigations (<[u := nextRef s]>)
          (with_heap (<[nextRef s := set_interval (Some (nextHandle s)) n]>)
             (snd (setInterval (StartCallback (nextRef s) u r)
                     (snd (alloc n s)))))) a t.
Proof.
  intros [H1 H2 H3 H4]. constructor; unfold_state.
  - intros u' Hl. apply lookup_insert_Some in Hl as [[_ Hl]|[_ Hl]]; [lia|].
    by apply (H1 u').
  - intros t' c' Hl. apply lookup_insert_Some in Hl as [[_ <-]|[_ Hl]].
    + simpl. lia.
    + by apply (H2 t' c').
  - lia.
  - intros t' Ht'. destruct (H4 t' Ht') as [Hn Hlt]. split; [|lia].
    rewrite lookup_insert_ne; [done | lia].
Qed.

Lemma gone_startNavigation (s : State) (a : ref) (t : option handle)
    (u r : string) (now : Z) (db : Outcomes) :
  gone s a t -> gone (startNavigation u r now db s).1.1 a t.
Proof.
  intros Hg. unfold startNavigation.
  destruct (decide _); [done|]. destruct (db 0%nat); [|done].
  destruct (routes s !! r) as [route|]; [|done].
  destruct (decide _); [|done]. destruct (db 1%nat); [|done].
  assert (Hg' : gone (updateRoute r alive true s) a t)
    by (eapply gone_same; [..|exact Hg]; done).
  destruct (processRouteForMovement _) as [pts|]; [|done].
  by apply (gone_install (updateRoute r alive true s)).
Qed.

Lemma gone_advance (s : State) (a : ref) (t : option handle)
    (f : gmap ref Navigation -> gmap ref Navigation) :
  gone s a t -> gone (with_heap f s) a t.
Proof. intros Hg. eapply gone_same; [..|exact Hg]; done. Qed.

Lemma gone_startTick (s : State) (a : ref) (t : option handle) (a' : ref)
    (n : Navigation) (u r : string) (now : Z) (db : Outcomes) :
  gone s a t -> gone (startTick a' n u r now db s).1 a t.
Proof.
  intros Hg. pose proof (gone_remove s a t u (interval n) Hg) as Hrem.
  unfold startTick. destruct (_ <=? _)%nat.
  - destruct (db 0%nat); simpl; [|done].
    eapply gone_same; [..|exact Hrem]; done.
  - destruct (db 0%nat); [destruct (fleet _ !! u); [|destruct (db 1%nat)]|];
      simpl; (eapply gone_same; [..|exact Hg]; done).
Qed.

Lemma gone_resumeTick (s : State) (a : ref) (t : option handle) (a' : ref)
    (n : Navigation) (u : string) (now : Z) (db : Outcomes) :
  gone s a t -> gone (resumeTick a' n u now db s).1 a t.
Proof.
  intros Hg. pose proof (gone_remove s a t u (interval n) Hg) as Hrem.
  unfold resumeTick. destruct (_ <=? _)%nat.
  - destruct (db 0%nat); simpl; [|done].
    eapply gone_same; [..|exact Hrem]; done.
  - simpl. eapply gone_same; [..|exact Hg]; done.
Qed.

Lemma gone_tickBegin (s s' : State) (a : ref) (t : option handle) (k : nat)
    (t0 : handle) (now : Z) (eff : list Effect) :
  gone s a t -> tickBegin k t0 now s = Some (s', eff) -> gone s' a t.
Proof.
  intros Hg Hstep. unfold tickBegin in Hstep.
  destruct (timers s !! t0) as [c|] eqn:Ht; [|done]. simpl in Hstep.
  destruct (heap s !! callback_navigation c) as [n|] eqn:Ha; [|done].
  simpl in Hstep.
  destruct (_ <=? _)%nat.
  - simplify_eq.
    pose proof (gone_remove s a t (callback_userId c) (interval n) Hg) as Hrem.
    eapply gone_same; [..|exact Hrem]; done.
  - destruct c as [a' u r|a' u]; simplify_eq/=;
      (eapply gone_same; [..|exact Hg]; done).
Qed.

Lemma gone_settle (s s' : State) (a : ref) (t : option handle) (k : nat)
    (now : Z) (o : StoreOutcome) (out : Output) :
  gone s a t -> settle k now o s = Some (s', out) -> gone s' a t.
Proof.
  intros Hg Hstep. unfold settle in Hstep.
  destruct (pending s !! k) as [c|] eqn:Hk; [|done].
  unfold resume in Hstep. simpl in Hstep.
  assert (Hg1 : gone (with_pending (delete k) s) a t)
    by (eapply gone_same; [..|exact Hg]; done).
  assert (Hpub : forall a' u r p s1 s2 out',
            gone s1 a t ->
            publishAndAdvance a' u r p now s1 = Some (s2, out') ->
            gone s2 a t).
  { intros a' u r p s1 s2 out' Hs1 Hp. unfold publishAndAdvance in Hp.
    destruct (heap s1 !! a'); simplify_eq/=.
    eapply gone_same; [..|exact Hs1]; done. }
  destruct c as [u r|u r route|a' u r p|a' u r p|c r|a' u r].
  - destruct o; [|by simplify_eq].
    destruct (routes _ !! r) as [route|]; [|by simplify_eq].
    destruct (decide _); simplify_eq; [|done].
    eapply gone_same; [..|exact Hg]; done.
  - destruct o; [|by simplify_eq].
    destruct (processRouteForMovement _) as [pts|]; simplify_eq.
    + apply (gone_install (updateRoute r alive true (with_pending (delete k) s))).
      eapply gone_same; [..|exact Hg]; done.
    + eapply gone_same; [..|exact Hg]; done.
  - destruct o.
    + destruct (fleet _ !! u).
      * eapply Hpub; [|exact Hstep]. eapply gone_same; [..|exact Hg]; done.
      * simplify_eq. eapply gone_same; [..|exact Hg]; done.
    + by eapply Hpub.
  - by eapply Hpub.
  - destruct o; [|by simplify_eq].
    destruct (heap _ !! callback_navigation c); simplify_eq/=.
    eapply gone_same; [..|exact Hg]; done.
  - destruct o; [|by simplify_eq].
    destruct (heap _ !! a'); simplify_eq/=.
    eapply gone_same; [..|exact Hg]; done.
Qed.

Lemma gone_step (s s' : State) (e : Event) (out : Output) (a : ref)
    (t : option handle) :
  gone s a t -> step s e = Some (s', out) -> gone s' a t.
Proof.
  intros Hg Hstep.
  destruct e as [u r now db | u now db | u | u | t0 now db
                | sid | sid u | sid | rs fl
                | k u r | k u | k t0 now | k now o]; simpl in Hstep.
  - pose proof (gone_startNavigation s a t u r now db Hg) as H.
    destruct (startNavigation _ _ _ _ _) as [[s1 r1] e1]. by simplify_eq.
  - unfold stopNavigation in Hstep.
    destruct (activeNavigations s !! u) as [a'|] eqn:Hu; [|by simplify_eq/=].
    destruct (heap s !! a') as [n|] eqn:Ha; [|done]. simpl in Hstep.
    pose proof (gone_remove s a t u (interval n) Hg) as Hrem.
    destruct (db 0%nat); simplify_eq/=; [|done].
    eapply gone_same; [..|exact Hrem]; done.
  - unfold pauseNavigation in Hstep.
    destruct (activeNavigations s !! u) as [a'|] eqn:Hu; [|by simplify_eq/=].
    destruct (heap s !! a') as [n|] eqn:Ha; [|done]. simpl in Hstep.
    simplify_eq. destruct (interval n) as [t'|] eqn:Hi; [|done].
    apply gone_advance.
    destruct Hg as [H1 H2 H3 H4]. constructor; unfold_state; try done.
    + intros t1 c Hl. apply lookup_delete_Some in Hl as [_ Hl].
      by apply (H2 t1 c).
    + intros t1 Ht1. destruct (H4 t1 Ht1) as [Hn Hlt]. split; [|done].
      apply lookup_delete_None. by right.
  - unfold resumeNavigation in Hstep.
    destruct (activeNavigations s !! u) as [a'|] eqn:Hu; [|by simplify_eq/=].
    destruct (heap s !! a') as [n|] eqn:Ha; [|done]. simpl in Hstep.
    simplify_eq. destruct (status n) eqn:Hs; [done|].
    apply gone_advance. apply gone_setInterval; [done|]. simpl.
    intros ->. by apply (gone_table s a t Hg u).
  - unfold tick in Hstep.
    destruct (timers s !! t0) as [c|] eqn:Ht; [|done]. simpl in Hstep.
    destruct (heap s !! callback_navigation c) as [n|] eqn:Ha; [|done].
    simpl in Hstep.
    destruct c as [a' u r|a' u]; simpl in *; simplify_eq.
    + pose proof (gone_startTick s a t a' n u r now db Hg) as H.
      destruct (startTick _ _ _ _ _ _ _). by simplify_eq/=.
    + pose proof (gone_resumeTick s a t a' n u now db Hg) as H.
      destruct (resumeTick _ _ _ _ _ _). by simplify_eq/=.
  - unfold connection in Hstep.
    destruct (sockets s !! sid); simplify_eq/=.
    eapply gone_same; [..|exact Hg]; done.
  - unfold joinUser in Hstep.
    destruct (sockets s !! sid); simplify_eq/=.
    eapply gone_same; [..|exact Hg]; done.
  - unfold disconnect in Hstep.
    destruct (sockets s !! sid) as [uo|]; [|done]. simpl in Hstep.
    assert (Hg0 : gone (with_sockets (delete sid) s) a t)
      by (eapply gone_same; [..|exact Hg]; done).
    destruct uo as [uid|]; [|by simplify_eq/=].
    destruct (truthy uid); [|by simplify_eq/=].
    destruct (activeNavigations s !! uid) as [a'|] eqn:Hu;
      [|by simplify_eq/=].
    destruct (heap s !! a') as [n|] eqn:Ha; [|done]. simpl in Hstep.
    simplify_eq.
    pose proof (gone_remove _ a t uid (interval n) Hg0) as Hrem.
    by destruct (interval n).
  - simplify_eq. eapply gone_same; [..|exact Hg]; done.
  - destruct (decide _) as [|_]; [done|]. unfold startRequest in Hstep.
    destruct (decide _); simplify_eq; [done|].
    eapply gone_same; [..|exact Hg]; done.
  - destruct (decide _) as [|_]; [done|]. unfold stopRequest in Hstep.
    destruct (activeNavigations s !! u) as [a'|] eqn:Hu;
      [|by simplify_eq/=].
    destruct (heap s !! a') as [n|] eqn:Ha; [|done]. simplify_eq/=.
    pose proof (gone_remove s a t u (interval n) Hg) as Hrem.
    eapply gone_same; [..|exact Hrem]; done.
  - destruct (decide _) as [|_]; [done|].
    destruct (tickBegin k t0 now s) as [[s1 eff]|] eqn:Hb; [|done].
    simplify_eq/=. by eapply gone_tickBegin.
  - by eapply gone_settle.
Qed.

(** A session that is gone stays gone, whatever happens next. *)
Lemma gone_run (events : list Event) :
  forall (s s' : State) (eff : list Effect) (a : ref) (t : option handle),
  gone s a t -> run s events = Some (s', eff) -> gone s' a t.
Proof.
  induction events as [|e events IH]; intros s s' eff a t Hg Hrun.
  - simpl in Hrun. by simplify_eq.
  - simpl in Hrun.
    destruct (step s e) as [[s1 out]|] eqn:Hstep; [|done]. simpl in Hrun.
    destruct (run s1 events) as [[s2 eff2]|] eqn:Hrest; [|done].
    simpl in Hrun. simplify_eq.
    eapply IH; [|done]. by eapply gone_step.
Qed.

(** An interval that is not live does not fire. *)
Lemma gone_no_tick (s : State) (a : ref) (t : handle) (now : Z)
    (db : Outcomes) :
  gone s a (Some t) -> step s (Tick t now db) = None.
Proof.
  intros Hg. destruct (gone_handle s a (Some t) Hg t eq_refl) as [Hn _].
  simpl. unfold tick. by rewrite Hn.
Qed.

Lemma gone_no_tickBegin (s : State) (a : ref) (t : handle) (k : nat)
    (now : Z) :
  gone s a (Some t) -> step s (TickBegin k t now) = None.
Proof.
  intros Hg. destruct (gone_handle s a (Some t) Hg t eq_refl) as [Hn _].
  simpl. destruct (decide _); [done|]. unfold tickBegin. by rewrite Hn.
Qed.

(** In a well-formed state, removing an object of the vehicle whose
    interval, if it records one, is live and its own, makes it gone. *)
Lemma remove_gone (s : State) (u : string) (a : ref) (n : Navigation) :
  wf s -> heap s !! a = Some n -> userId n = u ->
  (forall t, interval n = Some t ->
     exists c, timers s !! t = Some c /\ callback_navigation c = a) ->
  gone (with_navigations (delete u) (clearInterval (interval n) s))
    a (interval n).
Proof.
  intros Hwf Ha Hown Hlive. constructor.
  - intros u' Hl.
    assert (Hl' : activeNavigations s !! u' = Some a /\ u' <> u).
    { destruct (interval n); unfold_state;
        apply lookup_delete_Some in Hl as [? ?]; done. }
    destruct Hl' as [Hl' Hne]. apply Hne.
    destruct (wf_table s Hwf u' a Hl') as (m & Hm & Hmu). congruence.
  - intros t' c Hl Hnav.
    assert (Hl' : timers s !! t' = Some c /\ interval n <> Some t').
    { destruct (interval n) as [t|]; unfold_state; [|done].
      apply lookup_delete_Some in Hl as [? ?]. split; [done | congruence]. }
    destruct Hl' as [Hl' Hne]. apply Hne.
    rewrite <- Hnav in Ha. by eapply callback_interval.
  - assert (a < nextRef s)%nat by (apply (wf_fresh_ref s Hwf); by exists n).
    by destruct (interval n).
  - intros t' Ht'. rewrite Ht'.
    destruct (Hlive t' Ht') as (c & Hc & _).
    pose proof (wf_fresh_handle s Hwf t' (ex_intro _ c Hc)).
    unfold_state. split; [|done]. apply lookup_delete_eq.
Qed.

Lemma remove_gone_table (s : State) (u : string) (a : ref) (n : Navigation) :
  wf s -> activeNavigations s !! u = Some a -> heap s !! a = Some n ->
  gone (with_navigations (delete u) (clearInterval (interval n) s))
    a (interval n).
Proof.
  intros Hwf Hu Ha.
  destruct (wf_table s Hwf u a Hu) as (n' & Hn' & Hown).
  apply (remove_gone s u a n); [done | done | congruence |].
  intros t Ht. by apply (interval_live s u a n).
Qed.

Lemma remove_gone_callback (s : State) (t : handle) (c : Timer)
    (n : Navigation) :
  wf s ->
  timers s !! t = Some c -> heap s !! callback_navigation c = Some n ->
  gone (with_navigations (delete (callback_userId c))
          (clearInterval (interval n) s))
    (callback_navigation c) (interval n).
Proof.
  intros Hwf Ht Hn.
  apply (remove_gone s _ (callback_navigation c) n); [done | done | |].
  - by eapply callback_owner.
  - intros t' Ht'. rewrite (callback_interval s t c n Hwf Ht Hn) in Ht'.
    injection Ht' as <-. by exists c.
Qed.

End Gone.

Section Completion.
Import Js RouteLogic Server.
Local Open Scope string_scope.
Local Open Scope list_scope.

(** C4 (amended).  When a live interval fires on a session whose index has
    reached the number of movement points, and the store accepts the route
    update, the firing clears the interval, removes the session from the
    table, marks the route dead and inactive, and publishes
    [navigation-completed] on the vehicle channel and [route-completed] on
    the fleet channel, once each and nothing else.  From then on, whatever
    events follow and however they interleave, the session is gone: it
    never re-enters the table, no interval ticks it, and its interval never
    fires again. *)
Theorem completion_once (s : State) (t : handle) (c : Timer)
    (n : Navigation) (now : Z) (db : Outcomes) :
  reachable s ->
  timers s !! t = Some c ->
  heap s !! callback_navigation c = Some n ->
  (length (movementPoints n) <= currentIndex n)%nat ->
  db 0%nat = Resolves ->
  let u := callback_userId c in
  let r := callback_routeId c n in
  exists s',
    step s (Tick t now db)
    = Some (s',
            mkOutput None
              [ RouteUpdate r dead false;
                Emit u "navigation-completed"
                  (NavigationCompleted r (routeName n)
                     ("Navigation completed for " +:+ routeName n +:+ "!"));
                Emit "fleet-manager" "route-completed"
                  (RouteCompleted u r (routeName n) now) ])
    /\ timers s' !! t = None
    /\ activeNavigations s' !! u = None
    /\ (forall route, routes s !! r = Some route ->
          exists route', routes s' !! r = Some route'
                         /\ route_status route' = dead
                         /\ route_isActive route' = false)
    /\ (forall events s'' eff,
          run s' events = Some (s'', eff) ->
          gone s'' (callback_navigation c) (Some t)
          /\ (forall now' db', step s'' (Tick t now' db') = None)
          /\ (forall k now', step s'' (TickBegin k t now') = None)).
Proof.
  intros Hr Ht Hn Hle Hdb u r. pose proof (reachable_wf s Hr) as Hwf.
  pose proof (callback_interval s t c n Hwf Ht Hn) as Hint.
  pose proof (remove_gone_callback s t c n Hwf Ht Hn) as Hg.
  fold u in Hg. rewrite Hint in Hg.
  set (s1 := with_navigations (delete u) (clearInterval (Some t) s)) in *.
  exists (updateRoute r dead false s1).
  assert (Hg' : gone (updateRoute r dead false s1) (callback_navigation c)
                  (Some t))
    by (eapply gone_same; [..|exact Hg]; done).
  split; [|split; [|split; [|split]]].
  - simpl. unfold tick. rewrite Ht. simpl. rewrite Hn. simpl.
    destruct c as [a u0 r0|a u0]; simpl in *.
    + unfold startTick.
      destruct (Nat.leb_spec (length (movementPoints n)) (currentIndex n));
        [|lia].
      by rewrite Hdb, Hint.
    + unfold resumeTick.
      destruct (Nat.leb_spec (length (movementPoints n)) (currentIndex n));
        [|lia].
      by rewrite Hdb, Hint.
  - simpl. apply lookup_delete_eq.
  - simpl. apply lookup_delete_eq.
  - intros route Hroute. simpl. rewrite lookup_alter_eq, Hroute. simpl.
    by eexists.
  - intros events s'' eff Hrun.
    pose proof (gone_run events _ _ _ _ _ Hg' Hrun) as Hg''.
    split; [done|]. split.
    + intros now' db'. by eapply gone_no_tick.
    + intros k now'. by eapply gone_no_tickBegin.
Qed.

End Completion.

Section PauseResume.
Import Js RouteLogic Server.
Local Open Scope string_scope.
Local Open Scope list_scope.



End PauseResume.

Section DisconnectClaim.
Import Js RouteLogic Server.
Local Open Scope string_scope.
Local Open Scope list_scope.

(** C10 (amended).  When a socket whose [userId] is set (to a non-empty
    identifier) disconnects while that vehicle has a session in the table,
    the handler clears the interval of the session and removes the session
    from the table; it publishes nothing and issues no store call, and the
    routes and the fleet positions in the store are what they were, so a
    route that was alive is still alive after the disconnect.  The session
    is gone for good: whatever events follow, it never re-enters the table
    and no interval ticks it, so its completion branch, which would mark
    the route dead, never begins. *)
Theorem disconnect_drops_session (s : State) (sid u : string) (a : ref)
    (n : Navigation) :
  reachable s ->
  sockets s !! sid = Some (Some u) -> u <> "" ->
  activeNavigations s !! u = Some a -> heap s !! a = Some n ->
  exists s',
    step s (Disconnect sid) = Some (s', mkOutput None [])
    /\ activeNavigations s' !! u = None
    /\ (forall t, interval n = Some t -> timers s' !! t = None)
    /\ routes s' = routes s
    /\ fleet s' = fleet s
    /\ (forall route, routes s !! routeId n = Some route ->
          route_status route = alive ->
          exists route', routes s' !! routeId n = Some route'
                         /\ route_status route' = alive)
    /\ (forall events s'' eff,
          run s' events = Some (s'', eff) -> gone s'' a (interval n)).
Proof.
  intros Hr Hsock Hne Hu Ha. pose proof (reachable_wf s Hr) as Hwf.
  set (s0 := with_sockets (delete sid) s).
  assert (Hwf0 : wf s0) by (eapply wf_same; [..|exact Hwf]; done).
  pose proof (remove_gone_table s0 u a n Hwf0 Hu Ha) as Hg.
  exists (with_navigations (delete u) (clearInterval (interval n) s0)).
  split; [|split; [|split; [|split; [|split; [|split]]]]].
  - simpl. unfold disconnect. rewrite Hsock. simpl.
    unfold truthy. rewrite bool_decide_eq_true_2 by done.
    fold s0. change (activeNavigations s0) with (activeNavigations s).
    rewrite Hu. change (heap s0) with (heap s). rewrite Ha. simpl.
    by destruct (interval n).
  - destruct (interval n); simpl; apply lookup_delete_eq.
  - intros t ->. simpl. apply lookup_delete_eq.
  - by destruct (interval n).
  - by destruct (interval n).
  - intros route Hroute Halive. exists route. split; [|done].
    by destruct (interval n).
  - intros events s'' eff Hrun. by eapply gone_run.
Qed.

End DisconnectClaim.

Section ResumeTickClaim.
Import Js RouteLogic Server.
Local Open Scope string_scope.
Local Open Scope list_scope.

(** C3 (the code departs from the claim).  On the same session, with a store
    that accepts every call, the callback installed by [/startNavigation]
    asks the store to set the position of the vehicle and the stored
    position becomes the movement point, while the callback installed by
    [/resumeNavigation] issues no store call at all and the stored position
    stays what it was; the two publish the same events and advance the
    session in the same way. *)
Theorem resume_tick_skips_fleet_update :
  (forall a n u now db s x p,
      ~ In (FleetUpdate x p) (resumeTick a n u now db s).2
      /\ fleet (resumeTick a n u now db s).1 = fleet s)
  /\ exists n sA sB events,
       heap scenario2 !! 0%nat = Some n
       /\ heap scenario2_resumed !! 0%nat
          = Some (set_interval (Some 1%nat) n)
       /\ step scenario2 (Tick 0 2000 resolves)
          = Some (sA, mkOutput None
                        (FleetUpdate "A" (Some (Fin 0, Fin 0)) :: events))
       /\ step scenario2_resumed (Tick 1 2000 resolves)
          = Some (sB, mkOutput None events)
       /\ fleet sA !! "A" = Some (Some (Fin 0, Fin 0))
       /\ fleet sB !! "A" = Some (Some (Fin 7, Fin 7))
       /\ heap sA !! 0%nat = Some (advance n)
       /\ heap sB !! 0%nat = Some (advance (set_interval (Some 1%nat) n)).
Proof.
  split.
  - intros a n u now db s x p. unfold resumeTick.
    destruct (_ <=? _)%nat; [destruct (db 0%nat)|]; simpl;
      (split; [|by destruct (interval n)]);
      unfold not; intuition discriminate.
  - do 4 eexists.
    split; [vm_compute; reflexivity|].
    split; [vm_compute; reflexivity|].
    split; [vm_compute; reflexivity|].
    split; [vm_compute; reflexivity|].
    repeat split; vm_compute; reflexivity.
Qed.

End ResumeTickClaim.

Section ServerWitnesses.
Import Js RouteLogic Server.
Local Open Scope string_scope.
Local Open Scope list_scope.

Lemma scenario2_reachable : reachable scenario2.
Proof. apply reachable_after, reachable_initial. Qed.

Lemma scenario2_session :
  heap scenario2 !! 0%nat = Some scenario2_navigation
  /\ timers scenario2 !! 0%nat = Some (StartCallback 0 "A" "R")
  /\ activeNavigations scenario2 !! "A" = Some 0%nat.
Proof. repeat split; vm_compute; reflexivity. Qed.



Lemma completion_once_witness :
  exists s',
    step scenario4 (Tick 0 5000 resolves)
    = Some (s',
            mkOutput None
              [ RouteUpdate "R" dead false;
                Emit "A" "navigation-completed"
                  (NavigationCompleted "R" "depot run"
                     "Navigation completed for depot run!");
                Emit "fleet-manager" "route-completed"
                  (RouteCompleted "A" "R" "depot run" 5000) ])
    /\ timers s' !! 0%nat = None
    /\ activeNavigations s' !! "A" = None.
Proof.
  assert (Hr : reachable scenario4)
    by apply reachable_after, scenario2_reachable.
  assert (Hn : heap scenario4 !! 0%nat = Some scenario4_navigation)
    by (vm_compute; reflexivity).
  assert (Ht : timers scenario4 !! 0%nat = Some (StartCallback 0 "A" "R"))
    by (vm_compute; reflexivity).
  assert (Hle : (length (movementPoints scenario4_navigation)
                 <= currentIndex scenario4_navigation)%nat)
    by (simpl; lia).
  destruct (completion_once scenario4 0%nat (StartCallback 0 "A" "R")
              scenario4_navigation 5000 resolves Hr Ht Hn Hle eq_refl)
    as (s' & Hstep & Htim & Htab & _).
  exists s'. exact (conj Hstep (conj Htim Htab)).
Defined.

(** The completing firing of [scenario4] when the store rejects the route
    update: the session is removed, nothing is published, and the route is
    still alive and active. *)
Lemma completion_rejected_publishes_nothing :
  exists n s',
    heap scenario4 !! 0%nat = Some n
    /\ currentIndex n = length (movementPoints n)
    /\ step scenario4 (Tick 0 5000 rejects)
       = Some (s', mkOutput None [RouteUpdate "R" dead false])
    /\ timers s' !! 0%nat = None
    /\ activeNavigations s' !! "A" = None
    /\ routes s' !! "R" = Some (mkRoute "A" "depot run" shortRoute alive true).
Proof.
  do 2 eexists.
  split; [vm_compute; reflexivity|].
  split; [reflexivity|].
  split; [vm_compute; reflexivity|].
  repeat split; vm_compute; reflexivity.
Qed.


Lemma disconnect_drops_session_witness :
  exists s',
    step scenario10 (Disconnect "sock") = Some (s', mkOutput None [])
    /\ activeNavigations s' !! "A" = None
    /\ timers s' !! 0%nat = None
    /\ exists route, routes s' !! "R" = Some route
                     /\ route_status route = alive.
Proof.
  assert (Hr : reachable scenario10)
    by apply reachable_after, reachable_initial.
  assert (Hn : heap scenario10 !! 0%nat = Some scenario2_navigation)
    by (vm_compute; reflexivity).
  assert (Hsock : sockets scenario10 !! "sock" = Some (Some "A"))
    by (vm_compute; reflexivity).
  assert (Hu : activeNavigations scenario10 !! "A" = Some 0%nat)
    by (vm_compute; reflexivity).
  assert (Hne : "A" <> "") by discriminate.
  assert (Hroute : routes scenario10 !! "R"
                   = Some (mkRoute "A" "depot run" shortRoute alive true))
    by (vm_compute; reflexivity).
  destruct (disconnect_drops_session scenario10 "sock" "A" 0%nat
              scenario2_navigation Hr Hsock Hne Hu Hn)
    as (s' & Hstep & Htab & Htim & Hroutes & _).
  exists s'. split; [exact Hstep|]. split; [exact Htab|].
  split; [exact (Htim 0%nat eq_refl)|].
  exists (mkRoute "A" "depot run" shortRoute alive true).
  split; [|reflexivity]. rewrite Hroutes. exact Hroute.
Defined.

(** After the disconnect of [scenario10] the route is alive, but not for
    good: the vehicle can start the route again and stop it, and the route
    is then dead. *)
Lemma disconnect_route_restarted_and_stopped :
  step scenario10 (Disconnect "sock")
  = Some (scenario10_disconnected, mkOutput None [])
  /\ activeNavigations scenario10_disconnected !! "A" = None
  /\ routes scenario10_disconnected !! "R"
     = Some (mkRoute "A" "depot run" shortRoute alive true)
  /\ run scenario10_disconnected
       [ StartNavigation "A" "R" 2000 resolves;
         StopNavigation "A" 3000 resolves ]
     = Some (scenario10_restarted,
             [ RouteUpdate "R" alive true;
               RouteUpdate "R" dead false;
               Emit "A" "navigation-stopped"
                 (NavigationStopped "R" "depot run");
               Emit "fleet-manager" "route-stopped"
                 (RouteStopped "A" "R" "depot run" 3000) ])
  /\ routes scenario10_restarted !! "R"
     = Some (mkRoute "A" "depot run" shortRoute dead false).
Proof.
  split; [vm_compute; reflexivity|].
  split; [vm_compute; reflexivity|].
  split; [vm_compute; reflexivity|].
  split; vm_compute; reflexivity.
Qed.

End ServerWitnesses.

(** ** The station locator *)

Section LocatorFacts.
Import Js RouteChargingLogic.
Local Open Scope R_scope.

Lemma round_IZR (x : R) (z : Z) :
  IZR z <= x + / 2 < IZR z + 1 -> round x = IZR z.
Proof. intros H. unfold round. f_equal. by apply Zfloor_eq. Qed.

Lemma round1_0 : round1 0 = 0.
Proof.
  unfold round1. rewrite (round_IZR (0 * 10) 0); [lra|]. simpl. lra.
Qed.

Lemma atan2_nonneg (y x : R) : 0 <= y -> 0 <= x -> 0 <= atan2 y x.
Proof.
  intros Hy Hx. unfold atan2.
  destruct (Rlt_dec 0 x) as [Hpos|Hnpos].
  - destruct (Req_dec y 0) as [->|Hne].
    + unfold Rdiv. rewrite Rmult_0_l, atan_0. lra.
    + apply Rlt_le. rewrite <- atan_0. apply atan_increasing.
      apply Rdiv_lt_0_compat; lra.
  - destruct (Rlt_dec x 0); [lra|].
    destruct (Rlt_dec 0 y); [pose proof PI2_RGT_0; lra|].
    destruct (Rlt_dec y 0); lra.
Qed.

Lemma atan2_pos (y x : R) : 0 < y -> 0 < x -> 0 < atan2 y x.
Proof.
  intros Hy Hx. unfold atan2. destruct (Rlt_dec 0 x); [|lra].
  rewrite <- atan_0. apply atan_increasing. apply Rdiv_lt_0_compat; lra.
Qed.

(** The great-circle distance is never negative. *)
Lemma calculateDistance_nonneg (c1 c2 : coord) : 0 <= calculateDistance c1 c2.
Proof.
  unfold calculateDistance. cbv zeta.
  apply Rmult_le_pos; [lra|]. apply Rmult_le_pos; [lra|].
  apply atan2_nonneg; apply sqrt_pos.
Qed.

(** A point is at distance zero from itself. *)
Lemma calculateDistance_self (c : coord) : calculateDistance c c = 0.
Proof.
  unfold calculateDistance. cbv zeta.
  replace ((c.2 - c.2) * PI / 180 / 2) with 0 by lra.
  replace ((c.1 - c.1) * PI / 180 / 2) with 0 by lra.
  rewrite sin_0.
  replace (0 * 0 + cos (c.2 * PI / 180) * cos (c.2 * PI / 180) * 0 * 0)
    with 0 by lra.
  rewrite Rminus_0_r, sqrt_0, sqrt_1.
  unfold atan2. destruct (Rlt_dec 0 1); [|lra].
  unfold Rdiv. rewrite Rmult_0_l, atan_0. lra.
Qed.

(** Two points of the equator less than 180 degrees of longitude apart
    are at a positive distance. *)
Lemma calculateDistance_equator_pos (lng1 lng2 : R) :
  lng1 <> lng2 -> -180 < lng2 - lng1 < 180 ->
  0 < calculateDistance (lng1, 0) (lng2, 0).
Proof.
  intros Hne Hrange. unfold calculateDistance. cbv zeta. simpl.
  set (x := (lng2 - lng1) * PI / 180 / 2).
  replace ((0 - 0) * PI / 180 / 2) with 0 by lra.
  replace (0 * PI / 180) with 0 by lra.
  rewrite sin_0, cos_0.
  replace (0 * 0 + 1 * 1 * sin x * sin x) with (Rsqr (sin x))
    by (unfold Rsqr; lra).
  pose proof PI_RGT_0 as Hpi.
  assert (Hx : - (PI / 2) < x < PI / 2).
  { unfold x. split.
    - apply Rmult_lt_reg_r with (180 * 2); [lra|].
      replace ((lng2 - lng1) * PI / 180 / 2 * (180 * 2))
        with ((lng2 - lng1) * PI) by field.
      replace (- (PI / 2) * (180 * 2)) with (-180 * PI) by field.
      apply Rmult_lt_compat_r; lra.
    - apply Rmult_lt_reg_r with (180 * 2); [lra|].
      replace ((lng2 - lng1) * PI / 180 / 2 * (180 * 2))
        with ((lng2 - lng1) * PI) by field.
      replace (PI / 2 * (180 * 2)) with (180 * PI) by field.
      apply Rmult_lt_compat_r; lra. }
  assert (Hx0 : x <> 0).
  { unfold x. intros H0.
    assert ((lng2 - lng1) * PI = 0) by lra.
    apply Rmult_integral in H as [H|H]; lra. }
  assert (Hsin : sin x <> 0).
  { destruct (Rlt_dec x 0).
    - apply Rlt_not_eq. apply sin_lt_0_var; lra.
    - apply Rgt_not_eq. apply sin_gt_0; lra. }
  assert (Hcos : 0 < cos x) by (apply cos_gt_0; lra).
  assert (Ha : 0 < Rsqr (sin x)) by by apply Rlt_0_sqr.
  assert (Hb : 0 < 1 - Rsqr (sin x)).
  { rewrite <- cos2. apply Rlt_0_sqr. lra. }
  apply Rmult_lt_0_compat; [lra|]. apply Rmult_lt_0_compat; [lra|].
  apply atan2_pos; by apply sqrt_lt_R0.
Qed.

Lemma nearestScan_spec (stationCoords : coord) (rest : list coord) :
  forall (seen : list coord) (minDistance : xreal) (nearestIndex : nat)
         (nearestPoint : option coord),
  nearest_so_far stationCoords seen minDistance nearestIndex nearestPoint ->
  let '(m, k, p) :=
    nearestScan stationCoords rest (length seen)
      minDistance nearestIndex nearestPoint in
  nearest_so_far stationCoords (seen ++ rest) m k p.
Proof.
  induction rest as [|c rest IH]; intros seen m k p Hacc.
  - simpl. by rewrite app_nil_r.
  - simpl.
    assert (Hnext : forall m' k' p',
              nearest_so_far stationCoords (seen ++ [c]) m' k' p' ->
              let '(m2, k2, p2) :=
                nearestScan stationCoords rest (S (length seen)) m' k' p' in
              nearest_so_far stationCoords (seen ++ c :: rest) m2 k2 p2).
    { intros m' k' p' H'. specialize (IH (seen ++ [c]) m' k' p' H').
      rewrite length_app, Nat.add_1_r in IH.
      by rewrite <- app_assoc in IH. }
    destruct m as [d| |]; simpl; [|simpl in Hacc; subst seen|done].
    + destruct Hacc as (c0 & Hc0 & Hp & Hd & Hmin & Hfirst).
      destruct (Rlt_dec (calculateDistance stationCoords c) d) as [Hlt|Hge].
      * apply Hnext. exists c. split; [by apply list_lookup_middle|].
        split; [done|]. split; [done|]. split.
        -- intros j c' Hj. apply lookup_app_Some in Hj as [Hj|[_ Hj]].
           ++ specialize (Hmin j c' Hj). lra.
           ++ apply list_lookup_singleton_Some in Hj as [_ <-]. lra.
        -- intros j c' Hlt' Hj. rewrite lookup_app_l in Hj by done.
           specialize (Hmin j c' Hj). lra.
      * apply Hnext. exists c0. split; [by apply lookup_app_l_Some|].
        split; [done|]. split; [done|]. split.
        -- intros j c' Hj. apply lookup_app_Some in Hj as [Hj|[_ Hj]].
           ++ by apply (Hmin j c').
           ++ apply list_lookup_singleton_Some in Hj as [_ <-]. lra.
        -- intros j c' Hlt' Hj.
           assert (k < length seen)%nat by by eapply lookup_lt_Some.
           rewrite lookup_app_l in Hj by lia. by apply (Hfirst j c').
    + apply (Hnext (XR (calculateDistance stationCoords c)) 0%nat (Some c)).
      exists c. split; [done|]. split; [done|]. split; [done|]. split.
      * intros j c' Hj. apply list_lookup_singleton_Some in Hj as [_ <-]. lra.
      * intros j c' Hlt'. lia.
Qed.

(** The projection of a station on a non-empty route: the index returned is
    the first one at the least great-circle distance from the station, the
    vertex returned is the one at that index, and the distance returned is
    that least distance rounded to one decimal. *)
Lemma findNearestPointOnRoute_spec (stationCoords : coord)
    (routeCoordinates : list coord) :
  routeCoordinates <> [] ->
  let position := findNearestPointOnRoute stationCoords routeCoordinates in
  exists c,
    routeCoordinates !! index position = Some c
    /\ coordinates position = Some c
    /\ distanceKm position = XR (round1 (calculateDistance stationCoords c))
    /\ (forall j c', routeCoordinates !! j = Some c' ->
          calculateDistance stationCoords c
          <= calculateDistance stationCoords c')
    /\ (forall j c', (j < index position)%nat ->
          routeCoordinates !! j = Some c' ->
          calculateDistance stationCoords c
          < calculateDistance stationCoords c').
Proof.
  intros Hne position. unfold position, findNearestPointOnRoute.
  pose proof (nearestScan_spec stationCoords routeCoordinates [] XPInf 0%nat
                (routeCoordinates !! 0%nat) eq_refl) as H.
  simpl in H.
  destruct (nearestScan _ _ _ _ _ _) as [[m k] p]. simpl.
  destruct m as [d| |]; simpl in H; [|done|done].
  destruct H as (c & Hc & Hp & Hd & Hmin & Hfirst).
  exists c. subst d. by repeat split.
Qed.

End LocatorFacts.

Section LocatorClaim.
Import Js RouteChargingLogic.
Local Open Scope R_scope.
Local Open Scope string_scope.

Lemma nearestScan_cons (sc c : coord) (rest : list coord) (i : nat)
    (m : xreal) (k : nat) (p : option coord) :
  nearestScan sc (c :: rest) i m k p
  = if lt_x (calculateDistance sc c) m
    then nearestScan sc rest (S i) (XR (calculateDistance sc c)) i (Some c)
    else nearestScan sc rest (S i) m k p.
Proof. reflexivity. Qed.

Lemma projection9 :
  findNearestPointOnRoute (location_coordinates station9) route9
  = {| index := 1; coordinates := Some (1 / 100, 0); distanceKm := XR 0 |}.
Proof.
  unfold findNearestPointOnRoute, route9, station9, location_coordinates.
  rewrite !nearestScan_cons.
  change (lt_x (calculateDistance (1 / 100, 0) (0, 0)) XPInf) with true.
  cbv iota.
  rewrite (calculateDistance_self (1 / 100, 0)).
  assert (Hpos : 0 < calculateDistance (1 / 100, 0) (0, 0)).
  { apply calculateDistance_equator_pos; lra. }
  unfold lt_x. destruct (Rlt_dec 0 _) as [_|Hn]; [|done].
  simpl. by rewrite round1_0.
Qed.

Lemma visitSample9_first :
  visitSample geoNear9 route9 5 [] (0, 0) = [("ocm_1", fallbackMatch9)].
Proof.
  unfold visitSample, geoNear9. simpl fst.
  destruct (Req_EM_T 0 0) as [_|Hn]; [|done].
  change (fold_left (addStation route9) [(station9, 1113)] [])
    with (addStation route9 [] (station9, 1113)).
  unfold addStation. change (has [] (stationId station9)) with false.
  cbv iota. rewrite projection9.
  rewrite (round_IZR (1113 / 1000 * 10) 11) by (simpl; lra).
  reflexivity.
Qed.

Lemma visitSample9_second (m : RouteStationMatch) :
  visitSample geoNear9 route9 5 [("ocm_1", m)] (1 / 100, 0)
  = [("ocm_1", m)].
Proof.
  unfold visitSample, geoNear9. simpl fst.
  destruct (Req_EM_T (1 / 100) 0) as [He|_]; [lra|].
  change (fold_left (addStation route9) [(station9, 0)] [("ocm_1", m)])
    with (addStation route9 [("ocm_1", m)] (station9, 0)).
  unfold addStation.
  assert (Hhas : has [("ocm_1", m)] (stationId station9) = true)
    by (vm_compute; reflexivity).
  by rewrite Hhas.
Qed.

(** C9 (the code departs from the claim on the fallback strategy).  With
    the station on the second vertex of the route, the least great-circle
    distance from the station to a route vertex is 0, attained at index 1,
    and the primary strategy reports index 1 and
    [distanceFromRouteKm = 0].  When the box query fails and the fallback
    runs, the match is built at the first sample point that finds the
    station; its [routePosition] is the same projection (index 1, distance
    0), but its [distanceFromRouteKm] is the distance from that sample
    point as reported by the store, rounded: 1.1 km. *)
Theorem fallback_distance_from_sample_point :
  findChargingStationsAlongRoute findInBox9 geoNear9 route9 5 4
  = [ Some {| station := station9;
              routePosition :=
                {| index := 1; coordinates := Some (1 / 100, 0);
                   distanceKm := XR 0 |};
              distanceFromRouteKm := XR (11 / 10) |} ]
  /\ findChargingStationsAlongRoute findInBox9' geoNear9 route9 5 4
     = [ Some {| station := station9;
                 routePosition :=
                   {| index := 1; coordinates := Some (1 / 100, 0);
                      distanceKm := XR 0 |};
                 distanceFromRouteKm := XR 0 |} ]
  /\ calculateDistance (location_coordinates station9) (1 / 100, 0) = 0
  /\ (forall j c, route9 !! j = Some c ->
        0 <= calculateDistance (location_coordinates station9) c)
  /\ round1 0 = 0
  /\ 11 / 10 <> 0.
Proof.
  split; [|split; [|split; [|split; [|split]]]].
  - unfold findChargingStationsAlongRoute.
    change (length route9 <? 2)%nat with false. cbv iota.
    change (findStationsWithinRouteBuffer findInBox9 route9 5 4)
      with (@nil (option RouteStationMatch)).
    change (0 <? length (@nil (option RouteStationMatch)))%nat with false.
    cbv iota. unfold findStationsNearRoutePoints.
    change (Nat.max 1 (length route9 / 10)) with 1%nat.
    change (sampleFrom 1 0 route9) with [(0, 0); (1 / 100, 0)].
    change (fold_left (visitSample geoNear9 route9 5)
              [(0, 0); (1 / 100, 0)] [])
      with (visitSample geoNear9 route9 5
              (visitSample geoNear9 route9 5 [] (0, 0)) (1 / 100, 0)).
    rewrite visitSample9_first, visitSample9_second.
    reflexivity.
  - unfold findChargingStationsAlongRoute.
    change (length route9 <? 2)%nat with false. cbv iota.
    assert (Hprimary :
      findStationsWithinRouteBuffer findInBox9' route9 5 4
      = [ Some {| station := station9;
                  routePosition :=
                    {| index := 1; coordinates := Some (1 / 100, 0);
                       distanceKm := XR 0 |};
                  distanceFromRouteKm := XR 0 |} ]).
    { unfold findStationsWithinRouteBuffer, findInBox9'.
      cbn [omap list_omap length Nat.eqb].
      rewrite projection9. cbn [distanceKm x_le].
      destruct (Rle_dec 0 5) as [_|Hn]; [|lra]. reflexivity. }
    rewrite Hprimary. reflexivity.
  - apply calculateDistance_self.
  - intros j c _. apply calculateDistance_nonneg.
  - apply round1_0.
  - lra.
Qed.

End LocatorClaim.

(** ** Further properties of the session handlers *)

Section Handlers.
Import Js RouteLogic Server.
Local Open Scope string_scope.
Local Open Scope list_scope.

(** X1.  Requests for a vehicle that has no session: stop, pause and resume all
    answer 404, change nothing, write nothing and publish nothing. *)
Theorem no_session_not_found (s : State) (u : string) (now : Z)
    (db : Outcomes) :
  activeNavigations s !! u = None ->
  let not_found := mkOutput (Some (error 404 "No active navigation found")) [] in
  step s (StopNavigation u now db) = Some (s, not_found)
  /\ step s (PauseNavigation u) = Some (s, not_found)
  /\ step s (ResumeNavigation u) = Some (s, not_found).
Proof.
  intros Hu. simpl.
  unfold stopNavigation, pauseNavigation, resumeNavigation.
  by rewrite Hu.
Qed.

Lemma no_session_not_found_witness :
  step (initial ∅ ∅) (PauseNavigation "A")
  = Some (initial ∅ ∅,
          mkOutput (Some (error 404 "No active navigation found")) []).
Proof.
  apply (no_session_not_found (initial ∅ ∅) "A" 0 resolves). reflexivity.
Defined.

(** X2.  Stopping a session.  When the store accepts the route update, the
    handler clears the interval, removes the session, marks the route dead
    and inactive, publishes [navigation-stopped] and [route-stopped] and
    answers 200; when the store rejects it, the handler answers 500 and
    publishes nothing, but the interval is cleared and the session removed
    all the same.  In both cases the session is gone for good. *)
Theorem stopNavigation_removes (s : State) (u : string) (a : ref)
    (n : Navigation) (now : Z) (db : Outcomes) :
  reachable s ->
  activeNavigations s !! u = Some a -> heap s !! a = Some n ->
  exists s',
    step s (StopNavigation u now db)
    = Some (s',
            match db 0%nat with
            | Resolves =>
                mkOutput
                  (Some (mkResponse 200
                           (SuccessBody
                              ("Navigation stopped for " +:+ routeName n)
                              (routeId n))))
                  [ RouteUpdate (routeId n) dead false;
                    Emit u "navigation-stopped"
                      (NavigationStopped (routeId n) (routeName n));
                    Emit "fleet-manager" "route-stopped"
                      (RouteStopped u (routeId n) (routeName n) now) ]
            | Rejects =>
                mkOutput (Some (error 500 "Failed to stop navigation"))
                  [RouteUpdate (routeId n) dead false]
            end)
    /\ activeNavigations s' !! u = None
    /\ (forall t, interval n = Some t -> timers s' !! t = None)
    /\ (forall route, routes s !! routeId n = Some route ->
          exists route', routes s' !! routeId n = Some route'
            /\ match db 0%nat with
               | Resolves => route_status route' = dead
                             /\ route_isActive route' = false
               | Rejects => route' = route
               end)
    /\ (forall events s'' eff,
          run s' events = Some (s'', eff) -> gone s'' a (interval n)).
Proof.
  intros Hr Hu Ha. pose proof (reachable_wf s Hr) as Hwf.
  pose proof (remove_gone_table s u a n Hwf Hu Ha) as Hg.
  set (s1 := with_navigations (delete u) (clearInterval (interval n) s)) in *.
  exists (match db 0%nat with
          | Resolves => updateRoute (routeId n) dead false s1
          | Rejects => s1
          end).
  split; [|split; [|split; [|split]]].
  - simpl. unfold stopNavigation. rewrite Hu. simpl. rewrite Ha. simpl.
    fold s1. by destruct (db 0%nat).
  - destruct (db 0%nat); simpl; apply lookup_delete_eq.
  - intros t Ht. subst s1. rewrite Ht.
    destruct (db 0%nat); simpl; apply lookup_delete_eq.
  - intros route Hroute. subst s1.
    destruct (db 0%nat); destruct (interval n); simpl.
    + rewrite lookup_alter_eq, Hroute. simpl. by eexists.
    + rewrite lookup_alter_eq, Hroute. simpl. by eexists.
    + by exists route.
    + by exists route.
  - intros events s'' eff Hrun. eapply gone_run; [|exact Hrun].
    destruct (db 0%nat); [|done].
    eapply gone_same; [..|exact Hg]; done.
Qed.

Lemma stopNavigation_removes_witness :
  exists s',
    step scenario2 (StopNavigation "A" 2000 resolves)
    = Some (s',
            mkOutput
              (Some (mkResponse 200
                       (SuccessBody "Navigation stopped for depot run" "R")))
              [ RouteUpdate "R" dead false;
                Emit "A" "navigation-stopped"
                  (NavigationStopped "R" "depot run");
                Emit "fleet-manager" "route-stopped"
                  (RouteStopped "A" "R" "depot run" 2000) ])
    /\ activeNavigations s' !! "A" = None.
Proof.
  destruct scenario2_session as (Hn & _ & Hu).
  destruct (stopNavigation_removes scenario2 "A" 0%nat scenario2_navigation
              2000 resolves scenario2_reachable Hu Hn)
    as (s' & Hstep & Htab & _).
  exists s'. exact (conj Hstep Htab).
Defined.

(** X3.  Starting a navigation for a vehicle without session, on a route that
    the vehicle owns and that the planner accepts, with a store that accepts
    both calls: the route is marked alive and active, a session is created
    at index 0 on the first movement point with status active, one interval
    is installed on it, and the answer is 200 with the number of movement
    points.  The sessions of the other vehicles are untouched. *)
Theorem startNavigation_creates (s : State) (u r : string) (route : Route)
    (pts : list value) (now : Z) (db : Outcomes) :
  activeNavigations s !! u = None ->
  routes s !! r = Some route -> route_userId route = u ->
  processRouteForMovement (route_data route) = Ok pts ->
  db 0%nat = Resolves -> db 1%nat = Resolves ->
  exists s',
    step s (StartNavigation u r now db)
    = Some (s',
            mkOutput
              (Some (mkResponse 200
                       (StartedBody
                          ("Navigation started for " +:+ route_routeName route)
                          r (route_routeName route) (length pts))))
              [RouteUpdate r alive true])
    /\ activeNavigations s' !! u = Some (nextRef s)
    /\ heap s' !! nextRef s
       = Some {| userId := u; routeId := r;
                 routeName := route_routeName route;
                 movementPoints := pts; currentIndex := 0;
                 currentPosition := at_index pts 0; status := active;
                 startTime := now; interval := Some (nextHandle s) |}
    /\ timers s' !! nextHandle s = Some (StartCallback (nextRef s) u r)
    /\ routes s' !! r
       = Some (mkRoute (route_userId route) (route_routeName route)
                 (route_data route) alive true)
    /\ (forall u', u' <> u ->
          activeNavigations s' !! u' = activeNavigations s !! u').
Proof.
  intros Hu Hr Hown Hpts Hdb0 Hdb1. eexists.
  split; [|split; [|split; [|split; [|split]]]].
  - simpl. unfold startNavigation.
    destruct (decide (is_Some (activeNavigations s !! u))) as [[x Hx]|_];
      [congruence|].
    rewrite Hdb0, Hr.
    destruct (decide (route_userId route = u)); [|done].
    rewrite Hdb1, Hpts. reflexivity.
  - simpl. apply lookup_insert_eq.
  - simpl. rewrite lookup_insert_eq. reflexivity.
  - simpl. apply lookup_insert_eq.
  - simpl. by rewrite lookup_alter_eq, Hr.
  - intros u' Hne. simpl. by rewrite lookup_insert_ne.
Qed.

Lemma startNavigation_creates_witness :
  exists s',
    step (initial scenario2_routes ∅) (StartNavigation "A" "R" 1000 resolves)
    = Some (s',
            mkOutput
              (Some (mkResponse 200
                       (StartedBody "Navigation started for depot run"
                          "R" "depot run" 3)))
              [RouteUpdate "R" alive true])
    /\ activeNavigations s' !! "A" = Some 0%nat.
Proof.
  assert (Hr : routes (initial scenario2_routes ∅) !! "R"
               = Some (mkRoute "A" "depot run" shortRoute created false))
    by (vm_compute; reflexivity).
  assert (Hp : processRouteForMovement shortRoute
               = Ok [Some (Fin 0, Fin 0); Some (Fin 0, Fin (1 # 2));
                     Some (Fin 0, Fin 1)])
    by (vm_compute; reflexivity).
  destruct (startNavigation_creates (initial scenario2_routes ∅) "A" "R"
              _ _ 1000 resolves eq_refl Hr eq_refl Hp eq_refl eq_refl)
    as (s' & Hstep & Htab & _).
  exists s'. exact (conj Hstep Htab).
Defined.

(** X4.  Starting on a missing route, or on a route of another vehicle, answers
    404 and changes nothing. *)
Theorem startNavigation_not_found (s : State) (u r : string) (now : Z)
    (db : Outcomes) :
  activeNavigations s !! u = None -> db 0%nat = Resolves ->
  (forall route, routes s !! r = Some route -> route_userId route <> u) ->
  step s (StartNavigation u r now db)
  = Some (s, mkOutput (Some (error 404 "Route not found or access denied"))
               []).
Proof.
  intros Hu Hdb Hroute. simpl. unfold startNavigation.
  destruct (decide (is_Some (activeNavigations s !! u))) as [[x Hx]|_];
    [congruence|].
  rewrite Hdb. destruct (routes s !! r) as [route|] eqn:Hr; [|done].
  destruct (decide (route_userId route = u)) as [Hown|]; [|done].
  by destruct (Hroute route eq_refl).
Qed.

Lemma startNavigation_not_found_witness :
  step (initial scenario2_routes ∅) (StartNavigation "B" "R" 1000 resolves)
  = Some (initial scenario2_routes ∅,
          mkOutput (Some (error 404 "Route not found or access denied")) []).
Proof.
  apply (startNavigation_not_found (initial scenario2_routes ∅) "B" "R"
           1000 resolves eq_refl eq_refl).
  intros route Hroute.
  assert (Hr : routes (initial scenario2_routes ∅) !! "R"
               = Some (mkRoute "A" "depot run" shortRoute created false))
    by (vm_compute; reflexivity).
  rewrite Hr in Hroute. injection Hroute as <-. discriminate.
Defined.

(** X5.  When the planner throws on the stored route, [/startNavigation] answers
    500 after the route has been marked alive: no session and no interval
    are created, and the route stays alive and active in the store. *)
Theorem startNavigation_planner_failure (s : State) (u r : string)
    (route : Route) (e : exn) (now : Z) (db : Outcomes) :
  activeNavigations s !! u = None ->
  routes s !! r = Some route -> route_userId route = u ->
  processRouteForMovement (route_data route) = Throw e ->
  db 0%nat = Resolves -> db 1%nat = Resolves ->
  exists s',
    step s (StartNavigation u r now db)
    = Some (s', mkOutput (Some (error 500 "Failed to start navigation"))
                  [RouteUpdate r alive true])
    /\ activeNavigations s' = activeNavigations s
    /\ timers s' = timers s
    /\ heap s' = heap s
    /\ routes s' !! r
       = Some (mkRoute (route_userId route) (route_routeName route)
                 (route_data route) alive true).
Proof.
  intros Hu Hr Hown Hpts Hdb0 Hdb1. eexists.
  split; [|split; [|split; [|split]]].
  - simpl. unfold startNavigation.
    destruct (decide (is_Some (activeNavigations s !! u))) as [[x Hx]|_];
      [congruence|].
    rewrite Hdb0, Hr.
    destruct (decide (route_userId route = u)); [|done].
    rewrite Hdb1, Hpts. reflexivity.
  - done.
  - done.
  - done.
  - simpl. by rewrite lookup_alter_eq, Hr.
Qed.

Lemma startNavigation_planner_failure_witness :
  exists s',
    step (initial {[ "P" := mkRoute "A" "point"
                              (mkRouteData [(Fin 3, Fin 4)] 1) created false ]}
            ∅)
      (StartNavigation "A" "P" 1000 resolves)
    = Some (s', mkOutput (Some (error 500 "Failed to start navigation"))
                  [RouteUpdate "P" alive true])
    /\ routes s' !! "P"
       = Some (mkRoute "A" "point" (mkRouteData [(Fin 3, Fin 4)] 1)
                 alive true).
Proof.
  set (s0 := initial {[ "P" := mkRoute "A" "point"
                                 (mkRouteData [(Fin 3, Fin 4)] 1)
                                 created false ]} ∅).
  assert (Hr : routes s0 !! "P"
               = Some (mkRoute "A" "point" (mkRouteData [(Fin 3, Fin 4)] 1)
                         created false))
    by (vm_compute; reflexivity).
  assert (Hp : processRouteForMovement (mkRouteData [(Fin 3, Fin 4)] 1)
               = Throw TypeError)
    by (vm_compute; reflexivity).
  destruct (startNavigation_planner_failure s0 "A" "P" _ TypeError 1000
              resolves eq_refl Hr eq_refl Hp eq_refl eq_refl)
    as (s' & Hstep & _ & _ & _ & Hroute).
  exists s'. exact (conj Hstep Hroute).
Defined.

End Handlers.

Section Lifecycle.
Import Js RouteLogic Server.
Local Open Scope string_scope.
Local Open Scope list_scope.

(** The firing of a live interval on a session that has no point left. *)
Lemma tick_completion (s : State) (t : handle) (c : Timer) (n : Navigation)
    (now : Z) (db : Outcomes) :
  wf s ->
  timers s !! t = Some c ->
  heap s !! callback_navigation c = Some n ->
  (length (movementPoints n) <= currentIndex n)%nat ->
  let u := callback_userId c in
  let r := callback_routeId c n in
  let s1 := with_navigations (delete u) (clearInterval (Some t) s) in
  tick t now db s
  = Some match db 0%nat with
         | Resolves =>
             (updateRoute r dead false s1,
              [ RouteUpdate r dead false;
                Emit u "navigation-completed"
                  (NavigationCompleted r (routeName n)
                     ("Navigation completed for " +:+ routeName n +:+ "!"));
                Emit "fleet-manager" "route-completed"
                  (RouteCompleted u r (routeName n) now) ])
         | Rejects => (s1, [RouteUpdate r dead false])
         end.
Proof.
  intros Hwf Ht Hn Hle u r s1.
  pose proof (callback_interval s t c n Hwf Ht Hn) as Hint.
  unfold tick. rewrite Ht. simpl. rewrite Hn. simpl.
  destruct c as [a u0 r0|a u0]; simpl in *.
  - unfold startTick.
    destruct (Nat.leb_spec (length (movementPoints n)) (currentIndex n));
      [|lia].
    rewrite Hint. by destruct (db 0%nat).
  - unfold resumeTick.
    destruct (Nat.leb_spec (length (movementPoints n)) (currentIndex n));
      [|lia].
    rewrite Hint. by destruct (db 0%nat).
Qed.

(** X6.  When the store rejects the route update of the completion branch, the
    firing still clears the interval and removes the session, but publishes
    no completion event and leaves the routes as they are; the session is
    gone for good, so nothing will mark the route dead on its behalf. *)
Theorem completion_store_rejects (s : State) (t : handle) (c : Timer)
    (n : Navigation) (now : Z) (db : Outcomes) :
  reachable s ->
  timers s !! t = Some c ->
  heap s !! callback_navigation c = Some n ->
  (length (movementPoints n) <= currentIndex n)%nat ->
  db 0%nat = Rejects ->
  exists s',
    step s (Tick t now db)
    = Some (s', mkOutput None
                  [RouteUpdate (callback_routeId c n) dead false])
    /\ timers s' !! t = None
    /\ activeNavigations s' !! callback_userId c = None
    /\ routes s' = routes s
    /\ (forall events s'' eff,
          run s' events = Some (s'', eff) ->
          gone s'' (callback_navigation c) (Some t)).
Proof.
  intros Hr Ht Hn Hle Hdb. pose proof (reachable_wf s Hr) as Hwf.
  pose proof (callback_interval s t c n Hwf Ht Hn) as Hint.
  pose proof (remove_gone_callback s t c n Hwf Ht Hn) as Hg.
  rewrite Hint in Hg.
  eexists. split; [|split; [|split; [|split]]].
  - simpl. rewrite (tick_completion s t c n now db Hwf Ht Hn Hle), Hdb.
    reflexivity.
  - simpl. apply lookup_delete_eq.
  - simpl. apply lookup_delete_eq.
  - done.
  - intros events s'' eff Hrun. by eapply gone_run.
Qed.

Lemma completion_store_rejects_witness :
  exists s',
    step scenario4 (Tick 0 5000 rejects)
    = Some (s', mkOutput None [RouteUpdate "R" dead false])
    /\ activeNavigations s' !! "A" = None
    /\ routes s' = routes scenario4.
Proof.
  assert (Hr : reachable scenario4)
    by apply reachable_after, scenario2_reachable.
  assert (Hn : heap scenario4 !! 0%nat = Some scenario4_navigation)
    by (vm_compute; reflexivity).
  assert (Ht : timers scenario4 !! 0%nat = Some (StartCallback 0 "A" "R"))
    by (vm_compute; reflexivity).
  assert (Hle : (length (movementPoints scenario4_navigation)
                 <= currentIndex scenario4_navigation)%nat)
    by (simpl; lia).
  destruct (completion_store_rejects scenario4 0%nat (StartCallback 0 "A" "R")
              scenario4_navigation 5000 rejects Hr Ht Hn Hle eq_refl)
    as (s' & Hstep & _ & Htab & Hroutes & _).
  exists s'. exact (conj Hstep (conj Htab Hroutes)).
Defined.

Lemma iter_advance (k : nat) (n : Navigation) :
  Nat.iter k advance n
  = mkNavigation (userId n) (routeId n) (routeName n) (movementPoints n)
      (currentIndex n + k)
      (match k with
       | O => currentPosition n
       | S k' => at_index (movementPoints n) (currentIndex n + k')
       end)
      (status n) (startTime n) (interval n).
Proof.
  induction k as [|k IH]; simpl.
  - rewrite Nat.add_0_r. by destruct n.
  - rewrite IH. unfold advance. simpl. by rewrite Nat.add_succ_r.
Qed.

(** The state of a session after successive firings that stay within its
    movement points. *)
Lemma ticks_run_state (t : handle) (c : Timer) (inputs : list (Z * Outcomes)) :
  forall (s : State) (n : Navigation),
  timers s !! t = Some c ->
  heap s !! callback_navigation c = Some n ->
  (currentIndex n + length inputs <= length (movementPoints n))%nat ->
  exists s' eff,
    run s (ticks t inputs) = Some (s', eff)
    /\ timers s' !! t = Some c
    /\ heap s' !! callback_navigation c
       = Some (Nat.iter (length inputs) advance n)
    /\ published eff
       = (fun i => (i, progressAt i (length (movementPoints n))))
           <$> seq (currentIndex n) (length inputs).
Proof.
  induction inputs as [|[now db] inputs IH]; intros s n Ht Hn Hle.
  - by exists s, [].
  - simpl in Hle.
    destruct (tick_position s t c n now db Ht Hn) as
      (s1 & pre & Htick & Hpre & Hheap & Htim & _); [lia|].
    destruct (IH s1 (advance n)) as (s2 & eff & Hrun & Ht2 & Hn2 & Hpub).
    { by rewrite Htim. }
    { by rewrite Hheap, lookup_insert_eq. }
    { simpl. lia. }
    exists s2. eexists. split.
    { simpl. rewrite Htick. simpl. rewrite Hrun. simpl. reflexivity. }
    split; [done|]. split.
    { simpl length. by rewrite Nat.iter_succ_r. }
    rewrite !published_app, Hpub.
    assert (Hp : published pre = []) by by destruct Hpre as [->| ->].
    rewrite Hp. reflexivity.
Qed.

(** X7.  A whole journey, when no two firings overlap.  From a session at
    index [i], as many whole firings as there are points left, followed by
    one more whole firing whose route update the store accepts, publish
    the indices [i, ..., len - 1] once each and in order, each with the
    progress [index / len * 100], then the two completion events, and
    leave the vehicle without table entry and the interval cleared. *)
Theorem journey_completes (s : State) (t : handle) (c : Timer)
    (n : Navigation) (inputs : list (Z * Outcomes)) (now : Z)
    (db : Outcomes) :
  reachable s ->
  timers s !! t = Some c ->
  heap s !! callback_navigation c = Some n ->
  (currentIndex n + length inputs = length (movementPoints n))%nat ->
  db 0%nat = Resolves ->
  let u := callback_userId c in
  let r := callback_routeId c n in
  exists s' eff,
    run s (ticks t inputs ++ [Tick t now db])
    = Some (s',
            eff ++
            [ RouteUpdate r dead false;
              Emit u "navigation-completed"
                (NavigationCompleted r (routeName n)
                   ("Navigation completed for " +:+ routeName n +:+ "!"));
              Emit "fleet-manager" "route-completed"
                (RouteCompleted u r (routeName n) now) ])
    /\ Forall2 (fun i x => x.1 = i
                           /\ percentage_of i (length (movementPoints n)) x.2)
         (seq (currentIndex n) (length inputs)) (published eff)
    /\ activeNavigations s' !! u = None
    /\ timers s' !! t = None.
Proof.
  intros Hr Ht Hn Hlen Hdb u r.
  destruct (ticks_run_state t c inputs s n Ht Hn) as
    (s1 & eff & Hrun & Ht1 & Hn1 & Hpub); [lia|].
  rewrite iter_advance in Hn1.
  set (n1 := mkNavigation _ _ _ _ _ _ _ _ _) in Hn1.
  assert (Hwf1 : wf s1) by (eapply reachable_wf, reachable_run; eauto).
  assert (Hle : (length (movementPoints n1) <= currentIndex n1)%nat)
    by (simpl; lia).
  pose proof (tick_completion s1 t c n1 now db Hwf1 Ht1 Hn1 Hle) as Htick.
  rewrite Hdb in Htick.
  assert (Hrid : callback_routeId c n1 = r) by by destruct c.
  rewrite Hrid in Htick.
  eexists. exists eff. split; [|split; [|split]].
  - rewrite run_app, Hrun. simpl. rewrite Htick. simpl. reflexivity.
  - rewrite Hpub.
    destruct (progress_run (currentIndex n) (length inputs)
                (length (movementPoints n))) as [Hall _]; [lia|].
    eapply Forall2_impl; [exact Hall|]. simpl. by intros i x (? & ? & _).
  - simpl. apply lookup_delete_eq.
  - simpl. apply lookup_delete_eq.
Qed.

Lemma journey_completes_witness :
  exists s' eff,
    run scenario2
      (ticks 0 [(2000%Z, resolves); (3000%Z, rejects); (4000%Z, resolves)]
         ++ [Tick 0 5000 resolves])
    = Some (s',
            eff ++
            [ RouteUpdate "R" dead false;
              Emit "A" "navigation-completed"
                (NavigationCompleted "R" "depot run"
                   "Navigation completed for depot run!");
              Emit "fleet-manager" "route-completed"
                (RouteCompleted "A" "R" "depot run" 5000) ])
    /\ Forall2 (fun i x => x.1 = i /\ percentage_of i 3 x.2)
         [0; 1; 2]%nat (published eff)
    /\ activeNavigations s' !! "A" = None.
Proof.
  destruct scenario2_session as (Hn & Ht & _).
  destruct (journey_completes scenario2 0%nat (StartCallback 0 "A" "R")
              scenario2_navigation
              [(2000%Z, resolves); (3000%Z, rejects); (4000%Z, resolves)]
              5000 resolves scenario2_reachable Ht Hn eq_refl eq_refl)
    as (s' & eff & Hrun & Hpub & Htab & _).
  exists s', eff. exact (conj Hrun (conj Hpub Htab)).
Defined.

(** X8.  A firing touches one session only: the objects of the other sessions,
    the table entries and the stored positions of the other vehicles, and
    the other intervals are what they were. *)
Theorem tick_frame (s s' : State) (t : handle) (c : Timer) (now : Z)
    (db : Outcomes) (out : Output) :
  reachable s ->
  timers s !! t = Some c ->
  step s (Tick t now db) = Some (s', out) ->
  (forall a, a <> callback_navigation c -> heap s' !! a = heap s !! a)
  /\ (forall u, u <> callback_userId c ->
        activeNavigations s' !! u = activeNavigations s !! u
        /\ fleet s' !! u = fleet s !! u)
  /\ (forall t', t' <> t -> timers s' !! t' = timers s !! t')
  /\ sockets s' = sockets s.
Proof.
  intros Hr Ht Hstep. pose proof (reachable_wf s Hr) as Hwf.
  simpl in Hstep.
  destruct (tick t now db s) as [[s1 eff]|] eqn:Htick; [|done].
  simpl in Hstep. simplify_eq.
  pose proof Htick as Htick'. unfold tick in Htick'.
  rewrite Ht in Htick'. simpl in Htick'.
  destruct (heap s !! callback_navigation c) as [n|] eqn:Hn; [|done].
  clear Htick'.
  destruct (decide (length (movementPoints n) <= currentIndex n)%nat)
    as [Hdone|Hmore].
  - rewrite (tick_completion s t c n now db Hwf Ht Hn Hdone) in Htick.
    destruct (db 0%nat); simplify_eq; simpl;
      (split; [done|]); (split; [|split; [|done]]);
      try (intros u Hu; by rewrite lookup_delete_ne);
      try (intros t' Ht'; by rewrite lookup_delete_ne).
  - unfold tick in Htick. rewrite Ht in Htick. simpl in Htick.
    rewrite Hn in Htick. simpl in Htick.
    destruct c as [a u0 r0|a u0]; simpl in *.
    + unfold startTick in Htick.
      destruct (Nat.leb_spec (length (movementPoints n)) (currentIndex n));
        [lia|].
      assert (Hfleet : forall (f : gmap string value) p u, u <> u0 ->
                alter (fun _ => p) u0 f !! u = f !! u)
        by (intros; by rewrite lookup_alter_ne).
      destruct (db 0%nat); [destruct (fleet _ !! u0); [|destruct (db 1%nat)]|];
        simplify_eq; simpl;
        (split; [intros a' Ha'; by rewrite !lookup_insert_ne|]);
        (split; [|done]); intros u Hu; (split; [done|]);
        by rewrite ?Hfleet.
    + unfold resumeTick in Htick.
      destruct (Nat.leb_spec (length (movementPoints n)) (currentIndex n));
        [lia|].
      simplify_eq. simpl.
      split; [intros a' Ha'; by rewrite lookup_insert_ne|]. done.
Qed.

Lemma tick_frame_witness :
  exists s' out,
    step scenario2 (Tick 0 2000 resolves) = Some (s', out)
    /\ sockets s' = sockets scenario2
    /\ forall t', t' <> 0%nat -> timers s' !! t' = timers scenario2 !! t'.
Proof.
  destruct scenario2_session as (Hn & Ht & _).
  assert (Hlt : (currentIndex scenario2_navigation
                 < length (movementPoints scenario2_navigation))%nat)
    by (simpl; lia).
  destruct (tick_position scenario2 0%nat _ _ 2000 resolves Ht Hn Hlt)
    as (s' & pre & Htick & _).
  assert (Hstep : step scenario2 (Tick 0 2000 resolves)
                  = Some (s', mkOutput None
                            (pre ++
                             locationEvents
                               (set_position (Some (Fin 0, Fin 0))
                                  scenario2_navigation)
                               "A" "R" (Some (Fin 0, Fin 0)) 2000))).
  { simpl. rewrite Htick. reflexivity. }
  destruct (tick_frame scenario2 s' 0%nat _ 2000 resolves _
              scenario2_reachable Ht Hstep) as (_ & _ & Htim & Hsock).
  exists s'. eexists. exact (conj Hstep (conj Hsock Htim)).
Defined.

End Lifecycle.

Section SessionInvariant.
Import Js RouteLogic Server.
Local Open Scope string_scope.
Local Open Scope list_scope.

(** X9.  In every reachable state, whatever the interleaving of the
    handlers, the table, the session objects and the live intervals agree
    as follows.  A session of the table is filed under its own [userId]; if
    it is paused it has no interval and no live interval ticks it; if it is
    active its [interval] is live and ticks it on behalf of its vehicle.
    Every live interval ticks an object that exists, is active, records
    that very interval, and belongs to the vehicle and the route the
    callback reports; so no object is ticked by two live intervals.  (The
    object of a live interval need not be in the table: overlapping start
    requests leave one outside.)  Every suspended continuation holds an
    object that exists. *)
Theorem reachable_sessions_consistent (s : State) :
  reachable s ->
  (forall u a, activeNavigations s !! u = Some a ->
     exists n, heap s !! a = Some n /\ userId n = u
       /\ match status n with
          | paused =>
              interval n = None
              /\ forall t c, timers s !! t = Some c ->
                             callback_navigation c <> a
          | active =>
              exists t c, interval n = Some t /\ timers s !! t = Some c
                          /\ callback_navigation c = a
                          /\ callback_userId c = u
          end)
  /\ (forall t c, timers s !! t = Some c ->
        exists n,
          heap s !! callback_navigation c = Some n
          /\ interval n = Some t /\ status n = active
          /\ userId n = callback_userId c
          /\ callback_routeId c n = routeId n)
  /\ (forall t1 t2 c1 c2,
        timers s !! t1 = Some c1 -> timers s !! t2 = Some c2 ->
        callback_navigation c1 = callback_navigation c2 -> t1 = t2)
  /\ (forall k c a,
        pending s !! k = Some c -> continuation_navigation c = Some a ->
        is_Some (heap s !! a)).
Proof.
  intros Hr. pose proof (reachable_wf s Hr) as Hwf.
  assert (Htimer : forall t c, timers s !! t = Some c ->
            exists n,
              heap s !! callback_navigation c = Some n
              /\ interval n = Some t /\ status n = active
              /\ userId n = callback_userId c
              /\ callback_routeId c n = routeId n).
  { intros t c Ht.
    destruct (wf_timer s Hwf t c Ht) as (n & Hn & Hint & Hrt & Hown & Hact).
    by exists n. }
  split; [|split; [exact Htimer|split]].
  - intros u a Hu. destruct (wf_table s Hwf u a Hu) as (n & Hn & Hnu).
    exists n. split; [done|]. split; [done|].
    pose proof (wf_status s Hwf u a n Hu Hn) as Hst.
    destruct (status n) eqn:Hs.
    + destruct Hst as (t & c & Hint & Ht & Hnav).
      exists t, c. split; [done|]. split; [done|]. split; [done|].
      destruct (Htimer t c Ht) as (n' & Hn' & _ & _ & Hown & _).
      rewrite Hnav, Hn in Hn'. congruence.
    + split; [done|]. intros t c Ht Hnav.
      destruct (Htimer t c Ht) as (n' & Hn' & Hint' & _).
      rewrite Hnav, Hn in Hn'. congruence.
  - intros t1 t2 c1 c2 Ht1 Ht2 Heq.
    destruct (Htimer t1 c1 Ht1) as (n1 & Hn1 & Hi1 & _).
    destruct (Htimer t2 c2 Ht2) as (n2 & Hn2 & Hi2 & _).
    rewrite Heq in Hn1. congruence.
  - apply (wf_pending s Hwf).
Qed.

Lemma reachable_sessions_consistent_witness :
  exists n,
    heap scenario2 !! callback_navigation (StartCallback 0 "A" "R")
    = Some n
    /\ interval n = Some 0%nat /\ status n = active
    /\ userId n = callback_userId (StartCallback 0 "A" "R")
    /\ callback_routeId (StartCallback 0 "A" "R") n = routeId n.
Proof.
  destruct scenario2_session as (_ & Ht & _).
  exact (proj1 (proj2 (reachable_sessions_consistent scenario2
                         scenario2_reachable))
           0%nat (StartCallback 0 "A" "R") Ht).
Defined.

End SessionInvariant.

(** ** Further properties of the movement planner *)

Section PlannerShape.
Import Js RouteLogic.

(** The loop pushes, for each index, what [movementPoint] returns. *)
Lemma movementLoop_lookup (routeCoordinates : list point) (tp : Z)
    (fuel : nat) :
  forall (i : Z) (acc pts : list value),
  movementLoop routeCoordinates tp fuel i acc = Ok pts ->
  length pts = (length acc + fuel)%nat
  /\ (forall k, (k < length acc)%nat -> pts !! k = acc !! k)
  /\ (forall k, (k < fuel)%nat ->
        exists v, movementPoint routeCoordinates tp (i + Z.of_nat k) = Ok v
                  /\ pts !! (length acc + k)%nat = Some v).
Proof.
  induction fuel as [|fuel IH]; intros i acc pts Hloop; simpl in Hloop.
  - simplify_eq. split; [lia|]. split; [done|]. intros k Hk. lia.
  - destruct (movementPoint routeCoordinates tp i) as [v|e] eqn:Hv; [|done].
    destruct (IH (i + 1)%Z (acc ++ [v]) pts Hloop) as (Hlen & Hacc & Hnew).
    rewrite length_app in *. simpl in *.
    split; [lia|]. split.
    + intros k Hk. rewrite Hacc by lia. by rewrite lookup_app_l.
    + intros [|k] Hk.
      * exists v. rewrite Z.add_0_r, Nat.add_0_r. split; [done|].
        rewrite Hacc by lia. apply list_lookup_middle. done.
      * destruct (Hnew k) as (v' & Hv' & Hl); [lia|].
        exists v'. split.
        -- rewrite <- Hv'. f_equal. lia.
        -- rewrite <- Hl. f_equal. lia.
Qed.

(** The fraction of the way between the two bounding vertices. *)
Lemma localProgress_fin (len tp i : Z) :
  (2 <= tp)%Z ->
  exists lp,
    jsub (jmul (jdiv (of_Z i) (of_Z (tp - 1))) (of_Z (len - 1)))
         (of_Z (Qfloor (fractionalPosition len tp i)))
    = Fin lp
    /\ (lp == fractionalPosition len tp i
             - inject_Z (Qfloor (fractionalPosition len tp i)))%Q.
Proof.
  intros Htp. rewrite progress_fin by done.
  unfold jsub, jneg, of_Z, fin, jmul, jadd, fin. eexists. split; [reflexivity|].
  unfold fractionalPosition. rewrite !Qred_correct. reflexivity.
Qed.

Lemma movementPoint_unfold (routeCoordinates : list point) (tp i : Z) :
  (1 <= length routeCoordinates)%nat -> (2 <= tp)%Z -> (0 <= i < tp)%Z ->
  let len := Z.of_nat (length routeCoordinates) in
  let ci := Qfloor (fractionalPosition len tp i) in
  let nx := Z.min (ci + 1) (len - 1) in
  movementPoint routeCoordinates tp i
  = if (ci =? nx)%Z then Ok (routeCoordinates !! Z.to_nat ci)
    else
      match interpolateCoordinates (routeCoordinates !! Z.to_nat ci)
              (routeCoordinates !! Z.to_nat nx)
              (jsub (jmul (jdiv (of_Z i) (of_Z (tp - 1))) (of_Z (len - 1)))
                 (of_Z ci)) with
      | Ok p => Ok (Some p)
      | Throw e => Throw e
      end.
Proof.
  intros Hlen Htp Hi len ci nx. unfold movementPoint. fold len.
  assert (Hlen' : (1 <= len)%Z) by (unfold len; lia).
  rewrite (coordIndex_of_Z len tp i Htp).
  pose proof (coordIndex_bounds len tp i Hlen' Htp Hi) as Hci.
  fold ci in Hci |- *.
  rewrite jadd_of_Z, jmin_of_Z, strict_eq_of_Z. fold nx.
  rewrite !get_of_Z by (unfold nx; lia). reflexivity.
Qed.

End PlannerShape.

Section PlannerExtras.
Import Js RouteLogic.

Lemma processRouteForMovement_lookup (rd : RouteData) (pts : list value) :
  processRouteForMovement rd = Ok pts ->
  let tp := Z.max (Qceiling (duration rd))
                  (Z.of_nat (length (coordinates rd))) in
  Z.of_nat (length pts) = Z.max tp 0
  /\ forall k, (k < length pts)%nat ->
       exists v, movementPoint (coordinates rd) tp (Z.of_nat k) = Ok v
                 /\ pts !! k = Some v.
Proof.
  intros Hp tp. unfold processRouteForMovement in Hp. fold tp in Hp.
  destruct (movementLoop_lookup _ _ _ _ _ _ Hp) as (Hlen & _ & Hnew).
  simpl in *. split; [lia|]. intros k Hk. apply Hnew. lia.
Qed.

Lemma fractionalPosition_first (len tp : Z) :
  (fractionalPosition len tp 0 == 0)%Q.
Proof. unfold fractionalPosition, Qdiv. by rewrite !Qmult_0_l. Qed.

Lemma fractionalPosition_last (len tp : Z) :
  (2 <= tp)%Z ->
  (fractionalPosition len tp (tp - 1) == inject_Z (len - 1))%Q.
Proof.
  intros Htp. unfold fractionalPosition.
  assert (H : ~ (inject_Z (tp - 1) == 0)%Q).
  { change 0%Q with (inject_Z 0). rewrite inject_Z_injective. lia. }
  field. exact H.
Qed.

Lemma Qfloor_eq (q : Q) (z : Z) : (q == inject_Z z)%Q -> Qfloor q = z.
Proof. intros H. rewrite <- (Qfloor_Z z). by apply Qfloor_comp. Qed.

(** X10.  The plan of a route with at least two vertices starts on the first
    vertex and ends on the last one: the last movement point is the last
    vertex itself, and the first one, obtained by interpolating at fraction
    zero between the first two vertices, has the coordinates of the first
    vertex when these two vertices are finite numbers. *)
Theorem plan_endpoints (rd : RouteData) (pts : list value) :
  (2 <= length (coordinates rd))%nat ->
  processRouteForMovement rd = Ok pts ->
  pts !! (length pts - 1)%nat
  = Some (coordinates rd !! (length (coordinates rd) - 1)%nat)
  /\ forall x0 y0 x1 y1,
       coordinates rd !! 0%nat = Some (Fin x0, Fin y0) ->
       coordinates rd !! 1%nat = Some (Fin x1, Fin y1) ->
       exists x y, pts !! 0%nat = Some (Some (Fin x, Fin y))
                   /\ (x == x0)%Q /\ (y == y0)%Q.
Proof.
  intros Hlen Hp.
  destruct (processRouteForMovement_lookup rd pts Hp) as [Hl Hk].
  set (len := Z.of_nat (length (coordinates rd))) in *.
  set (tp := Z.max (Qceiling (duration rd)) len) in *.
  assert (Htp : (2 <= tp)%Z) by lia.
  split.
  - destruct (Hk (length pts - 1)%nat) as (v & Hv & Hlook); [lia|].
    etrans; [exact Hlook|]. f_equal.
    rewrite movementPoint_unfold in Hv by lia. fold len in Hv.
    replace (Z.of_nat (length pts - 1)) with (tp - 1)%Z in Hv by lia.
    rewrite (Qfloor_eq _ (len - 1)) in Hv
      by by apply fractionalPosition_last.
    rewrite Z.min_r, Z.eqb_refl in Hv by lia.
    injection Hv as <-. f_equal. lia.
  - intros x0 y0 x1 y1 H0 H1.
    destruct (Hk 0%nat) as (v & Hv & Hlook); [lia|].
    rewrite movementPoint_unfold in Hv by lia.
    fold len in Hv. change (Z.of_nat 0) with 0%Z in Hv.
    destruct (localProgress_fin len tp 0 Htp) as (lp & Hlp & Hlpq).
    rewrite (Qfloor_eq _ 0) in Hv, Hlp, Hlpq
      by apply fractionalPosition_first.
    rewrite Hlp in Hv.
    rewrite Z.min_l in Hv by lia. change (0 =? 0 + 1)%Z with false in Hv.
    change (Z.to_nat 0) with 0%nat in Hv.
    change (Z.to_nat (0 + 1)) with 1%nat in Hv.
    unfold value, point in *.
    rewrite H0, H1 in Hv. simpl in Hv. injection Hv as <-.
    do 2 eexists. split; [exact Hlook|].
    rewrite fractionalPosition_first in Hlpq.
    rewrite !Qred_correct, Hlpq. split; ring.
Qed.

Lemma plan_endpoints_witness :
  exists pts,
    processRouteForMovement shortRoute = Ok pts
    /\ pts !! (length pts - 1)%nat
       = Some (coordinates shortRoute
                 !! (length (coordinates shortRoute) - 1)%nat).
Proof.
  assert (Hp : processRouteForMovement shortRoute
               = Ok [Some (Fin 0, Fin 0); Some (Fin 0, Fin (1 # 2));
                     Some (Fin 0, Fin 1)])
    by (vm_compute; reflexivity).
  assert (Hlen : (2 <= length (coordinates shortRoute))%nat)
    by (simpl; lia).
  eexists. split; [exact Hp|].
  exact (proj1 (plan_endpoints shortRoute _ Hlen Hp)).
Defined.

End PlannerExtras.

Section PlannerSegments.
Import Js RouteLogic.

Lemma between_interpolated (x0 x1 lp x : Q) :
  (0 <= lp <= 1)%Q -> (x == x0 + (x1 - x0) * lp)%Q -> between x0 x x1.
Proof.
  intros [H0 H1] Hx. unfold between. rewrite Hx.
  destruct (Qlt_le_dec x1 x0) as [Hlt|Hle].
  - assert (A : (0 <= (x0 - x1) * lp)%Q)
      by (apply Qmult_le_0_compat; Lqa.lra).
    assert (B : (0 <= (x0 - x1) * (1 - lp))%Q)
      by (apply Qmult_le_0_compat; Lqa.lra).
    right. split; Lqa.lra.
  - assert (A : (0 <= (x1 - x0) * lp)%Q)
      by (apply Qmult_le_0_compat; Lqa.lra).
    assert (B : (0 <= (x1 - x0) * (1 - lp))%Q)
      by (apply Qmult_le_0_compat; Lqa.lra).
    left. split; Lqa.lra.
Qed.

Lemma localProgress_bounds (q : Q) :
  (0 <= q - inject_Z (Qfloor q) <= 1)%Q.
Proof.
  pose proof (Qfloor_le q) as H1. pose proof (Qlt_floor q) as H2.
  rewrite inject_Z_plus in H2. change (inject_Z 1) with 1%Q in H2.
  set (f := inject_Z (Qfloor q)) in *. split; Lqa.lra.
Qed.

(** X11.  Every movement point of a route with at least two vertices is defined;
    when the vertices are finite numbers, it lies, coordinate by coordinate,
    between two consecutive vertices of the route (the last vertex being
    its own successor). *)
Theorem plan_on_segments (rd : RouteData) (pts : list value) :
  (2 <= length (coordinates rd))%nat ->
  processRouteForMovement rd = Ok pts ->
  (forall k (v : value), pts !! k = Some v -> is_Some v)
  /\ (Forall finite (coordinates rd) ->
      forall k (v : value), pts !! k = Some v ->
        exists j p0 p1 p,
          v = Some p
          /\ coordinates rd !! j = Some p0
          /\ coordinates rd
               !! Nat.min (S j) (length (coordinates rd) - 1) = Some p1
          /\ within p0 p p1).
Proof.
  intros Hlen Hp.
  destruct (processRouteForMovement_lookup rd pts Hp) as [Hl Hk].
  set (len := Z.of_nat (length (coordinates rd))) in *.
  set (tp := Z.max (Qceiling (duration rd)) len) in *.
  assert (Htp : (2 <= tp)%Z) by lia.
  split.
  - intros k v Hv. apply lookup_lt_Some in Hv as Hlt.
    destruct (Hk k Hlt) as (v' & Hv' & Hlook).
    assert (E : Some v' = Some v) by exact (eq_trans (eq_sym Hlook) Hv).
    injection E as ->.
    destruct (movementPoint_defined (coordinates rd) tp (Z.of_nat k))
      as [p Hdef]; [lia | exact Htp | lia |].
    rewrite Hdef in Hv'. injection Hv' as <-. by eexists.
  - intros Hfin k v Hv. apply lookup_lt_Some in Hv as Hlt.
    destruct (Hk k Hlt) as (v' & Hv' & Hlook).
    assert (E : Some v' = Some v) by exact (eq_trans (eq_sym Hlook) Hv).
    injection E as ->.
    rewrite movementPoint_unfold in Hv' by lia. fold len in Hv'.
    pose proof (coordIndex_bounds len tp (Z.of_nat k)) as Hci.
    destruct (localProgress_fin len tp (Z.of_nat k) Htp) as (lp & Hlp & Hlpq).
    pose proof (localProgress_bounds (fractionalPosition len tp (Z.of_nat k)))
      as Hb.
    rewrite <- Hlpq in Hb. rewrite Hlp in Hv'. clear Hlp Hlpq.
    set (ci := Qfloor (fractionalPosition len tp (Z.of_nat k))) in *.
    assert (Hci' : (0 <= ci <= len - 1)%Z) by (apply Hci; lia).
    set (nx := Z.min (ci + 1) (len - 1)) in *.
    assert (Hnx : Z.to_nat nx
                  = Nat.min (S (Z.to_nat ci)) (length (coordinates rd) - 1))
      by (unfold nx, len; lia).
    destruct (lookup_lt_is_Some_2 (coordinates rd) (Z.to_nat ci))
      as [p0 Hp0]; [lia|].
    destruct (lookup_lt_is_Some_2 (coordinates rd) (Z.to_nat nx))
      as [p1 Hp1]; [unfold nx, len; lia|].
    pose proof (proj1 (Forall_lookup _ _) Hfin _ _ Hp0) as Hf0.
    pose proof (proj1 (Forall_lookup _ _) Hfin _ _ Hp1) as Hf1.
    exists (Z.to_nat ci), p0, p1.
    destruct p0 as [[x0| | |] [y0| | |]]; try done.
    destruct p1 as [[x1| | |] [y1| | |]]; try done.
    rewrite Hp0, Hp1 in Hv'.
    destruct (ci =? nx)%Z eqn:Heq.
    + apply Z.eqb_eq in Heq. injection Hv' as <-.
      exists (Fin x0, Fin y0). split; [done|]. split; [done|].
      rewrite <- Hnx. split; [exact Hp1|].
      rewrite <- Heq, Hp0 in Hp1. injection Hp1 as <- <-.
      split; left; split; apply Qle_refl.
    + simpl in Hv'. injection Hv' as <-.
      eexists. split; [reflexivity|]. split; [done|].
      rewrite <- Hnx. split; [done|]. simpl.
      split; (eapply between_interpolated; [exact Hb|]);
        rewrite !Qred_correct; ring.
Qed.

Lemma plan_on_segments_witness :
  exists pts,
    processRouteForMovement shortRoute = Ok pts
    /\ forall k (v : value), pts !! k = Some v -> is_Some v.
Proof.
  assert (Hp : processRouteForMovement shortRoute
               = Ok [Some (Fin 0, Fin 0); Some (Fin 0, Fin (1 # 2));
                     Some (Fin 0, Fin 1)])
    by (vm_compute; reflexivity).
  assert (Hlen : (2 <= length (coordinates shortRoute))%nat)
    by (simpl; lia).
  eexists. split; [exact Hp|].
  exact (proj1 (plan_on_segments shortRoute _ Hlen Hp)).
Defined.

End PlannerSegments.

(** ** Further properties of the station locator *)

Section LocatorGeometry.
Import Js RouteChargingLogic.
Local Open Scope R_scope.

(** X12.  The great-circle distance is never negative, vanishes between a point
    and itself, and does not depend on the order of its arguments. *)
Theorem calculateDistance_properties (c1 c2 : coord) :
  0 <= calculateDistance c1 c2
  /\ calculateDistance c1 c1 = 0
  /\ calculateDistance c1 c2 = calculateDistance c2 c1.
Proof.
  split; [apply calculateDistance_nonneg|].
  split; [apply calculateDistance_self|].
  unfold calculateDistance. cbv zeta.
  replace ((c1.2 - c2.2) * PI / 180 / 2)
    with (- ((c2.2 - c1.2) * PI / 180 / 2)) by lra.
  replace ((c1.1 - c2.1) * PI / 180 / 2)
    with (- ((c2.1 - c1.1) * PI / 180 / 2)) by lra.
  rewrite !sin_neg.
  set (a := sin ((c2.2 - c1.2) * PI / 180 / 2)).
  set (b := sin ((c2.1 - c1.1) * PI / 180 / 2)).
  set (k1 := cos (c1.2 * PI / 180)). set (k2 := cos (c2.2 * PI / 180)).
  replace (- a * - a + k2 * k1 * - b * - b) with (a * a + k1 * k2 * b * b)
    by ring.
  reflexivity.
Qed.

(** The fold of [calculateRouteBounds] from finite bounds. *)
Lemma calculateRouteBounds_fold (l : list coord) (b : Bounds) :
  forall lo hi lo' hi',
  b = mkBounds (XR lo) (XR hi) (XR lo') (XR hi') ->
  exists mn mx mn' mx',
    fold_left
      (fun b c =>
         {| minLng := xmin (minLng b) (fst c);
            maxLng := xmax (maxLng b) (fst c);
            minLat := xmin (minLat b) (snd c);
            maxLat := xmax (maxLat b) (snd c) |}) l b
    = mkBounds (XR mn) (XR mx) (XR mn') (XR mx')
    /\ mn <= lo /\ hi <= mx /\ mn' <= lo' /\ hi' <= mx'
    /\ forall c, c ∈ l ->
         mn <= fst c <= mx /\ mn' <= snd c <= mx'.
Proof.
  revert b. induction l as [|c l IH]; intros b lo hi lo' hi' ->.
  - exists lo, hi, lo', hi'. simpl. split_and!; try lra; [done|].
    intros c Hin. by apply not_elem_of_nil in Hin.
  - simpl.
    destruct (IH _ (Rmin lo c.1) (Rmax hi c.1) (Rmin lo' c.2) (Rmax hi' c.2)
                eq_refl)
      as (mn & mx & mn' & mx' & Hfold & H1 & H2 & H3 & H4 & Hall).
    exists mn, mx, mn', mx'. split; [exact Hfold|].
    pose proof (Rmin_l lo c.1). pose proof (Rmin_r lo c.1).
    pose proof (Rmax_l hi c.1). pose proof (Rmax_r hi c.1).
    pose proof (Rmin_l lo' c.2). pose proof (Rmin_r lo' c.2).
    pose proof (Rmax_l hi' c.2). pose proof (Rmax_r hi' c.2).
    split_and!; try lra.
    intros c0 Hin. apply elem_of_cons in Hin as [->|Hin];
      [lra | by apply Hall].
Qed.

(** X13.  The bounding box of a non-empty route is finite and contains every
    vertex; the bounding box of the empty route is the pair of infinities
    the scan starts from. *)
Theorem calculateRouteBounds_encloses (routeCoordinates : list coord) :
  calculateRouteBounds [] = mkBounds XPInf XNInf XPInf XNInf
  /\ (routeCoordinates <> [] ->
      exists mn mx mn' mx',
        calculateRouteBounds routeCoordinates
        = mkBounds (XR mn) (XR mx) (XR mn') (XR mx')
        /\ forall c, c ∈ routeCoordinates ->
             mn <= fst c <= mx /\ mn' <= snd c <= mx').
Proof.
  split; [reflexivity|]. intros Hne.
  destruct routeCoordinates as [|c l]; [done|].
  unfold calculateRouteBounds. simpl.
  destruct (calculateRouteBounds_fold l _ c.1 c.1 c.2 c.2 eq_refl)
    as (mn & mx & mn' & mx' & Hfold & H1 & H2 & H3 & H4 & Hall).
  exists mn, mx, mn', mx'. split; [exact Hfold|].
  intros c0 Hin. apply elem_of_cons in Hin as [->|Hin]; [lra|].
  by apply Hall.
Qed.

End LocatorGeometry.

Section LocatorPipeline.
Import Js RouteChargingLogic.

Lemma insertByRouteIndex_perm (m : RouteStationMatch)
    (l : list RouteStationMatch) :
  insertByRouteIndex m l ≡ₚ m :: l.
Proof.
  induction l as [|x l IH]; simpl; [done|].
  destruct (_ <? _)%nat; [done|]. rewrite IH. apply Permutation_swap.
Qed.

Lemma insertByRouteIndex_sorted (m : RouteStationMatch)
    (l : list RouteStationMatch) :
  StronglySorted byRouteIndex l ->
  StronglySorted byRouteIndex (insertByRouteIndex m l).
Proof.
  induction 1 as [|x l Hs IH Hall]; simpl.
  - repeat constructor.
  - destruct (Nat.ltb_spec (index (routePosition m))
                (index (routePosition x))) as [Hlt|Hge].
    + constructor; [by constructor|]. constructor.
      * unfold byRouteIndex. lia.
      * eapply Forall_impl; [exact Hall|]. unfold byRouteIndex.
        intros y Hy. simpl in *. lia.
    + constructor; [done|].
      rewrite insertByRouteIndex_perm. by constructor.
Qed.

Lemma sortByRouteIndex_spec (l : list RouteStationMatch) :
  sortByRouteIndex l ≡ₚ l
  /\ StronglySorted byRouteIndex (sortByRouteIndex l).
Proof.
  unfold sortByRouteIndex.
  assert (H : forall acc, StronglySorted byRouteIndex acc ->
            fold_left (fun sorted m => insertByRouteIndex m sorted) l acc
              ≡ₚ acc ++ l
            /\ StronglySorted byRouteIndex
                 (fold_left (fun sorted m => insertByRouteIndex m sorted)
                    l acc)).
  { induction l as [|m l IH]; intros acc Hacc; simpl.
    - by rewrite app_nil_r.
    - destruct (IH (insertByRouteIndex m acc)) as [Hp Hs];
        [by apply insertByRouteIndex_sorted|].
      split; [|done]. rewrite Hp, insertByRouteIndex_perm.
      simpl. apply Permutation_middle. }
  destruct (H []) as [Hp Hs]; [constructor|]. done.
Qed.

Lemma select_sublist {A : Type} (undefined : A) (l : list A) (k : nat) :
  sublist (selectEvenlySpacedStations undefined l k) l.
Proof.
  destruct (decide (length l <= k)%nat) as [Hle|Hgt].
  - unfold selectEvenlySpacedStations.
    destruct (Nat.leb_spec (length l) k); [done | lia].
  - rewrite select_unfold by lia.
    apply sublist_nth_increasing.
    + destruct (decide (k = 0%nat)) as [->|Hk]; [constructor|].
      apply multiples_sorted.
      destruct (spacing_in_range (length l) k 0) as [Hs _]; [lia | lia | done].
    + rewrite Forall_fmap, Forall_forall. intros i Hi.
      apply elem_of_seq in Hi. simpl.
      destruct (spacing_in_range (length l) k i) as [_ Hle]; [lia | lia |].
      lia.
Qed.

Lemma select_length {A : Type} (undefined : A) (l : list A) (k : nat) :
  length (selectEvenlySpacedStations undefined l k)
  = Nat.min k (length l).
Proof.
  destruct (decide (length l <= k)%nat) as [Hle|Hgt].
  - unfold selectEvenlySpacedStations.
    destruct (Nat.leb_spec (length l) k); lia.
  - rewrite select_unfold by lia. rewrite !length_fmap, length_seq. lia.
Qed.

End LocatorPipeline.

Section LocatorResults.
Import Js RouteChargingLogic.

Lemma sublist_omap {A B : Type} (f : A -> option B) (l1 l2 : list A) :
  sublist l1 l2 -> sublist (omap f l1) (omap f l2).
Proof.
  induction 1 as [|x l1 l2 _ IH|x l1 l2 _ IH]; csimpl.
  - constructor.
  - destruct (f x); [by constructor | done].
  - destruct (f x); [by constructor | done].
Qed.

Lemma StronglySorted_sublist {A : Type} (R : relation A) (l1 l2 : list A) :
  sublist l1 l2 -> StronglySorted R l2 -> StronglySorted R l1.
Proof.
  induction 1 as [|x l1 l2 Hsub IH|x l1 l2 Hsub IH]; intros Hs.
  - constructor.
  - inversion Hs as [|? ? Hs' Hall]; subst. constructor; [by apply IH|].
    rewrite Forall_forall in *. intros y Hy. apply Hall.
    by eapply elem_of_sublist.
  - inversion Hs; subst. by apply IH.
Qed.

Lemma omap_fmap_Some {A B : Type} (g : A -> B) (l : list A) :
  omap (fun x : option A => g <$> x) (Some <$> l) = g <$> l.
Proof. induction l as [|x l IH]; csimpl; [done|]. by rewrite IH. Qed.

(** What sorting by route index and selecting [maxStations] elements gives,
    whatever the matches are. *)
Lemma sorted_selection (matches : list RouteStationMatch) (maxStations : nat) :
  let result :=
    selectEvenlySpacedStations None
      (Some <$> sortByRouteIndex matches) maxStations in
  length result = Nat.min maxStations (length matches)
  /\ StronglySorted le (routeIndices result)
  /\ (NoDup ((fun m => stationId (station m)) <$> matches) ->
      NoDup (stationIds result))
  /\ forall x, x ∈ result -> exists m, x = Some m /\ m ∈ matches.
Proof.
  intros result.
  destruct (sortByRouteIndex_spec matches) as [Hperm Hsorted].
  pose proof (select_sublist None (Some <$> sortByRouteIndex matches)
                maxStations) as Hsub.
  fold result in Hsub.
  split; [|split; [|split]].
  - unfold result. rewrite select_length, length_fmap. by rewrite Hperm.
  - apply (StronglySorted_sublist _ _
             (routeIndices (Some <$> sortByRouteIndex matches))).
    + by apply sublist_omap.
    + unfold routeIndices. rewrite omap_fmap_Some.
      by apply (StronglySorted_fmap _ byRouteIndex).
  - intros Hnd.
    apply (sublist_NoDup _ (stationIds (Some <$> sortByRouteIndex matches))).
    + unfold stationIds. rewrite omap_fmap_Some. by rewrite Hperm.
    + by apply sublist_omap.
  - intros x Hx. apply (elem_of_sublist _ _ _ Hx) in Hsub.
    apply list_elem_of_fmap in Hsub as (m & -> & Hm).
    exists m. split; [done|]. by rewrite <- Hperm.
Qed.

End LocatorResults.

Section LocatorStrategies.
Import Js RouteChargingLogic.
Local Open Scope R_scope.

Variable findInBox : Bounds -> nat -> result (list ChargingStation).
Variable geoNear : coord -> R -> result (list (ChargingStation * R)).

Lemma findStationsWithinRouteBuffer_matches (routeCoordinates : list coord)
    (maxDistance : R) (maxStations : nat) :
  exists matches,
    findStationsWithinRouteBuffer findInBox routeCoordinates maxDistance
      maxStations
    = selectEvenlySpacedStations None
        (Some <$> sortByRouteIndex matches) maxStations
    /\ Forall (bufferMatch findInBox routeCoordinates maxDistance maxStations)
         matches.
Proof.
  unfold findStationsWithinRouteBuffer.
  fold (expandedBounds routeCoordinates maxDistance).
  destruct (findInBox _ _) as [nearbyStations|e] eqn:Hfind.
  - destruct (length nearbyStations =? 0)%nat.
    + exists []. split; [done | constructor].
    + eexists. split; [reflexivity|].
      rewrite Forall_forall. intros m Hm.
      apply list_elem_of_omap in Hm as (st & Hst & Hm).
      destruct (x_le _ _) eqn:Hle; [|done].
      injection Hm as <-. simpl. unfold bufferMatch. simpl.
      split_and!; try done. by exists nearbyStations.
  - exists []. split; [done | constructor].
Qed.

Lemma has_spec (allStations : list (string * RouteStationMatch))
    (id : string) :
  has allStations id = true <-> id ∈ fst <$> allStations.
Proof.
  unfold has. rewrite existsb_exists, list_elem_of_fmap.
  split.
  - intros (kv & Hin & Hb). apply bool_decide_eq_true in Hb.
    exists kv. split; [done|]. by apply list_elem_of_In.
  - intros (kv & -> & Hin). exists kv. split; [by apply list_elem_of_In|].
    by apply bool_decide_eq_true.
Qed.

Lemma visitSample_collected (routeCoordinates : list coord)
    (maxDistance : R) (allStations : list (string * RouteStationMatch))
    (point : coord) :
  point ∈ samplePoints routeCoordinates ->
  collected geoNear routeCoordinates maxDistance allStations ->
  collected geoNear routeCoordinates maxDistance
    (visitSample geoNear routeCoordinates maxDistance allStations point).
Proof.
  intros Hpoint Hacc. unfold visitSample.
  destruct (geoNear point _) as [nearbyStations|e] eqn:Hnear; [|done].
  assert (H : forall found acc,
            found ⊆ nearbyStations ->
            collected geoNear routeCoordinates maxDistance acc ->
            collected geoNear routeCoordinates maxDistance
              (fold_left (addStation routeCoordinates) found acc)).
  { induction found as [|[st d] found IH]; intros acc Hsub Hinv; [done|].
    simpl. apply IH; [set_solver|].
    destruct (has acc (stationId st)) eqn:Hhas; [done|].
    destruct Hinv as [Hnd Hall]. split.
    - rewrite fmap_app. simpl. apply NoDup_app. split_and!; [done| |].
      + intros id Hid Hid'. apply list_elem_of_singleton in Hid'. subst id.
        apply has_spec in Hid. congruence.
      + apply NoDup_singleton.
    - apply Forall_app. split; [done|]. constructor; [|constructor].
      simpl. split; [done|]. split; [done|].
      exists point, nearbyStations, d. split_and!; try done.
      apply Hsub. set_solver. }
  by apply H.
Qed.

Lemma sampleFrom_sublist (sampleInterval i : nat) (l : list coord) :
  sublist (sampleFrom sampleInterval i l) l.
Proof.
  revert i. induction l as [|c l IH]; intros i; simpl; [constructor|].
  destruct (_ =? _)%nat; by constructor.
Qed.

Lemma findStationsNearRoutePoints_matches (routeCoordinates : list coord)
    (maxDistance : R) (maxStations : nat) :
  exists matches,
    findStationsNearRoutePoints geoNear routeCoordinates maxDistance
      maxStations
    = selectEvenlySpacedStations None
        (Some <$> sortByRouteIndex matches) maxStations
    /\ NoDup ((fun m => stationId (station m)) <$> matches)
    /\ Forall (sampleMatch geoNear routeCoordinates maxDistance) matches.
Proof.
  unfold findStationsNearRoutePoints.
  fold (samplePoints routeCoordinates).
  eexists. split; [reflexivity|].
  assert (H : forall samples acc,
            samples ⊆ samplePoints routeCoordinates ->
            collected geoNear routeCoordinates maxDistance acc ->
            collected geoNear routeCoordinates maxDistance
              (fold_left (visitSample geoNear routeCoordinates maxDistance)
                 samples acc)).
  { induction samples as [|p samples IH]; intros acc Hsub Hinv; [done|].
    simpl. apply IH; [set_solver|].
    apply visitSample_collected; [|done]. apply Hsub. set_solver. }
  destruct (H (samplePoints routeCoordinates) []) as [Hnd Hall];
    [done | split; [constructor | constructor] |].
  split.
  - replace ((fun m => stationId (station m)) <$> (snd <$> _))
      with (fst <$> fold_left (visitSample geoNear routeCoordinates maxDistance)
                      (samplePoints routeCoordinates) []); [done|].
    rewrite <- list_fmap_compose. apply Forall_fmap_ext_1.
    eapply Forall_impl; [exact Hall|]. by intros kv [-> _].
  - rewrite Forall_fmap. eapply Forall_impl; [exact Hall|]. by intros kv [_ ?].
Qed.

End LocatorStrategies.

Section LocatorExtras.
Import Js RouteChargingLogic.
Local Open Scope R_scope.

Variable findInBox : Bounds -> nat -> result (list ChargingStation).
Variable geoNear : coord -> R -> result (list (ChargingStation * R)).

Lemma sampleFrom_lookup (sampleInterval : nat) (l : list coord) :
  forall i r j : nat,
  (r < sampleInterval)%nat ->
  ((i + r) mod sampleInterval = 0)%nat ->
  sampleFrom sampleInterval i l !! j = l !! (r + j * sampleInterval)%nat.
Proof.
  induction l as [|c l IH]; intros i r j Hr Hmod; simpl; [done|].
  destruct (Nat.eqb_spec (i mod sampleInterval) 0) as [Hi|Hi].
  - assert (r = 0%nat) as ->.
    { apply Nat.Div0.mod_divides in Hi as [q ->].
      rewrite Nat.add_comm, Nat.mul_comm, Nat.Div0.mod_add in Hmod.
      by rewrite Nat.mod_small in Hmod. }
    destruct j as [|j]; [done|]. simpl.
    rewrite (IH (S i) (sampleInterval - 1)%nat j); [| lia |].
    + destruct sampleInterval as [|k]; [lia|]. simpl.
      by rewrite Nat.sub_0_r.
    + replace (S i + (sampleInterval - 1))%nat
        with (i + 1 * sampleInterval)%nat by lia.
      rewrite Nat.Div0.mod_add. done.
  - destruct r as [|r].
    { by rewrite Nat.add_0_r in Hmod. }
    simpl. apply IH; [lia|].
    by replace (S i + r)%nat with (i + S r)%nat by lia.
Qed.

(** X15.  The sample points of the fallback strategy are the route vertices at
    the indices [0], [s], [2s], ... with [s = max(1, floor(n / 10))]. *)
Theorem samplePoints_lookup (routeCoordinates : list coord) (j : nat) :
  samplePoints routeCoordinates !! j
  = routeCoordinates
      !! (j * Nat.max 1 (length routeCoordinates / 10))%nat.
Proof.
  unfold samplePoints.
  rewrite (sampleFrom_lookup _ _ 0 0 j); [done | lia |].
  by rewrite Nat.Div0.mod_0_l.
Qed.

(** X14.  The projection of a station on a route: on the empty route it is index
    0 with no vertex and an infinite distance; otherwise it is the first
    vertex at the least distance from the station, with that distance
    rounded to one decimal. *)
Theorem findNearestPointOnRoute_nearest (stationCoords : coord)
    (routeCoordinates : list coord) :
  let position := findNearestPointOnRoute stationCoords routeCoordinates in
  (routeCoordinates = [] ->
   position = {| index := 0; coordinates := None; distanceKm := XPInf |})
  /\ (routeCoordinates <> [] ->
      (index position < length routeCoordinates)%nat
      /\ exists c,
           routeCoordinates !! index position = Some c
           /\ coordinates position = Some c
           /\ distanceKm position
              = XR (round1 (calculateDistance stationCoords c))
           /\ (forall j c', routeCoordinates !! j = Some c' ->
                 calculateDistance stationCoords c
                 <= calculateDistance stationCoords c')
           /\ (forall j c', (j < index position)%nat ->
                 routeCoordinates !! j = Some c' ->
                 calculateDistance stationCoords c
                 < calculateDistance stationCoords c')).
Proof.
  intros position. split.
  - intros ->. done.
  - intros Hne.
    destruct (findNearestPointOnRoute_spec stationCoords routeCoordinates Hne)
      as (c & Hc & H).
    split; [by eapply lookup_lt_Some | by exists c].
Qed.

Lemma findNearestPointOnRoute_nearest_witness :
  exists c,
    coordinates (findNearestPointOnRoute (1 / 100, 0) route9) = Some c.
Proof.
  destruct (findNearestPointOnRoute_nearest (1 / 100, 0) route9) as [_ H].
  destruct H as (_ & c & _ & Hc & _); [done|].
  by exists c.
Defined.

(** X16.  The bounding-box strategy returns at most [maxStations] matches, in
    the order of their route indices, with no undefined element; each is a
    station that the box query returned, projected on the route and no
    further from it than [maxDistance].  A failed or empty query gives the
    empty list. *)
Theorem findStationsWithinRouteBuffer_result (routeCoordinates : list coord)
    (maxDistance : R) (maxStations : nat) :
  let result :=
    findStationsWithinRouteBuffer findInBox routeCoordinates maxDistance
      maxStations in
  (length result <= maxStations)%nat
  /\ StronglySorted le (routeIndices result)
  /\ Forall (fun x => exists m,
               x = Some m
               /\ bufferMatch findInBox routeCoordinates maxDistance
                    maxStations m) result
  /\ ((forall nearbyStations,
         findInBox (expandedBounds routeCoordinates maxDistance)
           (maxStations * 5)%nat = Ok nearbyStations ->
         nearbyStations = []) ->
      result = []).
Proof.
  intros result.
  destruct (findStationsWithinRouteBuffer_matches findInBox routeCoordinates
              maxDistance maxStations) as (matches & Hres & Hall).
  fold result in Hres.
  destruct (sorted_selection matches maxStations)
    as (Hlen & Hsorted & _ & Hin).
  simpl in *. rewrite <- Hres in *.
  split_and!.
  - lia.
  - done.
  - rewrite Forall_forall. intros x Hx.
    destruct (Hin x Hx) as (m & -> & Hm). exists m. split; [done|].
    rewrite Forall_forall in Hall. by apply Hall.
  - intros Hnone. unfold result, findStationsWithinRouteBuffer.
    fold (expandedBounds routeCoordinates maxDistance).
    destruct (findInBox _ _) as [nearbyStations|e] eqn:Hfind; [|done].
    by rewrite (Hnone nearbyStations eq_refl).
Qed.

(** X17.  The sampling strategy returns at most [maxStations] matches, in the
    order of their route indices, with no undefined element and no station
    twice; each is a station that the geo-nearest query returned around a
    sample point of the route, whatever the queries answer or fail with. *)
Theorem findStationsNearRoutePoints_result (routeCoordinates : list coord)
    (maxDistance : R) (maxStations : nat) :
  let result :=
    findStationsNearRoutePoints geoNear routeCoordinates maxDistance
      maxStations in
  (length result <= maxStations)%nat
  /\ StronglySorted le (routeIndices result)
  /\ NoDup (stationIds result)
  /\ Forall (fun x => exists m,
               x = Some m
               /\ sampleMatch geoNear routeCoordinates maxDistance m) result.
Proof.
  intros result.
  destruct (findStationsNearRoutePoints_matches geoNear routeCoordinates
              maxDistance maxStations) as (matches & Hres & Hnd & Hall).
  fold result in Hres.
  destruct (sorted_selection matches maxStations)
    as (Hlen & Hsorted & Hdistinct & Hin).
  simpl in *. rewrite <- Hres in *.
  split_and!.
  - lia.
  - done.
  - by apply Hdistinct.
  - rewrite Forall_forall. intros x Hx.
    destruct (Hin x Hx) as (m & -> & Hm). exists m. split; [done|].
    rewrite Forall_forall in Hall. by apply Hall.
Qed.

(** X18.  The locator answers the empty list for a route of fewer than two
    vertices.  Otherwise it answers with the result of the bounding-box
    strategy when that is not empty, and with the result of the sampling
    strategy when it is; in every case with at most [maxStations] matches
    in the order of their route indices, none undefined, each projected on
    a vertex of the route. *)
Theorem findChargingStationsAlongRoute_result (routeCoordinates : list coord)
    (maxDistance : R) (maxStations : nat) :
  let result :=
    findChargingStationsAlongRoute findInBox geoNear routeCoordinates
      maxDistance maxStations in
  let buffered :=
    findStationsWithinRouteBuffer findInBox routeCoordinates maxDistance
      maxStations in
  let sampled :=
    findStationsNearRoutePoints geoNear routeCoordinates maxDistance
      maxStations in
  ((length routeCoordinates < 2)%nat -> result = [])
  /\ ((2 <= length routeCoordinates)%nat ->
      (buffered <> [] /\ result = buffered)
      \/ (buffered = [] /\ result = sampled))
  /\ (length result <= maxStations)%nat
  /\ StronglySorted le (routeIndices result)
  /\ Forall (fun x => exists m,
               x = Some m
               /\ (index (routePosition m) < length routeCoordinates)%nat)
       result
  /\ (Forall (fun x => exists m,
                 x = Some m
                 /\ bufferMatch findInBox routeCoordinates maxDistance
                      maxStations m) result
      \/ (NoDup (stationIds result)
          /\ Forall (fun x => exists m,
                       x = Some m
                       /\ sampleMatch geoNear routeCoordinates maxDistance m)
               result)).
Proof.
  intros result buffered sampled.
  pose proof (findStationsWithinRouteBuffer_matches findInBox routeCoordinates
                maxDistance maxStations) as (bm & Hb & Hball).
  pose proof (findStationsNearRoutePoints_matches geoNear routeCoordinates
                maxDistance maxStations) as (sm & Hs & Hsnd & Hsall).
  fold buffered in Hb. fold sampled in Hs.
  destruct (sorted_selection bm maxStations) as (Hblen & Hbsorted & _ & Hbin).
  destruct (sorted_selection sm maxStations)
    as (Hslen & Hssorted & Hsdistinct & Hsin).
  simpl in *. rewrite <- Hb in *. rewrite <- Hs in *.
  rewrite Forall_forall in Hball, Hsall.
  unfold result, findChargingStationsAlongRoute.
  fold buffered. fold sampled.
  destruct (Nat.ltb_spec (length routeCoordinates) 2) as [Hshort|Hlong].
  { split_and!; [done | lia | simpl; lia | constructor | constructor |].
    left. constructor. }
  assert (Hne : routeCoordinates <> []).
  { intros ->. simpl in Hlong. lia. }
  assert (Hidx : forall st,
            (index (findNearestPointOnRoute st routeCoordinates)
             < length routeCoordinates)%nat).
  { intros st.
    destruct (findNearestPointOnRoute_spec st routeCoordinates Hne)
      as (c & Hc & _).
    by eapply lookup_lt_Some. }
  destruct (Nat.ltb_spec 0 (length buffered)) as [Hfound|Hnone].
  - split_and!; [lia | | lia | done | |].
    + intros _. left. split; [|done].
      intros E. rewrite E in Hfound. simpl in Hfound. lia.
    + rewrite Forall_forall. intros x Hx.
      destruct (Hbin x Hx) as (m & -> & Hm). exists m. split; [done|].
      destruct (Hball m Hm) as (_ & -> & _). apply Hidx.
    + left. rewrite Forall_forall. intros x Hx.
      destruct (Hbin x Hx) as (m & -> & Hm). exists m. split; [done|].
      by apply Hball.
  - split_and!; [lia | | lia | done | |].
    + intros _. right. split; [|done]. apply nil_length_inv. lia.
    + rewrite Forall_forall. intros x Hx.
      destruct (Hsin x Hx) as (m & -> & Hm). exists m. split; [done|].
      destruct (Hsall m Hm) as (-> & _). apply Hidx.
    + right. split.
      * by apply Hsdistinct.
      * rewrite Forall_forall. intros x Hx.
        destruct (Hsin x Hx) as (m & -> & Hm). exists m. split; [done|].
        by apply Hsall.
Qed.

End LocatorExtras.

Section Tracking.
Import Js RouteLogic Server.
Local Open Scope string_scope.
Local Open Scope list_scope.

(** X19.  [GET /getActiveNavigation] in a reachable state, whatever the
    interleaving of the handlers.  Without a [userId], or with the empty
    one, the answer is 400.  For a vehicle without session in the table
    the answer carries [null].  For a vehicle with a session it carries the
    fields of that session; the progress is the reported index over the
    reported number of points, in per cent, when the plan has a point at
    all; the status is paused exactly when the session has no interval,
    and then no live interval ticks it, while an active session is ticked
    by a live interval. *)
Theorem getActiveNavigation_reports (s : State) (u : string) :
  reachable s -> u <> "" ->
  getActiveNavigation None s = Some UserIdRequired
  /\ getActiveNavigation (Some "") s = Some UserIdRequired
  /\ (activeNavigations s !! u = None ->
      getActiveNavigation (Some u) s = Some (ActiveNavigationBody None))
  /\ (forall a, activeNavigations s !! u = Some a ->
      exists n v,
        heap s !! a = Some n
        /\ getActiveNavigation (Some u) s
           = Some (ActiveNavigationBody (Some v))
        /\ reported_routeId v = routeId n
        /\ reported_routeName v = routeName n
        /\ reported_currentIndex v = currentIndex n
        /\ reported_totalPoints v = length (movementPoints n)
        /\ reported_currentPosition v = currentPosition n
        /\ reported_startTime v = startTime n
        /\ ((0 < reported_totalPoints v)%nat ->
            percentage_of (reported_currentIndex v) (reported_totalPoints v)
              (reported_progress v))
        /\ (reported_status v = paused <-> interval n = None)
        /\ (reported_status v = paused ->
            forall t c, timers s !! t = Some c -> callback_navigation c <> a)
        /\ (reported_status v = active ->
            exists t c, interval n = Some t /\ timers s !! t = Some c
                        /\ callback_navigation c = a)).
Proof.
  intros Hreach Hu.
  pose proof (reachable_wf s Hreach) as Hwf.
  split; [done|]. split; [done|].
  unfold getActiveNavigation.
  assert (truthy u = true) as -> by (by apply bool_decide_eq_true).
  split; [by intros ->|]. intros a Ha. rewrite Ha.
  destruct (wf_table s Hwf u a Ha) as (n & Hn & Hnu).
  pose proof (wf_status s Hwf u a n Ha Hn) as Hst.
  rewrite Hn. simpl.
  eexists n, _. split; [done|]. split; [reflexivity|]. simpl.
  split_and!; try done.
  - intros Hlen. by apply progressAt_percentage.
  - destruct (status n).
    + destruct Hst as (t & c & -> & _). split; intros; done.
    + done.
  - intros Hp. rewrite Hp in Hst. intros t c Ht Hnav.
    destruct (wf_timer s Hwf t c Ht) as (n' & Hn' & Hint & _).
    rewrite Hnav, Hn in Hn'. congruence.
  - intros Hact. by rewrite Hact in Hst.
Qed.

Lemma getActiveNavigation_reports_witness :
  exists n v,
    heap scenario2 !! 0%nat = Some n
    /\ getActiveNavigation (Some "A") scenario2
       = Some (ActiveNavigationBody (Some v))
    /\ reported_currentIndex v = currentIndex n.
Proof.
  assert (Hu : "A" <> "") by done.
  pose proof (getActiveNavigation_reports scenario2 "A" scenario2_reachable
                Hu) as (_ & _ & _ & H).
  destruct scenario2_session as (_ & _ & Htable).
  destruct (H 0%nat Htable) as (n & v & Hn & Hget & _ & _ & Hidx & _).
  exact (ex_intro _ n (ex_intro _ v (conj Hn (conj Hget Hidx)))).
Defined.

(** X20.  [GET /getLiveTracking] in a reachable state lists every vehicle of
    the table once, with the route, the position and the progress of its
    session; [totalLiveRoutes] is the size of the table.  Every entry has
    the status [alive], paused sessions included. *)
Theorem getLiveTracking_reports (s : State) :
  reachable s ->
  exists tracking,
    getLiveTracking s = Some tracking
    /\ success tracking = true
    /\ totalLiveRoutes tracking = size (activeNavigations s)
    /\ length (liveRoutes tracking) = totalLiveRoutes tracking
    /\ NoDup (live_userId <$> liveRoutes tracking)
    /\ (forall u a, activeNavigations s !! u = Some a ->
          exists n entry,
            heap s !! a = Some n
            /\ entry ∈ liveRoutes tracking
            /\ live_userId entry = u
            /\ live_routeId entry = routeId n
            /\ live_routeName entry = routeName n
            /\ live_currentPosition entry = currentPosition n
            /\ live_progress entry = progressOf n
            /\ live_startTime entry = startTime n)
    /\ (forall entry, entry ∈ liveRoutes tracking ->
          is_Some (activeNavigations s !! live_userId entry)
          /\ live_status entry = "alive").
Proof.
  intros Hreach. pose proof (reachable_wf s Hreach) as Hwf.
  unfold getLiveTracking.
  set (f := fun entry : string * ref => _).
  assert (Hsome : is_Some (mapM f (map_to_list (activeNavigations s)))).
  { apply mapM_is_Some. rewrite Forall_forall. intros [u a] Hin.
    apply elem_of_map_to_list in Hin.
    destruct (wf_table s Hwf u a Hin) as (n & Hn & _).
    unfold f. simpl. rewrite Hn. done. }
  destruct Hsome as [l Hl]. rewrite Hl. simpl.
  apply mapM_Some in Hl.
  eexists. split; [reflexivity|]. simpl.
  assert (Hids : live_userId <$> l
                 = fst <$> map_to_list (activeNavigations s)).
  { clear -Hl. induction Hl as [|[u a] y xs ys Hxy _ IH]; [done|].
    rewrite !fmap_cons, IH. f_equal. unfold f in Hxy. simpl in Hxy.
    destruct (heap s !! a); simplify_eq/=. done. }
  split_and!.
  - done.
  - rewrite <- (Forall2_length _ _ _ Hl). apply length_map_to_list.
  - done.
  - rewrite Hids. apply NoDup_fst_map_to_list.
  - intros u a Hua.
    destruct (wf_table s Hwf u a Hua) as (n & Hn & _).
    apply elem_of_map_to_list in Hua.
    apply list_elem_of_lookup in Hua as [i Hi].
    destruct (Forall2_lookup_l _ _ _ _ _ Hl Hi) as (entry & Hentry & Hf).
    unfold f in Hf. simpl in Hf. rewrite Hn in Hf. simpl in Hf.
    injection Hf as <-.
    exists n. eexists. split; [done|].
    split; [by eapply list_elem_of_lookup_2|]. done.
  - intros entry Hentry.
    apply list_elem_of_lookup in Hentry as [i Hi].
    destruct (Forall2_lookup_r _ _ _ _ _ Hl Hi) as ([u a] & Hx & Hf).
    unfold f in Hf. simpl in Hf.
    destruct (heap s !! a) as [n|]; simplify_eq/=.
    split; [|done]. exists a.
    apply elem_of_map_to_list. by eapply list_elem_of_lookup_2.
Qed.

Lemma getLiveTracking_reports_witness :
  exists tracking,
    getLiveTracking scenario2 = Some tracking
    /\ totalLiveRoutes tracking = size (activeNavigations scenario2).
Proof.
  destruct (getLiveTracking_reports scenario2 scenario2_reachable)
    as (tracking & Hget & _ & Htotal & _).
  exact (ex_intro _ tracking (conj Hget Htotal)).
Defined.

(** X21.  The tracking endpoint runs one step ahead of the events.
    After a whole firing (one that nothing interleaves) on a session of the
    table, which publishes the index [i] with the progress
    [i / len * 100], [/getActiveNavigation] reports the position
    [movementPoints[i]], but the index [i + 1] and the progress
    [(i + 1) / len * 100]. *)
Theorem tracking_after_tick (s : State) (t : handle) (c : Timer)
    (n : Navigation) (now : Z) (db : Outcomes) :
  timers s !! t = Some c ->
  heap s !! callback_navigation c = Some n ->
  activeNavigations s !! callback_userId c = Some (callback_navigation c) ->
  (currentIndex n < length (movementPoints n))%nat ->
  callback_userId c <> "" ->
  let len := length (movementPoints n) in
  exists s' eff p v,
    step s (Tick t now db) = Some (s', mkOutput None eff)
    /\ published eff = [(currentIndex n, p)]
    /\ percentage_of (currentIndex n) len p
    /\ getActiveNavigation (Some (callback_userId c)) s'
       = Some (ActiveNavigationBody (Some v))
    /\ reported_currentIndex v = S (currentIndex n)
    /\ reported_totalPoints v = len
    /\ percentage_of (S (currentIndex n)) len (reported_progress v)
    /\ reported_currentPosition v
       = at_index (movementPoints n) (currentIndex n).
Proof.
  intros Ht Hn Htable Hlt Hu len.
  destruct (tick_position s t c n now db Ht Hn Hlt)
    as (s' & pre & Htick & Hpre & Hheap & _ & Hnav & _).
  simpl. rewrite Htick. simpl.
  eexists s', _, (progressOf n), _. split; [reflexivity|].
  split.
  { destruct Hpre as [-> | ->]; reflexivity. }
  split; [apply progressAt_percentage; lia|].
  unfold getActiveNavigation.
  assert (truthy (callback_userId c) = true) as ->
    by (by apply bool_decide_eq_true).
  rewrite Hnav, Htable, Hheap, lookup_insert_eq. simpl.
  split; [reflexivity|]. simpl. split_and!; try done.
  apply progressAt_percentage. lia.
Qed.

Lemma tracking_after_tick_witness :
  exists s' eff v,
    step scenario2 (Tick 0 2000 resolves) = Some (s', mkOutput None eff)
    /\ getActiveNavigation (Some "A") s'
       = Some (ActiveNavigationBody (Some v))
    /\ reported_currentIndex v = 1%nat.
Proof.
  destruct scenario2_session as (Hheap & Htimer & Htable).
  destruct (tracking_after_tick scenario2 0%nat (StartCallback 0 "A" "R")
              scenario2_navigation 2000 resolves Htimer Hheap Htable)
    as (s' & eff & p & v & Hstep & _ & _ & Hget & Hidx & _).
  - simpl. lia.
  - done.
  - exact (ex_intro _ s' (ex_intro _ eff (ex_intro _ v
             (conj Hstep (conj Hget Hidx))))).
Defined.

End Tracking.
